(** * js-tools: the SVG path editor and the preset manager

    A shallow embedding of [svg-path-editor.js] (the [PathEditor] object) and
    of the preset manager ([PresetManagerFactory]), with the properties of
    their specification stated and proved over it.

    Conventions of the embedding.
    - A JavaScript string is a Rocq [string] whose characters are the code
      units of the JavaScript string; the embedding covers the code units
      0..255, among which the white space of [\s] and of [trim] is
      TAB, LF, VT, FF, CR, SPACE and NBSP (160).
    - A JavaScript number is an IEEE 754 binary64 value, here the
      [spec_float] of the Standard Library at precision 53 and maximal
      exponent 1024, rounded to nearest, ties to even.
    - A JavaScript object is the list of its own properties in the order of
      their creation; [Object.keys] lists the array indices first, in
      ascending order, and then the other names in that order of creation.
    - A thrown exception is the [Throw] case of [result]. *)

From Stdlib Require Import ZArith Arith Wf_nat List String Ascii Bool Lia.
From Stdlib Require Import Permutation Sorted SpecFloat.
Import ListNotations.
Open Scope string_scope.

(* ================================================================== *)
(** * The fragment of ECMAScript the sources use *)
(* ================================================================== *)

Module Js.

(** ** Strings *)

(** [\s] of regular expressions, the white space [trim] strips and the
    [StrWhiteSpaceChar] of [Number]: the same set of code units. *)
Definition is_space (c : ascii) : bool :=
  let n := nat_of_ascii c in
  (((9 <=? n) && (n <=? 13)) || (n =? 32) || (n =? 160))%nat.

(** [[A-Za-z]]. *)
Definition is_letter (c : ascii) : bool :=
  let n := nat_of_ascii c in
  (((65 <=? n) && (n <=? 90)) || ((97 <=? n) && (n <=? 122)))%nat.

(** [[0-9]]. *)
Definition is_digit (c : ascii) : bool :=
  let n := nat_of_ascii c in ((48 <=? n) && (n <=? 57))%nat.

Definition is_empty (s : string) : bool :=
  match s with EmptyString => true | String _ _ => false end.

(** [s.trimStart()]. *)
Fixpoint trimStart (s : string) : string :=
  match s with
  | EmptyString => EmptyString
  | String c r => if is_space c then trimStart r else s
  end.

(** [s.trimEnd()]: a character is dropped when it is white space and
    nothing but white space follows it. *)
Fixpoint trimEnd (s : string) : string :=
  match s with
  | EmptyString => EmptyString
  | String c r =>
      let r' := trimEnd r in
      if is_space c && is_empty r' then EmptyString else String c r'
  end.

(** [s.trim()]. *)
Definition trim (s : string) : string := trimEnd (trimStart s).

(** [s.endsWith(suffix)]. *)
Definition endsWith (s suffix : string) : bool :=
  let n := String.length s in
  let k := String.length suffix in
  (k <=? n)%nat && String.eqb (substring (n - k) k s) suffix.

(** [s.split(/[\s,]+/)]: the pieces of [s] between the maximal runs of
    separators.  [cur] is the piece being read and [in_sep] tells that the
    last character read was a separator.  A separator at either end of the
    string leaves an empty piece there, and the empty string has the one
    piece [""]. *)
Definition is_sep (c : ascii) : bool := is_space c || Ascii.eqb c ",".

Fixpoint split_from (cur : string) (in_sep : bool) (s : string) : list string :=
  match s with
  | EmptyString => [cur]
  | String c r =>
      if is_sep c
      then if in_sep then split_from EmptyString true r
           else cur :: split_from EmptyString true r
      else split_from (cur ++ String c EmptyString) false r
  end.

Definition split_seps (s : string) : list string := split_from EmptyString false s.

(** ** Numbers *)

(** The numbers are the members of [spec_float] that [valid_binary] holds
    of at this precision. *)
Definition number : Set := spec_float.

Definition prec : Z := 53.
Definition emax : Z := 1024.

Definition NaN : number := S754_nan.

(** [x === y] on numbers: [NaN] differs from itself and the two zeros are
    equal. *)
Definition num_eqb (x y : number) : bool := SFeqb x y.

(** The number nearest to [(-1)^neg * m * 10^e], for [0 <= m]: the rounding
    that [Number] applies to the mathematical value of a decimal literal. *)
Definition round_decimal (neg : bool) (m e : Z) : number :=
  match m with
  | Zpos p =>
      match e with
      | Zneg k =>
          SFdiv prec emax (S754_finite neg p 0) (S754_finite false (Pos.pow 10 k) 0)
      | Zpos k => binary_round prec emax neg (p * Pos.pow 10 k) 0
      | Z0 => binary_round prec emax neg p 0
      end
  | _ => S754_zero neg
  end.

Definition digit_value (c : ascii) : Z := Z.of_nat (nat_of_ascii c - 48).

(** Reads the longest run of digits at the head of [s]: the value of
    [acc] followed by those digits, their count added to [cnt], and what
    follows them. *)
Fixpoint read_digits (acc : Z) (cnt : Z) (s : string) : Z * Z * string :=
  match s with
  | EmptyString => (acc, cnt, EmptyString)
  | String c r =>
      if is_digit c then read_digits (10 * acc + digit_value c) (cnt + 1) r
      else (acc, cnt, s)
  end.

(** [StrUnsignedDecimalLiteral] without exponent: [digits], [digits.],
    [digits.digits] or [.digits].  The result [(m, f)] stands for
    [m / 10^f]. *)
Definition parse_decimal (s : string) : option (Z * Z) :=
  let '(ip, ni, r1) := read_digits 0 0 s in
  match r1 with
  | EmptyString => if (ni =? 0)%Z then None else Some (ip, 0%Z)
  | String c r2 =>
      if Ascii.eqb c "." then
        let '(m, nf, r3) := read_digits ip 0 r2 in
        if is_empty r3 && negb ((ni + nf =? 0)%Z) then Some (m, nf) else None
      else None
  end.

(** [Number(s)] for a string [s] free of ASCII letters, as every string is
    that [parsePath] converts.  In the grammar [StringNumericLiteral] the
    literal [Infinity], the exponent part and the radix prefixes all need a
    letter, so what is left is white space around an optional sign and a
    decimal literal; the empty literal is [+0] and anything else is [NaN]. *)
Definition Number (s : string) : number :=
  match trim s with
  | EmptyString => S754_zero false
  | String c r =>
      let '(neg, body) :=
        if Ascii.eqb c "-" then (true, r)
        else if Ascii.eqb c "+" then (false, r)
        else (false, String c r) in
      match parse_decimal body with
      | Some (m, f) => round_decimal neg m (- f)
      | None => NaN
      end
  end.

(** *** Number::toString *)

Definition digit_char (d : Z) : ascii := ascii_of_nat (48 + Z.to_nat d).

(** The decimal digits of [z], least significant first. *)
Fixpoint digits_lsd (fuel : nat) (z : Z) : list ascii :=
  match fuel with
  | O => []
  | S f =>
      if (z <? 10)%Z then [digit_char z]
      else digit_char (z mod 10) :: digits_lsd f (z / 10)
  end.

Definition decimal_digits (z : Z) : list ascii :=
  rev (digits_lsd (S (Z.to_nat (Z.log2 z))) z).

Definition decimal (z : Z) : string := string_of_list_ascii (decimal_digits z).

Fixpoint zeros (n : nat) : string :=
  match n with O => EmptyString | S k => String "0" (zeros k) end.

(** [x < 10^n] for the positive rational [x = num / den]. *)
Definition below_pow10 (num den n : Z) : bool :=
  match n with
  | Zneg k => (num * Z.pow 10 (Zpos k) <? den)%Z
  | _ => (num <? den * Z.pow 10 n)%Z
  end.

(** The [n] with [10^(n-1) <= num / den < 10^n], searched upwards from an
    under-estimate drawn from the binary logarithms. *)
Fixpoint first_below (fuel : nat) (num den n : Z) : Z :=
  match fuel with
  | O => n
  | S f => if below_pow10 num den n then n else first_below f num den (n + 1)
  end.

Definition decimal_exponent (num den : Z) : Z :=
  let est := ((Z.log2 num - Z.log2 den) * 1233 / 4096)%Z in
  first_below 6 num den (est - 2).

(** The candidates with [k] digits for [x = num / den], [n0] its decimal
    exponent: the two integers around [x * 10^(k - n0)], the nearer to [x]
    first, and at equal distance the even one first.  A candidate [10^k]
    is the digit 1 followed by zeros one decimal place higher. *)
Definition candidates (num den n0 k : Z) : list (Z * Z) :=
  let '(a, b) :=
    match (k - n0)%Z with
    | Zneg j => (num, den * Z.pow 10 (Zpos j))
    | j => (num * Z.pow 10 j, den)
    end%Z in
  let fl := (a / b)%Z in
  let r := (a mod b)%Z in
  let norm c := if (c =? Z.pow 10 k)%Z then (Z.pow 10 (k - 1), n0 + 1)%Z else (c, n0) in
  if (r =? 0)%Z then [norm fl]
  else
    match (2 * r ?= b)%Z with
    | Lt => [norm fl; norm (fl + 1)%Z]
    | Gt => [norm (fl + 1)%Z; norm fl]
    | Eq => if Z.even fl then [norm fl; norm (fl + 1)%Z] else [norm (fl + 1)%Z; norm fl]
    end.

(** The first candidate of [k] digits that [Number] would read back as
    [x]. *)
Fixpoint first_exact (x : number) (k : Z) (cs : list (Z * Z)) : option (Z * Z) :=
  match cs with
  | [] => None
  | (s, n) :: cs' =>
      if (Z.pow 10 (k - 1) <=? s)%Z && (s <? Z.pow 10 k)%Z
         && num_eqb (round_decimal false s (n - k)) x
      then Some (s, n)
      else first_exact x k cs'
  end.

(** The integers [s], [n], [k] of Number::toString for the positive finite
    [x = m * 2^e]: [k] as small as possible with [10^(k-1) <= s < 10^k] and
    [s * 10^(n-k)] rounding to [x].  Digit counts are tried from [k]
    upwards, [fuel] of them. *)
Fixpoint shortest_from (fuel : nat) (x : number) (num den n0 k : Z) : option (Z * Z * Z) :=
  match fuel with
  | O => None
  | S f =>
      match first_exact x k (candidates num den n0 k) with
      | Some (s, n) => Some (s, n, k)
      | None => shortest_from f x num den n0 (k + 1)
      end
  end.

Definition shortest (m : positive) (e : Z) : option (Z * Z * Z) :=
  let '(num, den) :=
    match e with
    | Zneg j => (Zpos m, Z.pow 2 (Zpos j))
    | _ => (Zpos m * Z.pow 2 e, 1)%Z
    end in
  shortest_from 17 (S754_finite false m e) num den (decimal_exponent num den) 1.

(** Steps 6 to 9 of Number::toString: plain notation when [-6 < n <= 21],
    otherwise the exponent notation. *)
Definition format_digits (s n k : Z) : string :=
  let ds := decimal s in
  if ((k <=? n) && (n <=? 21))%Z then ds ++ zeros (Z.to_nat (n - k))
  else if ((0 <? n) && (n <=? 21))%Z then
    substring 0 (Z.to_nat n) ds ++ "." ++ substring (Z.to_nat n) (Z.to_nat (k - n)) ds
  else if ((-6 <? n) && (n <=? 0))%Z then "0." ++ zeros (Z.to_nat (- n)) ++ ds
  else
    let e := (n - 1)%Z in
    let exp := (if (e <? 0)%Z then "-" else "+") ++ decimal (Z.abs e) in
    if (k =? 1)%Z then ds ++ "e" ++ exp
    else substring 0 1 ds ++ "." ++ substring 1 (Z.to_nat (k - 1)) ds ++ "e" ++ exp.

(** [String(x)] for a number [x].  Seventeen digits tell any two binary64
    values apart, so the search of [shortest] finds its digits; the last
    case prints the seventeen-digit decimal nearest to [x]. *)
Definition number_to_string (x : number) : string :=
  match x with
  | S754_nan => "NaN"
  | S754_zero _ => "0"
  | S754_infinity neg => if neg then "-Infinity" else "Infinity"
  | S754_finite neg m e =>
      (if neg then "-" else "") ++
      match shortest m e with
      | Some (s, n, k) => format_digits s n k
      | None =>
          let '(num, den) :=
            match e with
            | Zneg j => (Zpos m, Z.pow 2 (Zpos j))
            | _ => (Zpos m * Z.pow 2 e, 1)%Z
            end in
          match candidates num den (decimal_exponent num den) 17 with
          | (s, n) :: _ => format_digits s n 17
          | [] => "NaN"
          end
      end
  end.

(** ** Values, objects and exceptions *)

(** The primitive values. *)
Inductive value : Set :=
  | VUndefined
  | VNull
  | VBool (b : bool)
  | VNum (x : number)
  | VStr (s : string).

(** [String(v)], the conversion applied by a template literal and by [+]
    when the other operand is a string. *)
Definition to_string (v : value) : string :=
  match v with
  | VUndefined => "undefined"
  | VNull => "null"
  | VBool b => if b then "true" else "false"
  | VNum x => number_to_string x
  | VStr s => s
  end.

(** [v === s] for a string literal [s]. *)
Definition is_string (v : value) (s : string) : bool :=
  match v with VStr t => String.eqb t s | _ => false end.

(** [v !== undefined]. *)
Definition is_defined (v : value) : bool :=
  match v with VUndefined => false | _ => true end.

(** An object: its own properties, oldest first. *)
Definition object (V : Type) : Type := list (string * V).

(** The own property [k] of [o], if any. *)
Fixpoint own {V : Type} (o : object V) (k : string) : option V :=
  match o with
  | [] => None
  | (k', v) :: o' => if String.eqb k' k then Some v else own o' k
  end.

(** [o[k] = v] on the own properties: the value of an existing property
    is replaced where it stands, a new property is added at the end. *)
Fixpoint put {V : Type} (o : object V) (k : string) (v : V) : object V :=
  match o with
  | [] => [(k, v)]
  | (k', v') :: o' =>
      if String.eqb k' k then (k', v) :: o' else (k', v') :: put o' k v
  end.

(** The names of the own properties, in the order of their creation. *)
Definition names {V : Type} (o : object V) : list string := map fst o.

(** The array index a property name stands for, if any: the name is the
    canonical decimal form of an integer from 0 to 2^32 - 2. *)
Definition array_index (k : string) : option Z :=
  let '(n, cnt, rest) := read_digits 0 0 k in
  if is_empty rest && negb (is_empty k)
     && (String.eqb k "0" || negb (String.eqb (substring 0 1 k) "0"))
     && (n <=? 4294967294)%Z
  then Some n else None.

Fixpoint insert_index (i : Z) (k : string) (l : list (Z * string)) : list (Z * string) :=
  match l with
  | [] => [(i, k)]
  | (j, k') :: l' =>
      if (i <=? j)%Z then (i, k) :: l else (j, k') :: insert_index i k l'
  end.

(** The own property names that are array indices, in ascending order. *)
Fixpoint index_names (ks : list string) : list (Z * string) :=
  match ks with
  | [] => []
  | k :: ks' =>
      match array_index k with
      | Some i => insert_index i k (index_names ks')
      | None => index_names ks'
      end
  end.

Definition is_index (k : string) : bool :=
  match array_index k with Some _ => true | None => false end.

(** [Object.keys(o)]: the array indices in ascending order, then the other
    names in the order of their creation. *)
Definition keys {V : Type} (o : object V) : list string :=
  map snd (index_names (names o)) ++ filter (fun k => negb (is_index k)) (names o).

(** The exceptions the sources can raise: a [TypeError], and the
    [DOMException]s named [SyntaxError] and [InvalidStateError]. *)
Inductive error : Set := TypeError | SyntaxError | InvalidStateError.

Inductive result (A : Type) : Type :=
  | Ok (a : A)
  | Throw (e : error).

Arguments Ok {A} a.
Arguments Throw {A} e.

End Js.

(* ================================================================== *)
(** * svg-path-editor.js *)
(* ================================================================== *)

Module PathEditor.
Import Js.

(** A command object of [parsePath]: every name it reads is absent from
    [Object.prototype], so a property that is not its own is [undefined]. *)
Definition commandObject : Type := object value.

Definition field (o : commandObject) (k : string) : value :=
  match own o k with Some v => v | None => VUndefined end.

(** ** parsePath *)

(** [[MmLlCcAaZz]], the first group of the regular expression. *)
Definition is_command (c : ascii) : bool :=
  match c with
  | "M" | "m" | "L" | "l" | "C" | "c" | "A" | "a" | "Z" | "z" => true
  | _ => false
  end%char.

(** The longest prefix of [s] free of letters, and what follows it. *)
Fixpoint span_nonletters (s : string) : string * string :=
  match s with
  | EmptyString => (EmptyString, EmptyString)
  | String c r =>
      if is_letter c then (EmptyString, s)
      else let '(a, b) := span_nonletters r in (String c a, b)
  end.

(** The groups of one match: [match[1]] and [match[2]], the latter
    [None] when the optional group took no part. *)
Record regex_match : Set := { group1 : ascii; group2 : option string }.

(** One call of [regex.exec(d)] for the global expression
    [/([MmLlCcAaZz])\s*([^A-Za-z]+)?/g], where [s] is [d] from
    [lastIndex] on: the match starts at the first command letter, [\s*]
    takes all the white space that follows and the second group the
    longest run of characters that are no letters, if there is one.  The
    result carries what is left of [d] after the match, where the next
    call starts. *)
Fixpoint regex_exec (s : string) : option (regex_match * string) :=
  match s with
  | EmptyString => None
  | String c r =>
      if is_command c then
        let '(args, rest) := span_nonletters (trimStart r) in
        Some ({| group1 := c; group2 := if is_empty args then None else Some args |}, rest)
      else regex_exec r
  end.

(** [coords[i]]: [undefined] beyond the end of the array. *)
Definition coord (coords : list number) (i : nat) : value :=
  match nth_error coords i with Some x => VNum x | None => VUndefined end.

(** The body of the [while] loop for one match. *)
Definition command_of_match (m : regex_match) : commandObject :=
  let command := String (group1 m) EmptyString in
  let commandObj := [("command", VStr command)] in
  if String.eqb command "Z" || String.eqb command "z" then commandObj
  else
    let coords :=
      map Number
        (split_seps (trim (match group2 m with Some a => a | None => "" end))) in
    if String.eqb command "M" || String.eqb command "m"
       || String.eqb command "L" || String.eqb command "l" then
      let commandObj := put commandObj "x" (coord coords 0) in
      put commandObj "y" (coord coords 1)
    else if String.eqb command "C" || String.eqb command "c" then
      let commandObj := put commandObj "x1" (coord coords 0) in
      let commandObj := put commandObj "y1" (coord coords 1) in
      let commandObj := put commandObj "x2" (coord coords 2) in
      let commandObj := put commandObj "y2" (coord coords 3) in
      let commandObj := put commandObj "x" (coord coords 4) in
      put commandObj "y" (coord coords 5)
    else if String.eqb command "A" || String.eqb command "a" then
      let commandObj := put commandObj "rx" (coord coords 0) in
      let commandObj := put commandObj "ry" (coord coords 1) in
      let commandObj := put commandObj "xAxisRotation" (coord coords 2) in
      let commandObj := put commandObj "largeArcFlag" (coord coords 3) in
      let commandObj := put commandObj "sweepFlag" (coord coords 4) in
      let commandObj := put commandObj "x" (coord coords 5) in
      put commandObj "y" (coord coords 6)
    else commandObj.

(** The [while] loop: [s] is [d] from [lastIndex] on and [pathData] the
    array built so far.  Every match takes at least its command letter, so
    the loop runs at most once per character of [d]. *)
Fixpoint exec_loop (fuel : nat) (s : string) (pathData : list commandObject)
  : list commandObject :=
  match fuel with
  | O => pathData
  | S f =>
      match regex_exec s with
      | None => pathData
      | Some (m, rest) => exec_loop f rest (pathData ++ [command_of_match m])
      end
  end.

Definition parsePath (d : string) : list commandObject :=
  exec_loop (String.length d) d [].

(** ** The document *)

(** A path element: its [id] and its [d] attribute, [None] when the
    attribute is absent. *)
Record element : Set := { elem_id : string; attr_d : option string }.

(** The elements of the document, in tree order; an element is referred
    to by its position. *)
Definition document : Set := list element.

(** [document.getElementById(id)]: the first element with that id. *)
Fixpoint getElementById (doc : document) (id : string) : option element :=
  match doc with
  | [] => None
  | e :: doc' =>
      if negb (is_empty id) && String.eqb (elem_id e) id then Some e
      else getElementById doc' id
  end.

(** [elem.setAttribute('d', s)] for the element at position [node]. *)
Fixpoint setAttribute_d (doc : document) (node : nat) (s : string) : document :=
  match doc, node with
  | [], _ => []
  | e :: doc', O => {| elem_id := elem_id e; attr_d := Some s |} :: doc'
  | e :: doc', S n => e :: setAttribute_d doc' n s
  end.

(** ** generatePath *)

(** What one turn of [forEach] appends to [dString]. *)
Definition emit (commandObj : commandObject) : string :=
  let command := field commandObj "command" in
  let f k := to_string (field commandObj k) in
  (to_string command ++ " ") ++
  (if is_string command "M" || is_string command "m"
      || is_string command "L" || is_string command "l" then
     f "x" ++ "," ++ f "y" ++ " "
   else if is_string command "C" || is_string command "c" then
     f "x1" ++ "," ++ f "y1" ++ " " ++ f "x2" ++ "," ++ f "y2" ++ " "
       ++ f "x" ++ "," ++ f "y" ++ " "
   else if is_string command "A" || is_string command "a" then
     f "rx" ++ "," ++ f "ry" ++ " " ++ f "xAxisRotation" ++ " "
       ++ f "largeArcFlag" ++ "," ++ f "sweepFlag" ++ " "
       ++ f "x" ++ "," ++ f "y" ++ " "
   else "").

(** [originalPathD && originalPathD.trim().endsWith('Z')]: an absent
    attribute is [null] and the empty string is falsy. *)
Definition ends_closed (originalPathD : option string) : bool :=
  match originalPathD with
  | None => false
  | Some s => negb (is_empty s) && endsWith (trim s) "Z"
  end.

(** [generatePath(pathData, pathId)]; reading the attribute of a missing
    element raises a [TypeError]. *)
Definition generatePath (doc : document) (pathData : list commandObject)
  (pathId : string) : result string :=
  let dString := fold_left (fun acc commandObj => acc ++ emit commandObj) pathData "" in
  match getElementById doc pathId with
  | None => Throw TypeError
  | Some elem =>
      let originalPathD := attr_d elem in
      let dString := if ends_closed originalPathD then dString ++ "Z" else dString in
      Ok (trim dString)
  end.

(** ** drawMarkers *)

(** A marker circle: the attributes that tell it from the others. *)
Record marker : Set := {
  cx : string;
  cy : string;
  fill : string;
  data_index : nat;
  data_point_type : option string
}.

Definition marker_at (commandObj : commandObject) (kx ky fill : string)
  (index : nat) (pointType : option string) : list marker :=
  if is_defined (field commandObj kx) && is_defined (field commandObj ky) then
    [{| cx := to_string (field commandObj kx);
        cy := to_string (field commandObj ky);
        fill := fill; data_index := index; data_point_type := pointType |}]
  else [].

Fixpoint markers_from (index : nat) (parsedPathData : list commandObject) : list marker :=
  match parsedPathData with
  | [] => []
  | commandObj :: rest =>
      marker_at commandObj "x" "y" "#f44336" index None
      ++ marker_at commandObj "x1" "y1" "#4caf50" index (Some "C1")
      ++ marker_at commandObj "x2" "y2" "#4caf50" index (Some "C2")
      ++ markers_from (S index) rest
  end.

(** The children of the markers group after [drawMarkers(parsedPathData)]. *)
Definition drawMarkers (parsedPathData : list commandObject) : list marker :=
  markers_from 0 parsedPathData.

(** ** The editor *)

(** An editor instance: the position of its path element in the document
    and the children of its markers group. *)
Record editor : Set := { pathElem : nat; markers : list marker }.

(** The argument of [updatePath].  The index is the integer read from
    [data-index]; an index that is no integer finds no command either. *)
Record updateData : Set := {
  upd_x : value;
  upd_y : value;
  upd_index : Z;
  upd_pointType : string
}.

(** [d] converted to a string by [regex.exec]: [getAttribute] gives [null]
    for an absent attribute. *)
Definition attribute_string (a : option string) : string :=
  match a with Some s => s | None => "null" end.

(** [parsedPathData[index]]. *)
Definition at_index {A : Type} (l : list A) (i : Z) : option A :=
  if (i <? 0)%Z then None else nth_error l (Z.to_nat i).

(** The array after the element at [i] was replaced by [a]. *)
Fixpoint replace_at {A : Type} (l : list A) (i : nat) (a : A) : list A :=
  match l, i with
  | [], _ => []
  | _ :: l', O => a :: l'
  | b :: l', S n => b :: replace_at l' n a
  end.

(** The assignments of [updatePath] to the command object. *)
Definition move_point (commandObj : commandObject) (u : updateData) : commandObject :=
  if String.eqb (upd_pointType u) "C1" then
    put (put commandObj "x1" (upd_x u)) "y1" (upd_y u)
  else if String.eqb (upd_pointType u) "C2" then
    put (put commandObj "x2" (upd_x u)) "y2" (upd_y u)
  else
    put (put commandObj "x" (upd_x u)) "y" (upd_y u).

(** [getPathData()]; a missing path element raises a [TypeError]. *)
Definition getPathData (ed : editor) (doc : document) : result (list commandObject) :=
  match nth_error doc (pathElem ed) with
  | None => Throw TypeError
  | Some elem => Ok (parsePath (attribute_string (attr_d elem)))
  end.

(** [applyPathData(newPathData)]: the document and the editor afterwards. *)
Definition applyPathData (ed : editor) (doc : document)
  (newPathData : list commandObject) : result (document * editor) :=
  match nth_error doc (pathElem ed) with
  | None => Throw TypeError
  | Some elem =>
      match generatePath doc newPathData (elem_id elem) with
      | Throw e => Throw e
      | Ok s =>
          Ok (setAttribute_d doc (pathElem ed) s,
              {| pathElem := pathElem ed; markers := drawMarkers newPathData |})
      end
  end.

(** [updatePath(updateData)]: the document and the editor afterwards.
    Assigning to a property of [undefined], when no command has the index,
    raises a [TypeError]. *)
Definition updatePath (ed : editor) (doc : document) (u : updateData)
  : result (document * editor) :=
  match nth_error doc (pathElem ed) with
  | None => Throw TypeError
  | Some elem =>
      let parsedPathData := parsePath (attribute_string (attr_d elem)) in
      match at_index parsedPathData (upd_index u) with
      | None => Throw TypeError
      | Some commandObj =>
          let parsedPathData :=
            replace_at parsedPathData (Z.to_nat (upd_index u)) (move_point commandObj u) in
          match generatePath doc parsedPathData (elem_id elem) with
          | Throw e => Throw e
          | Ok s =>
              Ok (setAttribute_d doc (pathElem ed) s,
                  {| pathElem := pathElem ed; markers := drawMarkers parsedPathData |})
          end
      end
  end.

(** ** init: the drag handlers *)

(** The variables the handlers of [init] close over. *)
Record dragState : Set := { isDragging : bool; activeMarker : option marker }.

Definition idle : dragState := {| isDragging := false; activeMarker := None |}.

(** [init(pathElem, markersGroup)] for the path element at position [node]
    and a markers group of its own: the editor with its first markers, and
    the handlers at rest.  A missing path element raises a [TypeError]. *)
Definition init (doc : document) (node : nat) : result (editor * dragState) :=
  match nth_error doc node with
  | None => Throw TypeError
  | Some elem =>
      Ok ({| pathElem := node;
             markers := drawMarkers (parsePath (attribute_string (attr_d elem))) |},
          idle)
  end.

(** [handleStart]: [target] is [e.target.closest('.draggable-marker')]. *)
Definition handleStart (st : dragState) (target : option marker) : dragState :=
  match target with
  | Some t => {| isDragging := true; activeMarker := Some t |}
  | None => st
  end.

(** [activeMarker.getAttribute('data-point-type') || 'endpoint']. *)
Definition pointType_of (m : marker) : string :=
  match data_point_type m with
  | Some t => if is_empty t then "endpoint" else t
  | None => "endpoint"
  end.

(** A [mousemove] or [touchmove] event as [handleMove] reads it: whether
    its type holds [touch], the client coordinates of its touches and its
    own client coordinates, finite numbers all. *)
Record pointer : Set := {
  touch : bool;
  touches : list (number * number);
  clientX : number;
  clientY : number
}.

(** [e.type.includes('touch') ? e.touches[0].clientX : e.clientX], and the
    same for [clientY]: reading a coordinate of [e.touches[0]] raises a
    [TypeError] when the event carries no touch. *)
Definition client (e : pointer) : result (number * number) :=
  if touch e then
    match touches e with
    | t :: _ => Ok t
    | [] => Throw TypeError
    end
  else Ok (clientX e, clientY e).

(** What [this.svg.getScreenCTM().inverse()] gives at the time of a move:
    [getScreenCTM()] is [null] for an [svg] element that is not rendered,
    [inverse()] raises an [InvalidStateError] for a matrix without inverse,
    and otherwise [matrixTransform] carries a point of the screen into the
    coordinates of the drawing, as [toDrawing] does. *)
Inductive screenCTM : Type :=
  | NoMatrix
  | NoInverse
  | Inverse (toDrawing : number -> number -> number * number).

(** [handleMove]: nothing while no marker is held.  Otherwise the client
    coordinates are read, [this.svg.createSVGPoint()] raises a [TypeError]
    when [this.svg] is [null] ([svg] tells that the path has an [svg]
    ancestor), the point is converted and [updatePath] is called with it.
    The index is the integer [drawMarkers] wrote into [data-index], which
    [parseInt] reads back. *)
Definition handleMove (svg : bool) (st : dragState) (ed : editor) (doc : document)
  (e : pointer) (ctm : screenCTM) : result (document * editor) :=
  match isDragging st, activeMarker st with
  | true, Some m =>
      match client e with
      | Throw err => Throw err
      | Ok (cX, cY) =>
          if svg then
            match ctm with
            | NoMatrix => Throw TypeError
            | NoInverse => Throw InvalidStateError
            | Inverse toDrawing =>
                let '(x, y) := toDrawing cX cY in
                updatePath ed doc
                  {| upd_x := VNum x; upd_y := VNum y;
                     upd_index := Z.of_nat (data_index m);
                     upd_pointType := pointType_of m |}
            end
          else Throw TypeError
      end
  | _, _ => Ok (doc, ed)
  end.

(** [handleEnd]. *)
Definition handleEnd (st : dragState) : dragState := idle.

(** The events the handlers are registered for; a move comes with what the
    page gives for the conversion at that time. *)
Inductive event : Type :=
  | PointerDown (target : option marker)
  | PointerMove (e : pointer) (ctm : screenCTM)
  | PointerUp.

(** What the page holds for one editor; [the_svg] tells that [this.svg],
    which [init] sets to [pathElem.closest('svg')], is an element. *)
Record session : Set := {
  drag : dragState;
  the_editor : editor;
  the_document : document;
  the_svg : bool
}.

(** One event handled.  An exception of [handleMove] is raised before
    anything is written, so it leaves the session as it was. *)
Definition dispatch (s : session) (e : event) : session :=
  match e with
  | PointerDown target =>
      {| drag := handleStart (drag s) target;
         the_editor := the_editor s; the_document := the_document s;
         the_svg := the_svg s |}
  | PointerMove e ctm =>
      match handleMove (the_svg s) (drag s) (the_editor s) (the_document s) e ctm with
      | Ok (doc, ed) =>
          {| drag := drag s; the_editor := ed; the_document := doc;
             the_svg := the_svg s |}
      | Throw _ => s
      end
  | PointerUp =>
      {| drag := handleEnd (drag s);
         the_editor := the_editor s; the_document := the_document s;
         the_svg := the_svg s |}
  end.

End PathEditor.

(* ================================================================== *)
(** * The preset manager *)
(* ================================================================== *)

Module PresetManager.
Import Js.

(** ** Preset data *)

(** The objects the manager can meet: those of the caller, known by their
    identity alone, [Object.prototype] and the values of its members. *)
Inductive ref : Set :=
  | UserObject (n : nat)
  | ObjectPrototype
  | PrototypeMember (name : string).

(** The data of a preset: a primitive value, or an object, array or
    function. *)
Inductive blob : Set :=
  | Prim (v : value)
  | Obj (r : ref).

(** [ToBoolean]. *)
Definition truthy (b : blob) : bool :=
  match b with
  | Obj _ => true
  | Prim VUndefined => false
  | Prim VNull => false
  | Prim (VBool t) => t
  | Prim (VNum x) =>
      match x with S754_zero _ => false | S754_nan => false | _ => true end
  | Prim (VStr s) => negb (is_empty s)
  end.

(** [a || b]. *)
Definition or_else (a b : blob) : blob := if truthy a then a else b.

(** ** The [presets] object *)

(** What a prototype chain holds for a name: nothing, a data property, an
    accessor whose getter yields [v], or the [__proto__] accessor of
    [Object.prototype]. *)
Inductive chain_property : Set :=
  | Absent
  | Data (v : blob) (writable : bool)
  | Accessor (v : blob)
  | ProtoAccessor.

(** The data properties of a pristine [Object.prototype]. *)
Definition object_prototype_members : list string :=
  ["constructor"; "__defineGetter__"; "__defineSetter__"; "hasOwnProperty";
   "__lookupGetter__"; "__lookupSetter__"; "isPrototypeOf";
   "propertyIsEnumerable"; "toString"; "valueOf"; "toLocaleString"].

Definition mem (k : string) (l : list string) : bool := existsb (String.eqb k) l.

(** An object literal: its own properties and its prototype, [None] for
    [null]. *)
Record jsobject : Type := { props : object blob; proto : option ref }.

Section Objects.

(** What the chain of an object other than [Object.prototype] holds, when
    such an object has been made the prototype of [presets]. *)
Variable foreign : ref -> string -> chain_property.

Definition inherited (p : option ref) (k : string) : chain_property :=
  match p with
  | None => Absent
  | Some ObjectPrototype =>
      if String.eqb k "__proto__" then ProtoAccessor
      else if mem k object_prototype_members then Data (Obj (PrototypeMember k)) true
      else Absent
  | Some r => foreign r k
  end.

Definition proto_value (p : option ref) : blob :=
  match p with Some r => Obj r | None => Prim VNull end.

(** [o[k]]. *)
Definition get (o : jsobject) (k : string) : blob :=
  match own (props o) k with
  | Some v => v
  | None =>
      match inherited (proto o) k with
      | Absent => Prim VUndefined
      | Data v _ => v
      | Accessor v => v
      | ProtoAccessor => proto_value (proto o)
      end
  end.

(** [o[k] = v] outside strict mode: an own property is written, a setter
    or a read-only property up the chain takes the assignment, and
    otherwise a new own property is created.  The [__proto__] setter
    changes the prototype when [v] is an object or [null] and does nothing
    for another value. *)
Definition set (o : jsobject) (k : string) (v : blob) : jsobject :=
  match own (props o) k with
  | Some _ => {| props := put (props o) k v; proto := proto o |}
  | None =>
      match inherited (proto o) k with
      | Absent => {| props := put (props o) k v; proto := proto o |}
      | Data _ true => {| props := put (props o) k v; proto := proto o |}
      | Data _ false => o
      | Accessor _ => o
      | ProtoAccessor =>
          match v with
          | Obj r => {| props := props o; proto := Some r |}
          | Prim VNull => {| props := props o; proto := None |}
          | Prim _ => o
          end
      end
  end.

(** ** The closure of the factory *)

(** The variables a manager closes over.  [presetCounter] counts saves; it
    is the binary64 number of that value while it stays below 2^53. *)
Record manager : Type := { presets : jsobject; presetCounter : N }.

(** [PresetManagerFactory()]. *)
Definition PresetManagerFactory : manager :=
  {| presets := {| props := []; proto := Some ObjectPrototype |};
     presetCounter := 0 |}.

Definition savePreset (m : manager) (name : string) (data : blob) : manager :=
  {| presets := set (presets m) name data; presetCounter := presetCounter m |}.

Definition getPreset (m : manager) (name : string) : blob :=
  or_else (get (presets m) name) (Prim VNull).

Definition getPresetNames (m : manager) : list string := keys (props (presets m)).

(** ** The page *)

(** The state of the page that the callbacks of a configuration read and
    change. *)
Variable App : Type.

(** The selector strings of a configuration. *)
Record selector_strings : Set := {
  saveButton : string;
  applyButton : string;
  animateButton : string;
  presetSelect : string
}.

(** The argument of [setup]; the prefix is a string, and the callbacks
    return what they are asked for. *)
Record config : Type := {
  presetNamePrefix : string;
  getInitialData : App -> blob;
  applyData : blob -> App -> App;
  animateData : blob -> App -> App;
  selectors : selector_strings
}.

(** The click listeners [setup] registers; [mgr] is the manager whose
    closure the listener belongs to. *)
Inductive listener : Type :=
  | OnSave (mgr : nat) (c : config)
  | OnApply (mgr : nat) (c : config)
  | OnAnimate (mgr : nat) (c : config).

(** What an element does of itself with a click that reaches it: nothing;
    something that calls no click listener (interactive content: a button,
    a link, a form control); or, for a [label] element, passing the click
    on to its labeled control, if it has one. *)
Inductive behaviour : Set :=
  | Inert
  | Interactive
  | Label (labeled : option nat).

(** An element of the page: whether it is a disabled form control, its
    click listeners in the order of their registration, for the select
    element its options (value and text) and its current value, its parent
    element and what it does with a click. *)
Record control : Type := {
  disabled : bool;
  listeners : list listener;
  options : list (string * string);
  selected : string;
  parent : option nat;
  activation : behaviour
}.

(** The managers created so far, the elements of the page, and the state
    of the application. *)
Record world : Type := {
  managers : list manager;
  elements : list control;
  app : App
}.

(** [document.querySelector]: a [SyntaxError] for a string that is no
    selector, and otherwise the position of the first element the selector
    matches, if there is one.  Adding options to the select element does
    not change what the selectors of a configuration match. *)
Variable querySelector : string -> result (option nat).

(** The list with [f] applied to its element at [i], if it has one. *)
Fixpoint update_nth {A : Type} (l : list A) (i : nat) (f : A -> A) : list A :=
  match l, i with
  | [], _ => []
  | a :: l', O => f a :: l'
  | a :: l', S n => a :: update_nth l' n f
  end.

Definition with_manager (w : world) (mgr : nat) (f : manager -> manager) : world :=
  {| managers := update_nth (managers w) mgr f; elements := elements w; app := app w |}.

Definition with_element (w : world) (node : nat) (f : control -> control) : world :=
  {| managers := managers w; elements := update_nth (elements w) node f; app := app w |}.

Definition with_app (w : world) (f : App -> App) : world :=
  {| managers := managers w; elements := elements w; app := f (app w) |}.

(** [updatePresetSelect(selector)]: the placeholder, then one option for
    each name; the selection goes back to the placeholder.  Nothing is
    done when no element is found, and an exception of [querySelector]
    ends the listener that called, with nothing done here. *)
Definition updatePresetSelect (w : world) (mgr : nat) (selector : string) : world :=
  match querySelector selector with
  | Ok (Some node) =>
      match nth_error (managers w) mgr with
      | None => w
      | Some m =>
          with_element w node (fun e =>
            {| disabled := disabled e;
               listeners := listeners e;
               options := ("", "Select a Preset")
                            :: map (fun name => (name, name)) (getPresetNames m);
               selected := "";
               parent := parent e;
               activation := activation e |})
      end
  | _ => w
  end.

(** [selectElement ? selectElement.value : null], as the name of the
    selected preset when it is truthy; an exception of [querySelector]
    ends the listener before it has done anything. *)
Definition selectedPreset (w : world) (selector : string) : option string :=
  match querySelector selector with
  | Ok (Some node) =>
      match nth_error (elements w) node with
      | None => None
      | Some e => if is_empty (selected e) then None else Some (selected e)
      end
  | _ => None
  end.

(** The body of the save listener. *)
Definition save_step (c : config) (currentData : blob) (m : manager) : manager :=
  let counter := (presetCounter m + 1)%N in
  let presetName := presetNamePrefix c ++ decimal (Z.of_N counter) in
  savePreset {| presets := presets m; presetCounter := counter |} presetName currentData.

(** One listener called for a click.  An exception raised in a listener
    is reported and ends that listener only. *)
Definition run_listener (w : world) (l : listener) : world :=
  match l with
  | OnSave mgr c =>
      let currentData := getInitialData c (app w) in
      let w := with_manager w mgr (save_step c currentData) in
      updatePresetSelect w mgr (presetSelect (selectors c))
  | OnApply mgr c =>
      match selectedPreset w (presetSelect (selectors c)), nth_error (managers w) mgr with
      | Some name, Some m =>
          let presetData := getPreset m name in
          if truthy presetData then with_app w (applyData c presetData) else w
      | _, _ => w
      end
  | OnAnimate mgr c =>
      match selectedPreset w (presetSelect (selectors c)), nth_error (managers w) mgr with
      | Some name, Some m =>
          let targetPreset := getPreset m name in
          if truthy targetPreset then with_app w (animateData c targetPreset) else w
      | _, _ => w
      end
  end.

(** The path of an event with the target [node]: the element and its
    ancestors, the innermost first.  A tree of [n] elements has no longer
    path than [n]. *)
Fixpoint event_path (fuel : nat) (els : list control) (node : nat) : list nat :=
  match fuel with
  | O => []
  | S f =>
      match nth_error els node with
      | None => []
      | Some e =>
          node :: match parent e with
                  | Some p => event_path f els p
                  | None => []
                  end
      end
  end.

(** The click listeners of one element called, in the order of their
    registration. *)
Definition call_listeners (w : world) (node : nat) : world :=
  match nth_error (elements w) node with
  | None => w
  | Some e => fold_left run_listener (listeners e) w
  end.

(** A click event dispatched at [node]: it bubbles, so the listeners of
    the target are called and then those of each ancestor in turn. *)
Definition dispatch_click (w : world) (node : nat) : world :=
  fold_left call_listeners (event_path (List.length (elements w)) (elements w) node) w.

(** The labeled control a click is passed on to: the first element on the
    path that does something with a click is a label with a control, and
    the target does not lie inside that control. *)
Fixpoint passed_on (els : list control) (path rest : list nat) : option nat :=
  match rest with
  | [] => None
  | n :: rest' =>
      match nth_error els n with
      | None => None
      | Some e =>
          match activation e with
          | Inert => passed_on els path rest'
          | Interactive => None
          | Label None => None
          | Label (Some labeled) =>
              if existsb (Nat.eqb labeled) path then None else Some labeled
          end
      end
  end.

(** [elem.click()]: nothing for a disabled form control; otherwise a click
    event is dispatched at the element, and a label that the click reaches
    passes it on to its labeled control unless that is disabled: a second
    click event, dispatched at the control, which is interactive content
    and passes it on no further. *)
Definition click (w : world) (node : nat) : world :=
  match nth_error (elements w) node with
  | None => w
  | Some e =>
      if disabled e then w
      else
        let path := event_path (List.length (elements w)) (elements w) node in
        let w := dispatch_click w node in
        match passed_on (elements w) path path with
        | None => w
        | Some labeled =>
            match nth_error (elements w) labeled with
            | None => w
            | Some control => if disabled control then w else dispatch_click w labeled
            end
        end
  end.

(** [elem.addEventListener('click', l)]. *)
Definition addEventListener (w : world) (node : nat) (l : listener) : world :=
  with_element w node (fun e =>
    {| disabled := disabled e; listeners := listeners e ++ [l];
       options := options e; selected := selected e;
       parent := parent e; activation := activation e |}).

(** [if (button) { f(button) }]. *)
Definition when_found (w : world) (button : option nat) (f : world -> nat -> world) : world :=
  match button with Some node => f w node | None => w end.

(** [setup(config)] of the manager [mgr].  The three buttons are looked
    up first, so a selector that is no selector raises its [SyntaxError]
    before any listener is registered. *)
Definition setup (w : world) (mgr : nat) (c : config) : result world :=
  match querySelector (saveButton (selectors c)) with
  | Throw e => Throw e
  | Ok saveButton =>
      match querySelector (applyButton (selectors c)) with
      | Throw e => Throw e
      | Ok applyButton =>
          match querySelector (animateButton (selectors c)) with
          | Throw e => Throw e
          | Ok animateButton =>
              let w := when_found w saveButton
                         (fun w node => addEventListener w node (OnSave mgr c)) in
              let w := when_found w applyButton
                         (fun w node => addEventListener w node (OnApply mgr c)) in
              let w := when_found w animateButton
                         (fun w node => addEventListener w node (OnAnimate mgr c)) in
              Ok (when_found w saveButton click)
          end
      end
  end.

End Objects.

Arguments presetNamePrefix {App} c.
Arguments getInitialData {App} c _.
Arguments applyData {App} c _ _.
Arguments animateData {App} c _ _.
Arguments selectors {App} c.
Arguments OnSave {App} mgr c.
Arguments OnApply {App} mgr c.
Arguments OnAnimate {App} mgr c.
Arguments disabled {App} _.
Arguments listeners {App} _.
Arguments options {App} _.
Arguments selected {App} _.
Arguments parent {App} _.
Arguments activation {App} _.
Arguments managers {App} w.
Arguments elements {App} w.
Arguments app {App} w.
Arguments with_manager {App} w mgr f.
Arguments with_element {App} w node f.
Arguments with_app {App} w f.
Arguments updatePresetSelect {App} querySelector w mgr selector.
Arguments selectedPreset {App} querySelector w selector.
Arguments save_step foreign {App} c currentData m.
Arguments run_listener foreign {App} querySelector w l.
Arguments event_path {App} fuel els node.
Arguments call_listeners foreign {App} querySelector w node.
Arguments dispatch_click foreign {App} querySelector w node.
Arguments passed_on {App} els path rest.
Arguments click foreign {App} querySelector w node.
Arguments addEventListener {App} w node l.
Arguments when_found {App} w button f.
Arguments setup foreign {App} querySelector w mgr c.

End PresetManager.

(* ================================================================== *)
(** * The specification's vocabulary *)
(* ================================================================== *)

Module Spec.
Import Js PathEditor.

(** The fields the specification gives each command letter, in the order
    of the arguments of the command. *)
Definition schema (c : ascii) : list string :=
  match c with
  | ("M" | "m" | "L" | "l")%char => ["x"; "y"]
  | ("C" | "c")%char => ["x1"; "y1"; "x2"; "y2"; "x"; "y"]
  | ("A" | "a")%char =>
      ["rx"; "ry"; "xAxisRotation"; "largeArcFlag"; "sweepFlag"; "x"; "y"]
  | _ => []
  end.

(** No character of [s] is a letter. *)
Fixpoint letter_free (s : string) : bool :=
  match s with
  | EmptyString => true
  | String c r => negb (is_letter c) && letter_free r
  end.

(** [s] is empty or starts with a letter: a place where an argument run
    of the path grammar has to stop. *)
Definition at_letter (s : string) : bool :=
  match s with EmptyString => true | String c _ => is_letter c end.

(** Every character of [s] is a digit. *)
Fixpoint all_digits (s : string) : bool :=
  match s with
  | EmptyString => true
  | String c r => is_digit c && all_digits r
  end.

(** A decimal literal without exponent: digits with at most one point and
    at least one digit.  [seen_digit] tells that a digit was read. *)
Fixpoint unsigned_literal (seen_digit : bool) (s : string) : bool :=
  match s with
  | EmptyString => seen_digit
  | String c r =>
      if is_digit c then unsigned_literal true r
      else Ascii.eqb c "." && all_digits r && (seen_digit || negb (is_empty r))
  end.

(** A string free of letters that [Number] reads as a number: blank, or a
    decimal literal with an optional sign, white space around it left
    aside. *)
Definition numeric (t : string) : bool :=
  match trim t with
  | EmptyString => true
  | String c r =>
      if Ascii.eqb c "-" || Ascii.eqb c "+" then unsigned_literal false r
      else unsigned_literal false (String c r)
  end.

(** The value of the [i]-th argument of a command whose argument run has
    the pieces [tokens]. *)
Definition argument (tokens : list string) (i : nat) : value :=
  match nth_error tokens i with
  | Some t => VNum (Number t)
  | None => VUndefined
  end.

(** The match of a command letter followed by the argument run [args]. *)
Definition match_of (c : ascii) (args : string) : regex_match :=
  {| group1 := c;
     group2 := if is_empty (trimStart args) then None else Some (trimStart args) |}.

(** The command letter of a command object, when its [command] is a
    string of one character. *)
Definition letter_of (o : commandObject) : option ascii :=
  match field o "command" with
  | VStr (String c EmptyString) => Some c
  | _ => None
  end.

(** What the serialisation writes after each field of a letter: a comma
    inside a coordinate pair or the pair of flags, a space elsewhere. *)
Definition separators (c : ascii) : list ascii :=
  match c with
  | ("M" | "m" | "L" | "l")%char => [","; " "]
  | ("C" | "c")%char => [","; " "; ","; " "; ","; " "]
  | ("A" | "a")%char => [","; " "; " "; ","; " "; ","; " "]
  | _ => []
  end%char.

(** Pieces of text, each followed by its separator. *)
Fixpoint join (pieces : list string) (seps : list ascii) : string :=
  match pieces, seps with
  | t :: pieces', sep :: seps' => t ++ String sep (join pieces' seps')
  | _, _ => ""
  end.

(** The fields [ks] of [o] as text, each followed by its separator. *)
Definition fields_text (o : commandObject) (ks : list string) (seps : list ascii) : string :=
  join (map (fun k => to_string (field o k)) ks) seps.

(** The text of one command: its letter, a space, and its fields in the
    order of the schema. *)
Definition segment (o : commandObject) : string :=
  to_string (field o "command") ++ " " ++
  match letter_of o with
  | Some c => fields_text o (schema c) (separators c)
  | None => ""
  end.

(** The strings of [l] one after the other. *)
Fixpoint flatten (l : list string) : string :=
  match l with
  | [] => ""
  | a :: l' => a ++ flatten l'
  end.

(** The last character of [s], if any. *)
Fixpoint last_char (s : string) : option ascii :=
  match s with
  | EmptyString => None
  | String c r => match last_char r with Some d => Some d | None => Some c end
  end.

(** The closing [Z] for the attribute value read from the element: one
    when the value, white space at its ends left aside, ends with [Z]. *)
Definition closure (originalPathD : option string) : string :=
  match originalPathD with
  | Some s => if endsWith (trim s) "Z" then "Z" else ""
  | None => ""
  end.

(** The serialisation in the words of the specification: every command in
    turn, and a closing [Z] for an original that ended with one. *)
Definition serialized (pathData : list commandObject) (originalPathD : option string) : string :=
  trim (flatten (map segment pathData) ++ closure originalPathD).

(** A number whose string form is in plain decimal notation: a zero, or a
    finite number whose digits [shortest] finds with [-6 < n <= 21]. *)
Definition plain (x : number) : bool :=
  match x with
  | S754_zero _ => true
  | S754_finite _ m e =>
      match shortest m e with
      | Some (_, n, _) => (-6 <? n)%Z && (n <=? 21)%Z
      | None => false
      end
  | _ => false
  end.

(** A value that is a number in plain notation. *)
Definition plain_value (v : value) : bool :=
  match v with VNum x => plain x | _ => false end.

(** Every field of the command object is a number in plain notation. *)
Definition printable (o : commandObject) : bool :=
  forallb (fun kv => String.eqb (fst kv) "command" || plain_value (snd kv)) o.

(** Two values are numerically equal: numbers that [===] holds equal, or
    the same value. *)
Definition same_value (v v' : value) : Prop :=
  match v, v' with
  | VNum x, VNum y => num_eqb x y = true
  | _, _ => v = v'
  end.

(** Two command objects with the same command, the same fields and
    numerically equal values in them. *)
Definition same_command (o o' : commandObject) : Prop :=
  names o = names o'
  /\ field o "command" = field o' "command"
  /\ forall k, k <> "command" -> same_value (field o k) (field o' k).

(** The value of [acc] followed by the digits of [s]. *)
Fixpoint digits_value (acc : Z) (s : string) : Z :=
  match s with
  | EmptyString => acc
  | String c r => digits_value (10 * acc + digit_value c) r
  end.

(** The value of decimal digits given least significant first. *)
Fixpoint lsd_value (l : list ascii) : Z :=
  match l with
  | [] => 0%Z
  | c :: l' => (digit_value c + 10 * lsd_value l')%Z
  end.

(** The characters of the plain notation: digits and a point; with the
    sign, the characters of a number token. *)
Fixpoint decimal_chars (s : string) : bool :=
  match s with
  | EmptyString => true
  | String c r => (is_digit c || Ascii.eqb c ".") && decimal_chars r
  end.

(** A digit, a point or a minus sign. *)
Definition token_char (c : ascii) : bool :=
  is_digit c || Ascii.eqb c "." || Ascii.eqb c "-".

Fixpoint token_chars (s : string) : bool :=
  match s with
  | EmptyString => true
  | String c r => token_char c && token_chars r
  end.

(** Every character of [s] is white space. *)
Fixpoint all_space (s : string) : bool :=
  match s with
  | EmptyString => true
  | String c r => is_space c && all_space r
  end.

(** A piece of text that reads back as one number token: made of digits,
    points and signs, and not empty. *)
Definition clean (t : string) : Prop :=
  token_chars t = true /\ is_empty t = false.

(** The pieces with their separators between them, the last one left
    out. *)
Fixpoint unjoin (pieces : list string) (seps : list ascii) : string :=
  match pieces, seps with
  | [t], _ => t
  | t :: pieces', sep :: seps' => t ++ String sep (unjoin pieces' seps')
  | _, _ => ""
  end.

(** Pieces and separators that [split] takes apart again: clean pieces,
    one separator after each, the last of them white space. *)
Inductive joinable : list string -> list ascii -> Prop :=
  | joinable_last (t : string) (sep : ascii) :
      clean t -> is_space sep = true -> joinable [t] [sep]
  | joinable_cons (t : string) (sep : ascii) (pieces : list string) (seps : list ascii) :
      clean t -> is_sep sep = true -> joinable pieces seps ->
      joinable (t :: pieces) (sep :: seps).

(** A command object as [parsePath] makes them for the letter [c]. *)
Definition well_formed (o : commandObject) (c : ascii) : Prop :=
  is_command c = true
  /\ own o "command" = Some (VStr (String c EmptyString))
  /\ names o = "command" :: schema c.

(** The fields [updatePath] assigns for a point type. *)
Definition moved_fields (pointType : string) : string * string :=
  if String.eqb pointType "C1" then ("x1", "y1")
  else if String.eqb pointType "C2" then ("x2", "y2")
  else ("x", "y").

(** The command letters of a string, in their order. *)
Fixpoint command_letters (d : string) : list ascii :=
  match d with
  | EmptyString => []
  | String c r => if is_command c then c :: command_letters r else command_letters r
  end.

(** The command object carries a command letter. *)
Definition lettered (o : commandObject) : Prop :=
  exists c, is_command c = true /\ own o "command" = Some (VStr (String c EmptyString)).

(** The moves of one drag, the first to fail ending them. *)
Fixpoint drag_moves (svg : bool) (st : dragState) (ed : editor) (doc : document)
  (moves : list (pointer * screenCTM)) : result (document * editor) :=
  match moves with
  | [] => Ok (doc, ed)
  | (e, ctm) :: moves' =>
      match handleMove svg st ed doc e ctm with
      | Ok (doc', ed') => drag_moves svg st ed' doc' moves'
      | Throw err => Throw err
      end
  end.

(** A move whose pointer can be converted: a touch event carries a touch,
    and the screen matrix of the [svg] element exists and has an inverse. *)
Definition convertible (move : pointer * screenCTM) : Prop :=
  (touch (fst move) = true -> touches (fst move) <> [])
  /\ exists toDrawing, snd move = Inverse toDrawing.

(** No marker is pressed in the event. *)
Definition presses_nothing (e : event) : bool :=
  match e with PointerDown (Some _) => false | _ => true end.

(** The command object of the letter [Z]. *)
Definition close_command : commandObject := [("command", VStr "Z")].

End Spec.

Module PresetSpec.
Import Js PresetManager.

(** A page on which no object of the caller is ever the prototype of
    [presets]. *)
Definition no_foreign : ref -> string -> chain_property := fun _ _ => Absent.

(** The [presets] object of the manager still has [Object.prototype] for
    prototype, as it has until a preset is saved under [__proto__]. *)
Definition pristine (m : manager) : Prop := proto (presets m) = Some ObjectPrototype.

(** One more save under [name] after saves under the names [seen]. *)
Definition add_name (seen : list string) (name : string) : list string :=
  if mem name seen then seen else seen ++ [name].

(** The saved names, each once, in the order of their first save. *)
Definition first_saves (names : list string) : list string :=
  fold_left add_name names [].

(** A sequence of [savePreset] calls on one manager. *)
Definition save_all (foreign : ref -> string -> chain_property) (m : manager)
  (saves : list (string * blob)) : manager :=
  fold_left (fun m nd => savePreset foreign m (fst nd) (snd nd)) saves m.

(** The order of two array indices with their names. *)
Definition index_le (a b : Z * string) : Prop := (fst a <= fst b)%Z.








(** A page with a save button and a select element, and one new manager;
    the state of the application is a number.  The string [[] is no
    selector. *)
Definition example_query (selector : string) : result (option nat) :=
  if String.eqb selector "[" then Throw SyntaxError
  else if String.eqb selector "#save" then Ok (Some 0)
  else if String.eqb selector "#presets" then Ok (Some 1)
  else if String.eqb selector "#panel" then Ok (Some 2)
  else if String.eqb selector "#label" then Ok (Some 3)
  else Ok None.

Definition example_button : control nat :=
  {| disabled := false; listeners := []; options := []; selected := "";
     parent := None; activation := Interactive |}.

Definition example_world : world nat :=
  {| managers := [PresetManagerFactory];
     elements := [example_button; example_button];
     app := 7 |}.

(** A larger page: the save button inside a panel, and a label around its
    check box. *)
Definition example_page : world nat :=
  {| managers := [PresetManagerFactory];
     elements :=
       [ {| disabled := false; listeners := []; options := []; selected := "";
            parent := Some 2; activation := Interactive |};
         example_button;
         {| disabled := false; listeners := []; options := []; selected := "";
            parent := None; activation := Inert |};
         {| disabled := false; listeners := []; options := []; selected := "";
            parent := None; activation := Label (Some 4) |};
         {| disabled := false; listeners := []; options := []; selected := "";
            parent := Some 3; activation := Interactive |} ];
     app := 7 |}.

(** The configuration of the examples with another save button. *)
Definition example_config_for (button : string) : config nat :=
  {| presetNamePrefix := "Preset ";
     getInitialData := fun a => Obj (UserObject a);
     applyData := fun _ a => a;
     animateData := fun _ a => a;
     selectors := {| saveButton := button; applyButton := "#apply";
                animateButton := "#animate"; presetSelect := "#presets" |} |}.

Definition example_config : config nat :=
  {| presetNamePrefix := "Preset ";
     getInitialData := fun a => Obj (UserObject a);
     applyData := fun _ a => a;
     animateData := fun _ a => a;
     selectors := {| saveButton := "#save"; applyButton := "#apply";
                animateButton := "#animate"; presetSelect := "#presets" |} |}.

(** The data of the last save under [name], if there is one. *)
Fixpoint last_saved (saves : list (string * blob)) (name : string) : option blob :=
  match saves with
  | [] => None
  | (n, d) :: rest =>
      match last_saved rest name with
      | Some d' => Some d'
      | None => if String.eqb n name then Some d else None
      end
  end.

(** What [getPreset] returns for a name that has no preset in a [presets]
    object with [Object.prototype] for prototype. *)
Definition unsaved (name : string) : blob :=
  if String.eqb name "__proto__" then Obj ObjectPrototype
  else if mem name object_prototype_members then Obj (PrototypeMember name)
  else Prim VNull.

(** Clicks on a save button that carries one save listener, [datas] being
    what [getInitialData()] returns at each of them. *)
Definition save_clicks (foreign : ref -> string -> chain_property) {App : Type}
  (c : config App) (datas : list blob) (m : manager) : manager :=
  fold_left (fun m d => save_step foreign c d m) datas m.

(** The name the save listener gives the preset of its [i]-th run on a
    new manager, counting from 0. *)
Definition auto_name (prefix : string) (i : nat) : string :=
  prefix ++ decimal (Z.of_nat (S i)).

(** The saves of [save_clicks] on a manager whose counter is [counter]. *)
Fixpoint auto_saves (prefix : string) (counter : nat) (datas : list blob)
  : list (string * blob) :=
  match datas with
  | [] => []
  | d :: datas' => (auto_name prefix counter, d) :: auto_saves prefix (S counter) datas'
  end.

(** The options of the select element for the names of a manager. *)
Definition select_options (m : manager) : list (string * string) :=
  ("", "Select a Preset") :: map (fun name => (name, name)) (getPresetNames m).

End PresetSpec.

(* ================================================================== *)
(** * Strings and objects *)
(* ================================================================== *)

Module JsFacts.
Import Js Spec.

Lemma append_empty_r (s : string) : s ++ "" = s.
Proof. induction s; simpl; congruence. Qed.

Lemma append_assoc (a b c : string) : (a ++ b) ++ c = a ++ (b ++ c).
Proof. induction a; simpl; congruence. Qed.

Lemma length_append (a b : string) :
  String.length (a ++ b) = String.length a + String.length b.
Proof. induction a; simpl; congruence. Qed.

Lemma trimStart_length (s : string) : String.length (trimStart s) <= String.length s.
Proof.
  induction s as [| c r IH]; simpl; [lia |].
  destruct (is_space c); simpl; lia.
Qed.

Lemma trimStart_idempotent (s : string) : trimStart (trimStart s) = trimStart s.
Proof.
  induction s as [| c r IH]; simpl; [reflexivity |].
  destruct (is_space c) eqn:E; [exact IH |]. simpl. now rewrite E.
Qed.

Lemma trim_trimStart (s : string) : trim (trimStart s) = trim s.
Proof. unfold trim. now rewrite trimStart_idempotent. Qed.

Lemma endsWith_cons (c z : ascii) (r : string) :
  endsWith (String c r) (String z "")
  = if is_empty r then Ascii.eqb c z else endsWith r (String z "").
Proof.
  unfold endsWith. destruct r as [| c' r']; simpl.
  - destruct (Ascii.eqb c z); reflexivity.
  - rewrite Nat.sub_0_r. reflexivity.
Qed.

Lemma last_char_empty (s : string) : last_char s = None -> s = "".
Proof.
  destruct s as [| c r]; [reflexivity |]. simpl.
  destruct (last_char r); discriminate.
Qed.

Lemma endsWith_last_char (s : string) (z : ascii) :
  endsWith s (String z "")
  = match last_char s with Some c => Ascii.eqb c z | None => false end.
Proof.
  induction s as [| c r IH]; [reflexivity |].
  rewrite endsWith_cons, IH. simpl.
  destruct (last_char r) as [d |] eqn:E.
  - destruct r; [discriminate | reflexivity].
  - apply last_char_empty in E. subst r. reflexivity.
Qed.

Lemma last_char_append (p : string) (c : ascii) :
  last_char (p ++ String c "") = Some c.
Proof.
  induction p as [| a p IH]; simpl; [reflexivity |]. now rewrite IH.
Qed.

Lemma last_char_split (s : string) (c : ascii) :
  last_char s = Some c -> exists p, s = p ++ String c "".
Proof.
  induction s as [| a r IH]; [discriminate |]. simpl.
  destruct (last_char r) as [d |] eqn:E.
  - intros H. destruct (IH H) as [p ->]. now exists (String a p).
  - apply last_char_empty in E. subst r. intros H; inversion H; subst.
    now exists "".
Qed.

(** [s.endsWith('Z')], in words. *)
Lemma endsWith_iff (s : string) (z : ascii) :
  endsWith s (String z "") = true <-> exists p, s = p ++ String z "".
Proof.
  rewrite endsWith_last_char. split.
  - destruct (last_char s) as [c |] eqn:E; [| discriminate].
    intros H. apply Ascii.eqb_eq in H. subst. now apply last_char_split.
  - intros [p ->]. rewrite last_char_append. apply Ascii.eqb_refl.
Qed.

Lemma own_put_same {V : Type} (o : object V) (k : string) (v : V) :
  own (put o k v) k = Some v.
Proof.
  induction o as [| [k' v'] o IH]; simpl.
  - now rewrite String.eqb_refl.
  - destruct (String.eqb k' k) eqn:E; simpl; rewrite E; [reflexivity | exact IH].
Qed.

Lemma own_put_other {V : Type} (o : object V) (k k' : string) (v : V) :
  k' <> k -> own (put o k v) k' = own o k'.
Proof.
  intros Hne. induction o as [| [k0 v0] o IH]; simpl.
  - destruct (String.eqb k k') eqn:E; [| reflexivity].
    apply String.eqb_eq in E. congruence.
  - destruct (String.eqb k0 k) eqn:E; simpl.
    + apply String.eqb_eq in E. subst k0.
      destruct (String.eqb k k') eqn:E'; [| reflexivity].
      apply String.eqb_eq in E'. congruence.
    + now rewrite IH.
Qed.

Lemma own_names {V : Type} (o : object V) (k : string) :
  ~ In k (names o) -> own o k = None.
Proof.
  induction o as [| [k' v] o IH]; simpl; [reflexivity |].
  intros H. destruct (String.eqb k' k) eqn:E.
  - apply String.eqb_eq in E. tauto.
  - apply IH. tauto.
Qed.

End JsFacts.

(* ================================================================== *)
(** * Properties of the path editor *)
(* ================================================================== *)

Module PathEditorFacts.
Import Js PathEditor Spec JsFacts.

(** ** Characters *)

Lemma is_command_cases (c : ascii) :
  is_command c = true ->
  In c ["M"; "m"; "L"; "l"; "C"; "c"; "A"; "a"; "Z"; "z"]%char.
Proof.
  destruct c as [[] [] [] [] [] [] [] []]; simpl; intros H;
    try discriminate H; auto 12.
Qed.

Lemma command_is_letter (c : ascii) : is_command c = true -> is_letter c = true.
Proof.
  intros H. apply is_command_cases in H. simpl in H.
  repeat (destruct H as [H | H]; [subst c; reflexivity |]). destruct H.
Qed.

Lemma letter_not_space (c : ascii) : is_letter c = true -> is_space c = false.
Proof.
  destruct c as [[] [] [] [] [] [] [] []]; vm_compute; intros H;
    try discriminate H; reflexivity.
Qed.

Lemma span_nonletters_length (s a b : string) :
  span_nonletters s = (a, b) -> String.length b <= String.length s.
Proof.
  revert a b. induction s as [| c r IH]; simpl; intros a b H.
  - inversion H; simpl; lia.
  - destruct (is_letter c).
    + inversion H; simpl; lia.
    + destruct (span_nonletters r) as [a' b'] eqn:E. inversion H; subst.
      specialize (IH _ _ eq_refl). lia.
Qed.

(** ** The loop of [parsePath] *)

(** A match takes at least its command letter. *)
Lemma regex_exec_shorter (s : string) (m : regex_match) (rest : string) :
  regex_exec s = Some (m, rest) -> String.length rest < String.length s.
Proof.
  induction s as [| c r IH]; simpl; [discriminate |].
  destruct (is_command c).
  - destruct (span_nonletters (trimStart r)) as [a b] eqn:E.
    intros H; inversion H; subst.
    apply span_nonletters_length in E. pose proof (trimStart_length r). lia.
  - intros H. apply IH in H. lia.
Qed.

Lemma regex_exec_command (s : string) (m : regex_match) (rest : string) :
  regex_exec s = Some (m, rest) -> is_command (group1 m) = true.
Proof.
  induction s as [| c r IH]; simpl; [discriminate |].
  destruct (is_command c) eqn:Ec; [| exact IH].
  destruct (span_nonletters (trimStart r)). intros H; inversion H; subst. exact Ec.
Qed.

Lemma exec_loop_acc (fuel : nat) (s : string) (acc : list commandObject) :
  exec_loop fuel s acc = (acc ++ exec_loop fuel s [])%list.
Proof.
  revert s acc. induction fuel as [| f IH]; simpl; intros s acc.
  - now rewrite app_nil_r.
  - destruct (regex_exec s) as [[m rest] |]; [| now rewrite app_nil_r].
    rewrite IH. rewrite (IH rest [command_of_match m]).
    now rewrite app_assoc.
Qed.

(** Fuel beyond the length of the string is never used. *)
Lemma exec_loop_fuel (f1 f2 : nat) (s : string) (acc : list commandObject) :
  String.length s <= f1 -> String.length s <= f2 ->
  exec_loop f1 s acc = exec_loop f2 s acc.
Proof.
  revert f2 s acc. induction f1 as [| f1 IH]; intros f2 s acc H1 H2.
  - destruct s; simpl in H1; [| lia]. destruct f2; reflexivity.
  - destruct f2 as [| f2].
    + destruct s; simpl in H2; [| lia]. reflexivity.
    + simpl. destruct (regex_exec s) as [[m rest] |] eqn:E; [| reflexivity].
      apply regex_exec_shorter in E. apply IH; lia.
Qed.

(** The loop, one match at a time. *)
Lemma parsePath_unfold (s : string) :
  parsePath s =
  match regex_exec s with
  | None => []
  | Some (m, rest) => command_of_match m :: parsePath rest
  end.
Proof.
  unfold parsePath. destruct s as [| c r].
  - reflexivity.
  - cbn [String.length exec_loop].
    destruct (regex_exec (String c r)) as [[m rest] |] eqn:E; [| reflexivity].
    rewrite exec_loop_acc. simpl. f_equal.
    apply regex_exec_shorter in E. simpl in E.
    apply exec_loop_fuel; lia.
Qed.

Lemma parsePath_empty : parsePath "" = [].
Proof. reflexivity. Qed.

(** Induction along the matches of the loop. *)
Lemma parse_induction (P : string -> Prop) :
  (forall s, (forall m rest, regex_exec s = Some (m, rest) -> P rest) -> P s) ->
  forall s, P s.
Proof.
  intros step s.
  remember (String.length s) as n eqn:Hn. revert s Hn.
  induction n as [n IH] using lt_wf_ind. intros s Hn. apply step.
  intros m rest E. apply regex_exec_shorter in E.
  apply (IH (String.length rest)); [lia | reflexivity].
Qed.

(** Every command object comes from one match of the expression. *)
Lemma parsePath_In (d : string) (o : commandObject) :
  In o (parsePath d) ->
  exists m, is_command (group1 m) = true /\ o = command_of_match m.
Proof.
  induction d as [d IH] using parse_induction.
  rewrite parsePath_unfold.
  destruct (regex_exec d) as [[m rest] |] eqn:E; simpl; [| tauto].
  intros [H | H].
  - exists m. split; [eapply regex_exec_command; eauto | congruence].
  - eapply IH; eauto.
Qed.

(** A character that is no command letter is passed over. *)
Lemma parsePath_skip (c : ascii) (s : string) :
  is_command c = false -> parsePath (String c s) = parsePath s.
Proof.
  intros H. rewrite (parsePath_unfold (String c s)), (parsePath_unfold s).
  simpl. now rewrite H.
Qed.

Lemma trimStart_app (s t : string) :
  at_letter t = true -> trimStart (s ++ t) = trimStart s ++ t.
Proof.
  intros Ht. induction s as [| c r IH]; simpl.
  - destruct t as [| c t]; [reflexivity |]. simpl in *.
    now rewrite (letter_not_space c Ht).
  - destruct (is_space c); [exact IH | reflexivity].
Qed.

Lemma span_nonletters_app (s t a b : string) :
  at_letter t = true -> span_nonletters s = (a, b) ->
  span_nonletters (s ++ t) = (a, b ++ t).
Proof.
  intros Ht. revert a b. induction s as [| c r IH]; simpl; intros a b H.
  - inversion H; subst. destruct t as [| c t]; [reflexivity |].
    simpl in *. now rewrite Ht.
  - destruct (is_letter c); [inversion H; reflexivity |].
    destruct (span_nonletters r) as [a' b'].
    rewrite (IH _ _ eq_refl). now inversion H.
Qed.

Lemma regex_exec_app (s t : string) :
  at_letter t = true ->
  regex_exec (s ++ t) =
  match regex_exec s with
  | Some (m, rest) => Some (m, rest ++ t)
  | None => regex_exec t
  end.
Proof.
  intros Ht. induction s as [| c r IH]; simpl; [reflexivity |].
  destruct (is_command c); [| exact IH].
  rewrite (trimStart_app _ _ Ht).
  destruct (span_nonletters (trimStart r)) as [a b] eqn:E.
  now rewrite (span_nonletters_app _ _ _ _ Ht E).
Qed.

(** The parse of a string cut where an argument run has to stop is the
    parse of the two parts. *)
Lemma parsePath_app (s t : string) :
  at_letter t = true -> parsePath (s ++ t) = (parsePath s ++ parsePath t)%list.
Proof.
  intros Ht. induction s as [s IH] using parse_induction.
  rewrite (parsePath_unfold (s ++ t)), (parsePath_unfold s), regex_exec_app by exact Ht.
  destruct (regex_exec s) as [[m rest] |] eqn:E.
  - simpl. f_equal. eapply IH; eauto.
  - simpl. now rewrite <- parsePath_unfold.
Qed.

Lemma regex_exec_letter_free (s : string) : letter_free s = true -> regex_exec s = None.
Proof.
  induction s as [| c r IH]; simpl; [reflexivity |].
  intros H. apply andb_prop in H as [Hc Hr].
  destruct (is_command c) eqn:Ec; [| auto].
  apply command_is_letter in Ec. rewrite Ec in Hc. discriminate.
Qed.

Lemma parsePath_letter_free (s : string) : letter_free s = true -> parsePath s = [].
Proof. intros H. rewrite parsePath_unfold, regex_exec_letter_free; auto. Qed.

(** ** The examples of the specification *)

Example parsePath_example_1 :
  parsePath "M 10,10 L 20,20 Z" =
  [ [("command", VStr "M"); ("x", VNum (Number "10")); ("y", VNum (Number "10"))];
    [("command", VStr "L"); ("x", VNum (Number "20")); ("y", VNum (Number "20"))];
    [("command", VStr "Z")] ].
Proof. reflexivity. Qed.

Example parsePath_example_2 :
  parsePath "C 1,1 2,2 3,3" =
  [ [("command", VStr "C");
     ("x1", VNum (Number "1")); ("y1", VNum (Number "1"));
     ("x2", VNum (Number "2")); ("y2", VNum (Number "2"));
     ("x", VNum (Number "3")); ("y", VNum (Number "3"))] ].
Proof. reflexivity. Qed.

(** ** One command and its argument run *)

Lemma trimStart_letter_free (s : string) :
  letter_free s = true -> letter_free (trimStart s) = true.
Proof.
  induction s as [| c r IH]; simpl; [reflexivity |].
  intros H. destruct (is_space c); [apply IH | simpl; exact H].
  apply andb_prop in H. tauto.
Qed.

Lemma span_nonletters_letter_free (s : string) :
  letter_free s = true -> span_nonletters s = (s, "").
Proof.
  induction s as [| c r IH]; simpl; [reflexivity |].
  intros H. apply andb_prop in H as [Hc Hr].
  destruct (is_letter c); [discriminate |]. now rewrite (IH Hr).
Qed.

Lemma parsePath_command (c : ascii) (args rest : string) :
  is_command c = true -> letter_free args = true -> at_letter rest = true ->
  parsePath (String c (args ++ rest)) = command_of_match (match_of c args) :: parsePath rest.
Proof.
  intros Hc Ha Hr.
  change (String c (args ++ rest)) with (String c args ++ rest).
  rewrite (parsePath_app _ _ Hr), (parsePath_unfold (String c args)).
  simpl. rewrite Hc.
  rewrite (span_nonletters_letter_free _ (trimStart_letter_free _ Ha)).
  reflexivity.
Qed.

(** The pieces [parsePath] converts for a match. *)
Lemma match_of_tokens (c : ascii) (args : string) :
  split_seps (trim (match group2 (match_of c args) with Some a => a | None => "" end))
  = split_seps (trim args).
Proof.
  unfold match_of; simpl.
  destruct (trimStart args) eqn:E; simpl.
  - unfold trim. now rewrite E.
  - rewrite <- E. now rewrite trim_trimStart.
Qed.

Lemma coord_argument (tokens : list string) (i : nat) :
  coord (map Number tokens) i = argument tokens i.
Proof.
  unfold coord, argument. rewrite nth_error_map.
  now destruct (nth_error tokens i).
Qed.

(** The fields of the command object of a match, read off the pieces of
    its argument run in the order of the schema. *)
Lemma command_of_match_fields (c : ascii) (args : string) (i : nat) (k : string) :
  is_command c = true ->
  nth_error (schema c) i = Some k ->
  field (command_of_match (match_of c args)) k = argument (split_seps (trim args)) i.
Proof.
  intros Hc Hk. unfold command_of_match.
  rewrite match_of_tokens. cbn [group1 match_of].
  apply is_command_cases in Hc. simpl in Hc.
  repeat (destruct Hc as [Hc | Hc];
    [ subst c; cbn in Hk |- *;
      do 8 (try (destruct i as [| i]; cbn in Hk;
                 [ inversion Hk; subst k; cbn; apply coord_argument |]));
      try discriminate Hk; destruct i; discriminate Hk
    | ]).
  destruct Hc.
Qed.

Lemma command_of_match_names (m : regex_match) :
  is_command (group1 m) = true ->
  own (command_of_match m) "command" = Some (VStr (String (group1 m) ""))
  /\ names (command_of_match m) = "command" :: schema (group1 m).
Proof.
  intros Hc. apply is_command_cases in Hc. simpl in Hc. unfold command_of_match.
  repeat (destruct Hc as [Hc | Hc]; [rewrite <- Hc; split; reflexivity |]).
  destruct Hc.
Qed.

(** ** Field presence *)

Lemma parsePath_well_formed (d : string) :
  Forall (fun o => exists c, well_formed o c) (parsePath d).
Proof.
  apply Forall_forall. intros o Ho.
  apply parsePath_In in Ho as [m [Hc ->]].
  exists (group1 m). split; [exact Hc |]. now apply command_of_match_names.
Qed.

(** C8. Every command object [parsePath] produces carries its command
    letter, one of the supported ones, and besides it exactly the fields
    of that letter, created in the order of the arguments: [x, y] for
    M, m, L and l; [x1, y1, x2, y2, x, y] for C and c;
    [rx, ry, xAxisRotation, largeArcFlag, sweepFlag, x, y] for A and a; no
    field for Z and z. *)
Theorem parsePath_fields_by_letter (d : string) :
  Forall (fun o =>
            exists c, is_command c = true
                      /\ own o "command" = Some (VStr (String c ""))
                      /\ names o = "command" :: schema c)
         (parsePath d).
Proof.
  eapply Forall_impl; [| apply parsePath_well_formed].
  intros o [c H]. exists c. exact H.
Qed.

(** ** Unsupported letters *)

(** C9. A letter outside the supported set is dropped together with the
    arguments that follow it: the parse of a path is the parse of the path
    without that letter and its argument run, and no command object ever
    carries a letter outside the set.  [parsePath] is a total function, so
    no error is raised. *)
Theorem parsePath_drops_unsupported (pre : string) (h : ascii) (args rest : string) :
  is_letter h = true -> is_command h = false ->
  letter_free args = true -> at_letter rest = true ->
  parsePath (pre ++ String h (args ++ rest)) = parsePath (pre ++ rest)
  /\ forall d, Forall (fun o => field o "command" <> VStr (String h "")) (parsePath d).
Proof.
  intros Hl Hc Ha Hr. split.
  - rewrite parsePath_app by exact Hl.
    rewrite (parsePath_skip _ _ Hc).
    rewrite (parsePath_app _ _ Hr), (parsePath_letter_free _ Ha).
    rewrite (parsePath_app _ _ Hr). reflexivity.
  - intros d. apply Forall_forall. intros o Ho.
    apply parsePath_In in Ho as [m [Hm ->]].
    destruct (command_of_match_names m Hm) as [Hown _].
    unfold field. rewrite Hown. intros E. inversion E; subst.
    rewrite Hm in Hc. discriminate.
Qed.

Lemma parsePath_drops_unsupported_witness :
  parsePath ("M 0,0 " ++ String "H" (" 5 " ++ "L 1,1")) = parsePath ("M 0,0 " ++ "L 1,1")
  /\ forall d, Forall (fun o => field o "command" <> VStr "H") (parsePath d).
Proof.
  apply (parsePath_drops_unsupported "M 0,0 " "H" " 5 " "L 1,1"); reflexivity.
Defined.

(** ** Malformed and truncated argument lists *)

(** A truncated argument list leaves the fields of the missing arguments
    [undefined], not [NaN], and an empty list gives its first field 0. *)
Lemma truncated_arguments_undefined :
  parsePath "M 10" =
    [ [("command", VStr "M"); ("x", VNum (Number "10")); ("y", VUndefined)] ]
  /\ VUndefined <> VNum NaN
  /\ parsePath "L" =
    [ [("command", VStr "L"); ("x", VNum (S754_zero false)); ("y", VUndefined)] ].
Proof. repeat split; try reflexivity. discriminate. Qed.

Lemma read_digits_all_digits (acc cnt : Z) (s : string) :
  snd (read_digits acc cnt s) = "" -> all_digits s = true.
Proof.
  revert acc cnt. induction s as [| c r IH]; simpl; intros acc cnt; [reflexivity |].
  destruct (is_digit c); simpl; [apply IH | discriminate].
Qed.

Lemma parse_decimal_literal (seen : bool) (acc cnt : Z) (s : string) :
  (seen = true <-> 0 < cnt)%Z -> (0 <= cnt)%Z ->
  (let '(ip, ni, r1) := read_digits acc cnt s in
   match r1 with
   | EmptyString => if (ni =? 0)%Z then false else true
   | String c r2 =>
       if Ascii.eqb c "." then
         let '(m, nf, r3) := read_digits ip 0 r2 in
         is_empty r3 && negb ((ni + nf =? 0)%Z)
       else false
   end) = true ->
  unsigned_literal seen s = true.
Proof.
  revert seen acc cnt. induction s as [| c r IH]; simpl; intros seen acc cnt Hs Hc.
  - destruct (cnt =? 0)%Z eqn:E; [discriminate |].
    intros _. apply Hs. apply Z.eqb_neq in E. lia.
  - destruct (is_digit c) eqn:Ed.
    + apply IH; [split; [lia | reflexivity] | lia].
    + destruct (Ascii.eqb c "."); [| discriminate].
      destruct (read_digits acc 0 r) as [[m nf] r3] eqn:E.
      intros H. apply andb_prop in H as [H3 H4].
      assert (Hr3 : r3 = "") by (destruct r3; [reflexivity | discriminate]).
      subst r3. simpl.
      rewrite (read_digits_all_digits acc 0 r) by now rewrite E.
      simpl. destruct seen; [reflexivity |]. simpl.
      assert (cnt = 0)%Z by (destruct (Z.eq_dec cnt 0); [assumption |];
        assert (false = true) by (apply Hs; lia); discriminate).
      subst cnt. destruct r; simpl; [| reflexivity].
      simpl in E. inversion E; subst. discriminate H4.
Qed.

Lemma parse_decimal_numeric (s : string) (m f : Z) :
  parse_decimal s = Some (m, f) -> unsigned_literal false s = true.
Proof.
  intros H. apply (parse_decimal_literal false 0 0); [split; [discriminate | lia] | lia |].
  unfold parse_decimal in H.
  destruct (read_digits 0 0 s) as [[ip ni] r1].
  destruct r1 as [| c r2].
  - destruct (ni =? 0)%Z; [discriminate | reflexivity].
  - destruct (Ascii.eqb c "."); [| discriminate].
    destruct (read_digits ip 0 r2) as [[m' nf] r3].
    destruct (is_empty r3 && negb (ni + nf =? 0)%Z); [reflexivity | discriminate].
Qed.

(** [Number] gives [NaN] for what is no numeric string. *)
Lemma Number_not_numeric (t : string) : numeric t = false -> Number t = NaN.
Proof.
  unfold numeric, Number. destruct (trim t) as [| c r]; [discriminate |].
  destruct (Ascii.eqb c "-"); simpl.
  - destruct (parse_decimal r) as [[m f] |] eqn:E; [| reflexivity].
    apply parse_decimal_numeric in E. intros H. congruence.
  - destruct (Ascii.eqb c "+"); simpl.
    + destruct (parse_decimal r) as [[m f] |] eqn:E; [| reflexivity].
      apply parse_decimal_numeric in E. intros H. congruence.
    + destruct (parse_decimal (String c r)) as [[m f] |] eqn:E; [| reflexivity].
      apply parse_decimal_numeric in E. intros H. simpl in E. congruence.
Qed.

(** C3, as the code has it.  [parsePath] is total: it raises no error on
    any input.  For a command letter followed by any argument run free of
    letters, the field of the [i]-th argument is [undefined] when the run
    has fewer than [i + 1] pieces, and otherwise [Number] of the [i]-th
    piece, which is [NaN] when the piece is no numeric string and [+0]
    when the piece is empty. *)
Theorem parsePath_permissive (c : ascii) (args rest : string) :
  is_command c = true -> letter_free args = true -> at_letter rest = true ->
  exists o,
    parsePath (String c (args ++ rest)) = o :: parsePath rest
    /\ forall i k, nth_error (schema c) i = Some k ->
         match nth_error (split_seps (trim args)) i with
         | None => field o k = VUndefined
         | Some t =>
             field o k = VNum (Number t)
             /\ (numeric t = false -> field o k = VNum NaN)
             /\ (t = "" -> field o k = VNum (S754_zero false))
         end.
Proof.
  intros Hc Ha Hr.
  exists (command_of_match (match_of c args)). split.
  - now apply parsePath_command.
  - intros i k Hk. rewrite (command_of_match_fields c args i k Hc Hk).
    unfold argument. destruct (nth_error (split_seps (trim args)) i) as [t |];
      [| reflexivity].
    split; [reflexivity |]. split.
    + intros Hn. now rewrite (Number_not_numeric _ Hn).
    + intros ->. reflexivity.
Qed.

Lemma parsePath_permissive_witness :
  exists o,
    parsePath (String "C" (" 1,1 -,2..5 3" ++ "L 7,7")) = o :: parsePath "L 7,7"
    /\ forall i k, nth_error (schema "C") i = Some k ->
         match nth_error (split_seps (trim " 1,1 -,2..5 3")) i with
         | None => field o k = VUndefined
         | Some t =>
             field o k = VNum (Number t)
             /\ (numeric t = false -> field o k = VNum NaN)
             /\ (t = "" -> field o k = VNum (S754_zero false))
         end.
Proof.
  apply (parsePath_permissive "C" " 1,1 -,2..5 3" "L 7,7"); reflexivity.
Defined.

(** The fields of ["C 1,1 -,2..5 3"]: two numbers, two [NaN], one more
    number and one [undefined]. *)
Example parsePath_malformed_example :
  parsePath "C 1,1 -,2..5 3" =
  [ [("command", VStr "C");
     ("x1", VNum (Number "1")); ("y1", VNum (Number "1"));
     ("x2", VNum NaN); ("y2", VNum NaN);
     ("x", VNum (Number "3")); ("y", VUndefined)] ].
Proof. reflexivity. Qed.

(** ** generatePath *)

Lemma fold_emit (pathData : list commandObject) (acc : string) :
  fold_left (fun acc commandObj => acc ++ emit commandObj) pathData acc
  = acc ++ flatten (map emit pathData).
Proof.
  revert acc. induction pathData as [| o pd IH]; simpl; intros acc.
  - now rewrite append_empty_r.
  - rewrite IH. apply append_assoc.
Qed.

Lemma eqb_two_chars (c1 c2 k : ascii) (r : string) :
  String.eqb (String c1 (String c2 r)) (String k "") = false.
Proof. simpl. now destruct (Ascii.eqb c1 k). Qed.

(** What [forEach] appends for a command is the text of the command. *)
Lemma emit_segment (o : commandObject) : emit o = segment o.
Proof.
  unfold emit, segment, letter_of.
  destruct (field o "command") as [| | b | x | s];
    try (simpl; rewrite ?append_empty_r; reflexivity).
  destruct s as [| c [| c2 r]].
  - reflexivity.
  - destruct c as [[] [] [] [] [] [] [] []]; cbn;
      rewrite ?append_empty_r; reflexivity.
  - unfold is_string. rewrite !eqb_two_chars. simpl.
    rewrite ?append_empty_r. reflexivity.
Qed.

Lemma ends_closed_closure (a : option string) :
  closure a = if ends_closed a then "Z" else "".
Proof.
  destruct a as [s |]; [| reflexivity]. simpl.
  destruct s; reflexivity.
Qed.

Lemma generatePath_serialized (doc : document) (pathData : list commandObject)
  (pathId : string) (elem : element) :
  getElementById doc pathId = Some elem ->
  generatePath doc pathData pathId = Ok (serialized pathData (attr_d elem)).
Proof.
  intros H. unfold generatePath, serialized. rewrite H, fold_emit. simpl.
  rewrite ends_closed_closure.
  rewrite (map_ext emit segment emit_segment).
  destruct (ends_closed (attr_d elem)); [reflexivity |].
  now rewrite append_empty_r.
Qed.

(** C4. For every array of command objects and every id of an element of
    the document, [generatePath] returns the texts of the commands in
    their order, each the command letter followed by its fields in the
    fixed order of its schema, with a closing [Z] added exactly when the
    [d] attribute of the live element, white space at its ends left
    aside, ends with [Z]; the array passed in plays no part in that
    decision. *)
Theorem generatePath_shape (doc : document) (pathData : list commandObject)
  (pathId : string) (elem : element) :
  getElementById doc pathId = Some elem ->
  generatePath doc pathData pathId
  = Ok (trim (flatten (map segment pathData) ++ closure (attr_d elem)))
  /\ (closure (attr_d elem) = "Z"
      <-> exists s p, attr_d elem = Some s /\ trim s = p ++ "Z")
  /\ (closure (attr_d elem) <> "Z" -> closure (attr_d elem) = "").
Proof.
  intros H. split; [now apply generatePath_serialized |]. split.
  - unfold closure. destruct (attr_d elem) as [s |].
    + destruct (endsWith (trim s) "Z") eqn:E.
      * apply endsWith_iff in E as [p Hp]. split; [| reflexivity].
        intros _. now exists s, p.
      * split; [discriminate |]. intros [s' [p [Hs Hp]]].
        inversion Hs; subst s'.
        assert (endsWith (trim s) "Z" = true) by (apply endsWith_iff; now exists p).
        congruence.
    + split; [discriminate |]. intros [s [p [Hs _]]]. discriminate.
  - unfold closure. destruct (attr_d elem) as [s |]; [| reflexivity].
    destruct (endsWith (trim s) "Z"); [intros F; now elim F | reflexivity].
Qed.

Lemma generatePath_shape_witness :
  let doc := [ {| elem_id := "p"; attr_d := Some "M 1,1 Z " |} ] in
  let elem := {| elem_id := "p"; attr_d := Some "M 1,1 Z " |} in
  let pathData := parsePath "M 10,10 C 1,1 2,2 3,3 A 5,5 0 0,1 20,20" in
  generatePath doc pathData "p"
  = Ok (trim (flatten (map segment pathData) ++ closure (attr_d elem)))
  /\ (closure (attr_d elem) = "Z"
      <-> exists s p, attr_d elem = Some s /\ trim s = p ++ "Z")
  /\ (closure (attr_d elem) <> "Z" -> closure (attr_d elem) = "").
Proof.
  intros doc elem pathData.
  apply (generatePath_shape doc pathData "p" elem). reflexivity.
Defined.

Example generatePath_example :
  generatePath [ {| elem_id := "p"; attr_d := Some "M 1,1" |} ]
    (parsePath "M 10,10 C 1,1 2,2 3,3 A 5,5 0 0,1 20,20 z") "p"
  = Ok "M 10,10 C 1,1 2,2 3,3 A 5,5 0 0,1 20,20 z".
Proof. reflexivity. Qed.

(** C10. The check for the closing letter is case-sensitive: when the [d]
    attribute of the element, white space at its ends left aside, ends
    with a lower-case [z], [generatePath] adds no [Z] and returns the
    texts of the commands alone, as it does for an element without the
    attribute. *)
Theorem generatePath_lowercase_z (doc : document) (pathData : list commandObject)
  (pathId : string) (elem : element) (s p : string) :
  getElementById doc pathId = Some elem ->
  attr_d elem = Some s -> trim s = p ++ "z" ->
  ends_closed (attr_d elem) = false
  /\ generatePath doc pathData pathId
     = Ok (trim (fold_left (fun acc commandObj => acc ++ emit commandObj) pathData "")).
Proof.
  intros H Hs Hp.
  assert (E : ends_closed (attr_d elem) = false).
  { rewrite Hs. simpl. rewrite endsWith_last_char, Hp, last_char_append.
    apply andb_false_r. }
  split; [exact E |].
  unfold generatePath. rewrite H. simpl. now rewrite E.
Qed.

Lemma generatePath_lowercase_z_witness :
  let elem := {| elem_id := "p"; attr_d := Some "M 0,0 L 5,5 z " |} in
  ends_closed (attr_d elem) = false
  /\ generatePath [elem] (parsePath "M 0,0 L 5,5 Z") "p"
     = Ok (trim (fold_left (fun acc commandObj => acc ++ emit commandObj)
                   (parsePath "M 0,0 L 5,5 Z") "")).
Proof.
  intros elem.
  apply (generatePath_lowercase_z [elem] (parsePath "M 0,0 L 5,5 Z") "p" elem
           "M 0,0 L 5,5 z " "M 0,0 L 5,5 "); reflexivity.
Defined.

(** ** updatePath *)

Lemma replace_at_length {A : Type} (l : list A) (i : nat) (a : A) :
  List.length (replace_at l i a) = List.length l.
Proof.
  revert i. induction l as [| b l IH]; intros [| i]; simpl; auto.
Qed.

Lemma replace_at_same {A : Type} (l : list A) (i : nat) (a b : A) :
  nth_error l i = Some b -> nth_error (replace_at l i a) i = Some a.
Proof.
  revert i. induction l as [| c l IH]; intros [| i]; simpl; try discriminate; auto.
Qed.

Lemma replace_at_other {A : Type} (l : list A) (i j : nat) (a : A) :
  j <> i -> nth_error (replace_at l i a) j = nth_error l j.
Proof.
  revert i j. induction l as [| c l IH]; intros [| i] [| j] H; simpl; auto.
  congruence.
Qed.

Lemma move_point_frame (o : commandObject) (u : updateData) :
  let '(kx, ky) := moved_fields (upd_pointType u) in
  (forall k, k <> kx -> k <> ky -> own (move_point o u) k = own o k)
  /\ field (move_point o u) kx = upd_x u
  /\ field (move_point o u) ky = upd_y u.
Proof.
  unfold moved_fields, move_point, field.
  destruct (String.eqb (upd_pointType u) "C1");
    [| destruct (String.eqb (upd_pointType u) "C2")];
    (split; [intros k H1 H2; now rewrite !own_put_other by assumption |];
     split; [rewrite own_put_other by discriminate; now rewrite own_put_same
            | now rewrite own_put_same]).
Qed.

(** The array [updatePath] serialises.  For a path element that its id
    finds in the document and an index that has a command in the parse of
    its [d] attribute, [updatePath]
    writes to the attribute the serialisation of an array that differs
    from that parse in one place only: the command at the index, where the
    two fields of the point type hold the new coordinates ([x1], [y1] for
    C1, [x2], [y2] for C2, and [x], [y] for any other point type) and
    every other property is as it was.  The other commands are the same
    objects, so their texts in the new attribute are unchanged. *)
Theorem updatePath_frame (ed : editor) (doc : document) (u : updateData)
  (elem found : element) (i : nat) (obj : commandObject) :
  nth_error doc (pathElem ed) = Some elem ->
  getElementById doc (elem_id elem) = Some found ->
  upd_index u = Z.of_nat i ->
  nth_error (parsePath (attribute_string (attr_d elem))) i = Some obj ->
  let pathData := parsePath (attribute_string (attr_d elem)) in
  let '(kx, ky) := moved_fields (upd_pointType u) in
  exists pathData' obj',
    updatePath ed doc u
    = Ok (setAttribute_d doc (pathElem ed) (serialized pathData' (attr_d found)),
          {| pathElem := pathElem ed; markers := drawMarkers pathData' |})
    /\ List.length pathData' = List.length pathData
    /\ (forall j, j <> i -> nth_error pathData' j = nth_error pathData j)
    /\ nth_error pathData' i = Some obj'
    /\ (forall k, k <> kx -> k <> ky -> own obj' k = own obj k)
    /\ field obj' kx = upd_x u
    /\ field obj' ky = upd_y u.
Proof.
  intros Hel Hid Hi Hobj pathData.
  pose proof (move_point_frame obj u) as Hmp.
  destruct (moved_fields (upd_pointType u)) as [kx ky].
  destruct Hmp as [Hother [Hx Hy]].
  exists (replace_at pathData i (move_point obj u)), (move_point obj u).
  split; [| split; [| split; [| split; [| split; [| split]]]]].
  - unfold updatePath. rewrite Hel. fold pathData.
    unfold at_index. rewrite Hi.
    destruct (Z.ltb_spec (Z.of_nat i) 0) as [Hneg | _]; [lia |].
    rewrite Nat2Z.id. unfold pathData at 1. rewrite Hobj.
    now rewrite (generatePath_serialized _ _ _ _ Hid).
  - apply replace_at_length.
  - intros j Hj. now apply replace_at_other.
  - eapply replace_at_same. exact Hobj.
  - exact Hother.
  - exact Hx.
  - exact Hy.
Qed.

Lemma updatePath_frame_witness :
  let elem := {| elem_id := "p"; attr_d := Some "M 10,10 L 20,20 z" |} in
  let ed := {| pathElem := 0; markers := [] |} in
  let u := {| upd_x := VNum (Number "5"); upd_y := VNum (Number "5");
              upd_index := 0; upd_pointType := "endpoint" |} in
  let obj := [("command", VStr "M"); ("x", VNum (Number "10")); ("y", VNum (Number "10"))] in
  let pathData := parsePath (attribute_string (attr_d elem)) in
  exists pathData' obj',
    updatePath ed [elem] u
    = Ok (setAttribute_d [elem] (pathElem ed) (serialized pathData' (attr_d elem)),
          {| pathElem := pathElem ed; markers := drawMarkers pathData' |})
    /\ List.length pathData' = List.length pathData
    /\ (forall j, j <> 0 -> nth_error pathData' j = nth_error pathData j)
    /\ nth_error pathData' 0 = Some obj'
    /\ (forall k, k <> "x" -> k <> "y" -> own obj' k = own obj k)
    /\ field obj' "x" = upd_x u
    /\ field obj' "y" = upd_y u.
Proof.
  intros elem ed u obj pathData.
  apply (updatePath_frame ed [elem] u elem elem 0 obj); reflexivity.
Defined.

(** The example of the specification, on a path that is not closed. *)
Example updatePath_example :
  updatePath {| pathElem := 0; markers := [] |}
    [ {| elem_id := "p"; attr_d := Some "M 10,10 L 20,20" |} ]
    {| upd_x := VNum (Number "5"); upd_y := VNum (Number "5");
       upd_index := 0; upd_pointType := "endpoint" |}
  = Ok ([ {| elem_id := "p"; attr_d := Some "M 5,5 L 20,20" |} ],
        {| pathElem := 0;
           markers :=
             [ {| cx := "5"; cy := "5"; fill := "#f44336";
                  data_index := 0; data_point_type := None |};
               {| cx := "20"; cy := "20"; fill := "#f44336";
                  data_index := 1; data_point_type := None |} ] |}).
Proof. reflexivity. Qed.

End PathEditorFacts.

(* ================================================================== *)
(** * Properties of the preset manager *)
(* ================================================================== *)

Module PresetManagerFacts.
Import Js PresetManager PresetSpec JsFacts.

Section Storage.

Variable foreign : ref -> string -> chain_property.

(** ** Own properties *)

Lemma names_put {V : Type} (o : object V) (k : string) (v : V) :
  names (put o k v) = add_name (names o) k.
Proof.
  unfold add_name. induction o as [| [k' v'] o IH]; simpl; [reflexivity |].
  rewrite (String.eqb_sym k k'). destruct (String.eqb k' k); simpl; [reflexivity |].
  rewrite IH. unfold names. destruct (mem k (map fst o)); reflexivity.
Qed.

(** ** Saving on a manager whose prototype was left alone *)

Lemma set_pristine (o : jsobject) (k : string) (v : blob) :
  proto o = Some ObjectPrototype -> k <> "__proto__" ->
  set foreign o k v = {| props := put (props o) k v; proto := proto o |}.
Proof.
  intros Hp Hk. unfold set. destruct (own (props o) k); [reflexivity |].
  rewrite Hp. unfold inherited.
  destruct (String.eqb k "__proto__") eqn:E;
    [apply String.eqb_eq in E; contradiction |].
  destruct (mem k object_prototype_members); reflexivity.
Qed.

Lemma savePreset_pristine (m : manager) (name : string) (data : blob) :
  pristine m -> name <> "__proto__" -> pristine (savePreset foreign m name data).
Proof.
  unfold pristine, savePreset. intros Hp Hn. simpl.
  now rewrite (set_pristine _ _ _ Hp Hn).
Qed.

Lemma savePreset_names (m : manager) (name : string) (data : blob) :
  pristine m -> name <> "__proto__" ->
  names (props (presets (savePreset foreign m name data)))
  = add_name (names (props (presets m))) name.
Proof.
  unfold pristine, savePreset. intros Hp Hn. simpl.
  rewrite (set_pristine _ _ _ Hp Hn). simpl. apply names_put.
Qed.

(** The value of a falsy blob is lost: [getPreset] answers [null] for a
    preset saved as [0]. *)
Lemma getPreset_falsy_counterexample :
  getPreset no_foreign
    (savePreset no_foreign PresetManagerFactory "a" (Prim (VNum (S754_zero false)))) "a"
  <> Prim (VNum (S754_zero false)).
Proof. vm_compute. discriminate. Qed.

(** Under the name [__proto__] nothing is stored: the assignment goes to
    the setter of [Object.prototype], which ignores a string, and the read
    gives the prototype. *)
Example getPreset_proto_example :
  getPreset no_foreign
    (savePreset no_foreign PresetManagerFactory "__proto__" (Prim (VStr "data")))
    "__proto__"
  = Obj ObjectPrototype
  /\ getPresetNames
       (savePreset no_foreign PresetManagerFactory "__proto__" (Prim (VStr "data")))
     = [].
Proof. split; reflexivity. Qed.

(** C2, as the code has it.  On a manager whose [presets] object still has
    [Object.prototype] for prototype, and for every name but [__proto__],
    [savePreset(name, data)] followed by [getPreset(name)] returns the very
    value stored when that value is truthy, and [null] when it is falsy. *)
Theorem getPreset_after_savePreset (m : manager) (name : string) (data : blob) :
  pristine m -> name <> "__proto__" ->
  getPreset foreign (savePreset foreign m name data) name
  = if truthy data then data else Prim VNull.
Proof.
  intros Hp Hn. unfold getPreset, savePreset, get, or_else. simpl.
  rewrite (set_pristine _ _ _ Hp Hn). simpl. now rewrite own_put_same.
Qed.

(** ** The names of the presets *)

Lemma save_all_names (saves : list (string * blob)) (m : manager) :
  pristine m ->
  Forall (fun nd => fst nd <> "__proto__") saves ->
  pristine (save_all foreign m saves)
  /\ names (props (presets (save_all foreign m saves)))
     = fold_left add_name (map fst saves) (names (props (presets m))).
Proof.
  revert m. induction saves as [| [n d] saves IH]; simpl; intros m Hp Hs.
  - split; [exact Hp | reflexivity].
  - inversion Hs as [| ? ? Hn Hs']; subst. simpl in Hn.
    destruct (IH (savePreset foreign m n d)
               (savePreset_pristine _ _ _ Hp Hn) Hs') as [H1 H2].
    split; [exact H1 |]. unfold save_all in *. simpl. rewrite H2.
    now rewrite savePreset_names.
Qed.

(** ** The order of [Object.keys] *)

Lemma mem_In (k : string) (l : list string) : mem k l = true <-> In k l.
Proof.
  unfold mem. rewrite existsb_exists. split.
  - intros [x [Hx E]]. apply String.eqb_eq in E. now subst.
  - intros H. exists k. split; [exact H | apply String.eqb_refl].
Qed.

Lemma add_names_In (l acc : list string) (n : string) :
  In n (fold_left add_name l acc) <-> In n acc \/ In n l.
Proof.
  revert acc. induction l as [| a l IH]; simpl; intros acc; [tauto |].
  rewrite IH. unfold add_name. destruct (mem a acc) eqn:E.
  - apply mem_In in E. split; [tauto |].
    intros [H | [H | H]]; subst; auto.
  - rewrite in_app_iff. simpl. tauto.
Qed.

Lemma add_names_NoDup (l acc : list string) :
  NoDup acc -> NoDup (fold_left add_name l acc).
Proof.
  revert acc. induction l as [| a l IH]; simpl; intros acc H; [exact H |].
  apply IH. unfold add_name. destruct (mem a acc) eqn:E; [exact H |].
  apply NoDup_app; [exact H | repeat constructor; simpl; tauto |].
  intros x Hx [Hy | []]. subst x. apply mem_In in Hx. congruence.
Qed.

Lemma insert_index_perm (i : Z) (k : string) (l : list (Z * string)) :
  Permutation (insert_index i k l) ((i, k) :: l).
Proof.
  induction l as [| [j k'] l IH]; simpl; [reflexivity |].
  destruct (i <=? j)%Z; [reflexivity |].
  rewrite IH. apply perm_swap.
Qed.

Lemma insert_index_sorted (i : Z) (k : string) (l : list (Z * string)) :
  Sorted index_le l -> Sorted index_le (insert_index i k l).
Proof.
  induction l as [| [j k'] l IH]; simpl; intros H.
  - repeat constructor.
  - destruct (Z.leb_spec i j) as [Hle | Hgt].
    + constructor; [exact H |]. constructor. exact Hle.
    + inversion H as [| ? ? Hs Hh]; subst.
      constructor; [now apply IH |].
      destruct l as [| [j' k''] l']; simpl.
      * constructor. unfold index_le; simpl; lia.
      * destruct (i <=? j')%Z; constructor.
        -- unfold index_le; simpl; lia.
        -- now inversion Hh.
Qed.

Lemma index_names_sorted (ks : list string) : Sorted index_le (index_names ks).
Proof.
  induction ks as [| k ks IH]; simpl; [constructor |].
  destruct (array_index k); [now apply insert_index_sorted | exact IH].
Qed.

Lemma index_names_perm (ks : list string) :
  Permutation (map snd (index_names ks)) (filter is_index ks).
Proof.
  induction ks as [| k ks IH]; simpl; [reflexivity |].
  unfold is_index. destruct (array_index k) as [i |]; [| exact IH].
  rewrite (Permutation_map snd (insert_index_perm i k _)). simpl.
  now constructor.
Qed.

Lemma index_names_indices (ks : list string) :
  Forall (fun p => array_index (snd p) = Some (fst p)) (index_names ks).
Proof.
  induction ks as [| k ks IH]; simpl; [constructor |].
  destruct (array_index k) as [i |] eqn:E; [| exact IH].
  eapply Permutation_Forall; [symmetry; apply insert_index_perm |].
  constructor; assumption.
Qed.

Lemma filter_split_perm (f : string -> bool) (l : list string) :
  Permutation (filter f l ++ filter (fun k => negb (f k)) l) l.
Proof.
  induction l as [| a l IH]; simpl; [reflexivity |].
  destruct (f a); simpl.
  - now constructor.
  - rewrite <- Permutation_middle. now constructor.
Qed.

(** [Object.keys] lists every own property once. *)
Lemma keys_perm {V : Type} (o : object V) : Permutation (keys o) (names o).
Proof.
  unfold keys. rewrite index_names_perm. apply filter_split_perm.
Qed.

Lemma no_index_keys (l : list string) :
  Forall (fun n => is_index n = false) l ->
  index_names l = [] /\ filter (fun k => negb (is_index k)) l = l.
Proof.
  induction l as [| a l IH]; simpl; intros H; [split; reflexivity |].
  inversion H as [| ? ? Ha Hl]; subst. destruct (IH Hl) as [H1 H2].
  unfold is_index in Ha. destruct (array_index a) eqn:E; [discriminate |].
  unfold is_index at 1. rewrite E. simpl. rewrite H1, H2. split; reflexivity.
Qed.

(** Array indices come first: names saved in the order "b", "1" are
    listed in the order "1", "b". *)
Lemma getPresetNames_order_counterexample :
  getPresetNames
    (save_all no_foreign PresetManagerFactory
       [("b", Obj (UserObject 0)); ("1", Obj (UserObject 1))])
  = ["1"; "b"]
  /\ ["1"; "b"] <> ["b"; "1"].
Proof. split; [reflexivity | discriminate]. Qed.

(** C5, as the code has it.  After any sequence of [savePreset] calls on a
    new manager, none under the name [__proto__], [getPresetNames] returns
    every saved name exactly once, however often it was saved: first the
    names that are array indices, in ascending numeric order, then the
    other names in the order of their first save.  When no saved name is
    an array index the result is the saved names in insertion order. *)
Theorem getPresetNames_after_saves (saves : list (string * blob)) :
  Forall (fun nd => fst nd <> "__proto__") saves ->
  let m := save_all foreign PresetManagerFactory saves in
  (forall n, In n (getPresetNames m) <-> In n (map fst saves))
  /\ NoDup (getPresetNames m)
  /\ (exists idx,
        getPresetNames m
        = (map snd idx
           ++ filter (fun k => negb (is_index k)) (first_saves (map fst saves)))%list
        /\ Sorted index_le idx
        /\ Forall (fun p => array_index (snd p) = Some (fst p)) idx)
  /\ (Forall (fun n => is_index n = false) (map fst saves) ->
      getPresetNames m = first_saves (map fst saves)).
Proof.
  intros Hs m.
  destruct (save_all_names saves PresetManagerFactory eq_refl Hs) as [_ Hn].
  simpl in Hn. fold (first_saves (map fst saves)) in Hn. fold m in Hn.
  assert (Hperm : Permutation (getPresetNames m) (first_saves (map fst saves))).
  { unfold getPresetNames. rewrite <- Hn. apply keys_perm. }
  repeat split.
  - intros H. apply (Permutation_in _ Hperm) in H.
    apply add_names_In in H. simpl in H. tauto.
  - intros H. apply (Permutation_in _ (Permutation_sym Hperm)).
    apply add_names_In. now right.
  - apply (Permutation_NoDup (Permutation_sym Hperm)).
    apply add_names_NoDup. constructor.
  - exists (index_names (first_saves (map fst saves))).
    split; [| split].
    + unfold getPresetNames, keys. now rewrite Hn.
    + apply index_names_sorted.
    + apply index_names_indices.
  - intros Hni. unfold getPresetNames, keys. rewrite Hn.
    assert (Hf : Forall (fun n => is_index n = false) (first_saves (map fst saves))).
    { apply Forall_forall. intros n Hin. apply add_names_In in Hin.
      destruct Hin as [[] | Hin]. rewrite Forall_forall in Hni. now apply Hni. }
    destruct (no_index_keys _ Hf) as [H1 H2]. now rewrite H1, H2.
Qed.

End Storage.

Lemma getPresetNames_after_saves_witness :
  let saves := [("b", Obj (UserObject 0)); ("10", Prim VNull);
                ("b", Prim (VBool true)); ("2", Obj (UserObject 1))] in
  let m := save_all no_foreign PresetManagerFactory saves in
  (forall n, In n (getPresetNames m) <-> In n (map fst saves))
  /\ NoDup (getPresetNames m)
  /\ (exists idx,
        getPresetNames m
        = (map snd idx
           ++ filter (fun k => negb (is_index k)) (first_saves (map fst saves)))%list
        /\ Sorted index_le idx
        /\ Forall (fun p => array_index (snd p) = Some (fst p)) idx)
  /\ (Forall (fun n => is_index n = false) (map fst saves) ->
      getPresetNames m = first_saves (map fst saves)).
Proof.
  intros saves m.
  apply (getPresetNames_after_saves no_foreign saves).
  repeat constructor; discriminate.
Defined.

Lemma getPreset_after_savePreset_witness :
  getPreset no_foreign
    (savePreset no_foreign PresetManagerFactory "curve" (Obj (UserObject 3))) "curve"
  = Obj (UserObject 3).
Proof.
  apply (getPreset_after_savePreset no_foreign PresetManagerFactory "curve"
           (Obj (UserObject 3))); [reflexivity | discriminate].
Defined.

(** ** setup *)

Section Setup.

Variable foreign : ref -> string -> chain_property.
Variable App : Type.
Variable querySelector : string -> result (option nat).

Lemma update_nth_same {A : Type} (l : list A) (i : nat) (f : A -> A) :
  nth_error (update_nth l i f) i = option_map f (nth_error l i).
Proof.
  revert i. induction l as [| a l IH]; intros [| i]; simpl; auto.
Qed.

Lemma update_nth_other {A : Type} (l : list A) (i j : nat) (f : A -> A) :
  j <> i -> nth_error (update_nth l i f) j = nth_error l j.
Proof.
  revert i j. induction l as [| a l IH]; intros [| i] [| j] H; simpl; auto.
  congruence.
Qed.




(** ** The listeners *)









(** ** The click *)







(** ** setup *)







End Setup.


(** On a disabled save button the click of [setup] does nothing and no
    preset is seeded. *)
Example setup_disabled_example :
  let button := {| disabled := true; listeners := []; options := []; selected := "";
                   parent := None; activation := Interactive |} in
  let w := {| managers := [PresetManagerFactory];
              elements := [button; example_button]; app := 7 |} in
  exists w',
    setup no_foreign example_query w 0 example_config = Ok w'
    /\ managers w' = [PresetManagerFactory].
Proof. eexists. split; reflexivity. Qed.

(** The click bubbles: a save button inside a panel that has a save
    listener of its own, from an earlier [setup] with the panel for save
    button, makes the later [setup] save twice. *)
Example setup_bubbling_example :
  exists w1 w2,
    setup no_foreign example_query example_page 0 (example_config_for "#panel") = Ok w1
    /\ setup no_foreign example_query w1 0 (example_config_for "#save") = Ok w2
    /\ option_map presetCounter (nth_error (managers w1) 0) = Some 1%N
    /\ option_map presetCounter (nth_error (managers w2) 0) = Some 3%N
    /\ option_map listeners (nth_error (elements w1) 0) = Some [].
Proof. eexists _, _. repeat split; reflexivity. Qed.

(** A label passes the click on to its control, and from the control
    inside the label the click comes back to the label: with a label for
    save button [setup] saves twice. *)
Example setup_label_example :
  exists w',
    setup no_foreign example_query example_page 0 (example_config_for "#label") = Ok w'
    /\ option_map presetCounter (nth_error (managers w') 0) = Some 2%N
    /\ option_map getPresetNames (nth_error (managers w') 0)
       = Some ["Preset 1"; "Preset 2"].
Proof. eexists. repeat split; reflexivity. Qed.

(** A string that is no selector, for any of the three buttons, makes
    [setup] raise before it has registered or saved anything. *)
Example setup_invalid_selector_example :
  let c := {| presetNamePrefix := "Preset ";
              getInitialData := fun a => Obj (UserObject a);
              applyData := fun _ a => a;
              animateData := fun _ a => a;
              selectors := {| saveButton := "#save"; applyButton := "[";
                              animateButton := "#animate";
                              presetSelect := "#presets" |} |} in
  setup no_foreign example_query example_world 0 c = Throw SyntaxError.
Proof. reflexivity. Qed.


End PresetManagerFacts.

(* ================================================================== *)
(** * Numbers and their string forms *)
(* ================================================================== *)

Module NumberFacts.
Import Js PathEditor Spec JsFacts.

(** ** Decimal digits *)

Lemma digit_char_spec (d : Z) :
  (0 <= d < 10)%Z ->
  is_digit (digit_char d) = true /\ digit_value (digit_char d) = d.
Proof.
  intros H.
  assert (E : (d = 0 \/ d = 1 \/ d = 2 \/ d = 3 \/ d = 4 \/ d = 5 \/ d = 6
               \/ d = 7 \/ d = 8 \/ d = 9)%Z) by lia.
  repeat (destruct E as [E | E]; [subst d; split; reflexivity |]).
  subst d; split; reflexivity.
Qed.

Lemma digit_not_sign (c : ascii) :
  is_digit c = true -> Ascii.eqb c "-" = false /\ Ascii.eqb c "+" = false.
Proof.
  destruct c as [[] [] [] [] [] [] [] []]; vm_compute; intros H;
    try discriminate H; split; reflexivity.
Qed.

Lemma all_digits_app (a b : string) :
  all_digits (a ++ b) = all_digits a && all_digits b.
Proof.
  induction a as [| c a IH]; simpl; [reflexivity |].
  rewrite IH. apply andb_assoc.
Qed.

Lemma digits_value_app (acc : Z) (a b : string) :
  digits_value acc (a ++ b) = digits_value (digits_value acc a) b.
Proof. revert acc. induction a as [| c a IH]; simpl; intros acc; auto. Qed.

Lemma read_digits_app (acc cnt : Z) (ds rest : string) :
  all_digits ds = true ->
  read_digits acc cnt (ds ++ rest)
  = read_digits (digits_value acc ds) (cnt + Z.of_nat (String.length ds)) rest.
Proof.
  revert acc cnt. induction ds as [| c ds IH]; simpl String.length; intros acc cnt H.
  - simpl. now rewrite Z.add_0_r.
  - simpl in H. apply andb_prop in H as [Hc Hd].
    cbn [append read_digits digits_value]. rewrite Hc, (IH _ _ Hd).
    f_equal. lia.
Qed.

Lemma read_digits_all (acc cnt : Z) (ds : string) :
  all_digits ds = true ->
  read_digits acc cnt ds
  = (digits_value acc ds, (cnt + Z.of_nat (String.length ds))%Z, "").
Proof.
  intros H. rewrite <- (append_empty_r ds) at 1.
  now rewrite (read_digits_app _ _ _ _ H).
Qed.

Lemma digits_lsd_spec (fuel : nat) (z : Z) :
  (0 <= z < 10 ^ Z.of_nat fuel)%Z ->
  lsd_value (digits_lsd fuel z) = z /\ forallb is_digit (digits_lsd fuel z) = true.
Proof.
  revert z. induction fuel as [| f IH]; intros z H.
  - simpl in *. split; [lia | reflexivity].
  - cbn [digits_lsd]. destruct (Z.ltb_spec z 10) as [Hlt | Hge].
    + destruct (digit_char_spec z) as [H1 H2]; [lia |].
      cbn [lsd_value forallb]. rewrite H1, H2. split; [lia | reflexivity].
    + rewrite Nat2Z.inj_succ, Z.pow_succ_r in H by lia.
      destruct (IH (z / 10)%Z) as [H1 H2].
      { split; [apply Z.div_pos; lia | apply Z.div_lt_upper_bound; lia]. }
      destruct (digit_char_spec (z mod 10)) as [H3 H4];
        [apply Z.mod_pos_bound; lia |].
      cbn [lsd_value forallb]. rewrite H1, H2, H3, H4. split; [| reflexivity].
      pose proof (Z.div_mod z 10). lia.
Qed.

Lemma digits_lsd_length (k fuel : nat) (z : Z) :
  S k <= fuel -> (10 ^ Z.of_nat k <= z < 10 ^ Z.of_nat (S k))%Z ->
  List.length (digits_lsd fuel z) = S k.
Proof.
  revert fuel z. induction k as [| k IH]; intros fuel z Hf H.
  - destruct fuel as [| f]; [lia |]. cbn [digits_lsd].
    change (10 ^ Z.of_nat 1)%Z with 10%Z in H.
    destruct (Z.ltb_spec z 10); [reflexivity | lia].
  - destruct fuel as [| f]; [lia |]. cbn [digits_lsd].
    assert (Hp : (0 < 10 ^ Z.of_nat k)%Z) by (apply Z.pow_pos_nonneg; lia).
    rewrite !Nat2Z.inj_succ, !Z.pow_succ_r in H by lia.
    destruct (Z.ltb_spec z 10) as [Hlt | Hge]; [lia |].
    simpl. f_equal. apply IH; [lia |].
    rewrite Nat2Z.inj_succ, Z.pow_succ_r by lia. split.
    + apply Z.div_le_lower_bound; lia.
    + apply Z.div_lt_upper_bound; lia.
Qed.

Lemma string_of_list_app (a b : list ascii) :
  string_of_list_ascii (a ++ b) = string_of_list_ascii a ++ string_of_list_ascii b.
Proof. induction a as [| c a IH]; simpl; congruence. Qed.

Lemma string_of_list_length (l : list ascii) :
  String.length (string_of_list_ascii l) = List.length l.
Proof. induction l; simpl; congruence. Qed.

Lemma rev_digits_value (l : list ascii) (acc : Z) :
  digits_value acc (string_of_list_ascii (rev l))
  = (acc * 10 ^ Z.of_nat (List.length l) + lsd_value l)%Z.
Proof.
  revert acc. induction l as [| c l IH]; intros acc.
  - simpl. lia.
  - cbn [rev]. rewrite string_of_list_app, digits_value_app, IH.
    cbn [string_of_list_ascii digits_value lsd_value List.length].
    rewrite Nat2Z.inj_succ, Z.pow_succ_r by lia. lia.
Qed.

Lemma rev_all_digits (l : list ascii) :
  forallb is_digit l = true -> all_digits (string_of_list_ascii (rev l)) = true.
Proof.
  induction l as [| c l IH]; simpl; [reflexivity |].
  intros H. apply andb_prop in H as [Hc Hl].
  rewrite string_of_list_app, all_digits_app, (IH Hl). simpl. now rewrite Hc.
Qed.

(** The decimal form of a positive integer of [k + 1] digits. *)
Lemma decimal_spec (k : nat) (s : Z) :
  (10 ^ Z.of_nat k <= s < 10 ^ Z.of_nat (S k))%Z ->
  all_digits (decimal s) = true
  /\ digits_value 0 (decimal s) = s
  /\ String.length (decimal s) = S k.
Proof.
  intros H.
  assert (Hp : (0 < 10 ^ Z.of_nat k)%Z) by (apply Z.pow_pos_nonneg; lia).
  assert (Hs : (0 < s)%Z) by lia.
  assert (Hk : (Z.of_nat k <= Z.log2 s)%Z).
  { apply Z.log2_le_pow2; [lia |].
    transitivity (10 ^ Z.of_nat k)%Z; [| lia].
    apply Z.pow_le_mono_l. lia. }
  pose proof (Z.log2_nonneg s) as Hl.
  set (fuel := S (Z.to_nat (Z.log2 s))).
  assert (Hfuel : (0 <= s < 10 ^ Z.of_nat fuel)%Z).
  { split; [lia |]. unfold fuel. rewrite Nat2Z.inj_succ, Z2Nat.id by lia.
    destruct (Z.log2_spec s Hs) as [_ H2].
    eapply Z.lt_le_trans; [exact H2 |].
    apply Z.pow_le_mono_l. lia. }
  destruct (digits_lsd_spec fuel s Hfuel) as [H1 H2].
  unfold decimal, decimal_digits. fold fuel. repeat split.
  - now apply rev_all_digits.
  - rewrite rev_digits_value. lia.
  - rewrite string_of_list_length, length_rev.
    apply digits_lsd_length; [unfold fuel; lia | exact H].
Qed.

Lemma zeros_spec (j : nat) (acc : Z) :
  all_digits (zeros j) = true
  /\ digits_value acc (zeros j) = (acc * 10 ^ Z.of_nat j)%Z
  /\ String.length (zeros j) = j.
Proof.
  revert acc. induction j as [| j IH]; intros acc.
  - simpl. repeat split; lia.
  - destruct (IH (10 * acc + 0)%Z) as [H1 [H2 H3]].
    cbn [zeros all_digits digits_value String.length].
    change (digit_value "0") with 0%Z. rewrite H1, H2, H3.
    rewrite Nat2Z.inj_succ, Z.pow_succ_r by lia.
    split; [reflexivity | split; [lia | reflexivity]].
Qed.

Lemma substring_split (s : string) (n : nat) :
  n <= String.length s ->
  substring 0 n s ++ substring n (String.length s - n) s = s
  /\ String.length (substring 0 n s) = n.
Proof.
  revert n. induction s as [| c r IH]; intros [| n] H; simpl in *;
    try (split; [reflexivity | reflexivity]); try lia.
  - split; [| reflexivity]. f_equal.
    destruct (IH 0) as [H1 _]; [lia |]. rewrite Nat.sub_0_r in H1.
    destruct r; simpl in *; [reflexivity | exact H1].
  - destruct (IH n) as [H1 H2]; [lia |]. split; [now rewrite H1 | now rewrite H2].
Qed.

(** ** Reading back the plain notation *)

Lemma decimal_chars_digits (s : string) : all_digits s = true -> decimal_chars s = true.
Proof.
  induction s as [| c r IH]; simpl; [reflexivity |].
  intros H. apply andb_prop in H as [Hc Hr]. now rewrite Hc, (IH Hr).
Qed.

Lemma decimal_chars_app (a b : string) :
  decimal_chars (a ++ b) = decimal_chars a && decimal_chars b.
Proof.
  induction a as [| c a IH]; simpl; [reflexivity |].
  rewrite IH. apply andb_assoc.
Qed.

Lemma round_decimal_scale (neg : bool) (s j : Z) :
  (0 < s)%Z -> (0 <= j)%Z ->
  round_decimal neg (s * 10 ^ j) 0 = round_decimal neg s j.
Proof.
  intros Hs Hj. destruct s as [| p | p]; try lia.
  destruct j as [| q | q]; try lia.
  - now rewrite Z.pow_0_r, Z.mul_1_r.
  - rewrite <- Pos2Z.inj_pow, <- Pos2Z.inj_mul. reflexivity.
Qed.

(** [Number] reads the plain notation of the digits [s], [n], [k] back as
    [s * 10^(n - k)]. *)
Lemma parse_format (s n k : Z) :
  (1 <= k)%Z -> (10 ^ (k - 1) <= s < 10 ^ k)%Z -> (-6 < n <= 21)%Z ->
  (exists m f,
     parse_decimal (format_digits s n k) = Some (m, f)
     /\ forall neg, round_decimal neg m (- f) = round_decimal neg s (n - k))
  /\ decimal_chars (format_digits s n k) = true
  /\ exists c r, format_digits s n k = String c r /\ is_digit c = true.
Proof.
  intros Hk Hs Hn.
  assert (Hp : (0 < 10 ^ (k - 1))%Z) by (apply Z.pow_pos_nonneg; lia).
  destruct (decimal_spec (Z.to_nat (k - 1)) s) as [Hd [Hv Hl]].
  { rewrite Nat2Z.inj_succ, Z2Nat.id by lia.
    replace (Z.succ (k - 1)) with k by lia. exact Hs. }
  assert (Hlen : Z.of_nat (String.length (decimal s)) = k) by (rewrite Hl; lia).
  assert (Hhead : exists c r, decimal s = String c r /\ is_digit c = true).
  { destruct (decimal s) as [| c r]; [discriminate Hl |].
    exists c, r. split; [reflexivity |]. simpl in Hd.
    apply andb_prop in Hd. tauto. }
  unfold format_digits.
  destruct (Z.leb_spec k n) as [Hkn | Hkn];
    [destruct (Z.leb_spec n 21) as [_ | ?]; [| lia] |]; cbn [andb].
  - (* the digits followed by zeros *)
    destruct (zeros_spec (Z.to_nat (n - k)) s) as [Hz [Hzv Hzl]].
    assert (Hall : all_digits (decimal s ++ zeros (Z.to_nat (n - k))) = true)
      by now rewrite all_digits_app, Hd, Hz.
    split; [| split].
    + exists (s * 10 ^ (n - k))%Z, 0%Z. split.
      * unfold parse_decimal. rewrite (read_digits_all _ _ _ Hall).
        rewrite digits_value_app, Hv, Hzv, Z2Nat.id by lia.
        rewrite length_append, Hzl, Hl.
        destruct (Z.eqb_spec (0 + Z.of_nat (S (Z.to_nat (k - 1)) + Z.to_nat (n - k))) 0);
          [lia | reflexivity].
      * intros neg. apply round_decimal_scale; lia.
    + now apply decimal_chars_digits.
    + destruct Hhead as [c [r [E Hc]]]. rewrite E. simpl. eauto.
  - destruct (Z.ltb_spec 0 n) as [Hpos | Hneg];
      [destruct (Z.leb_spec n 21) as [_ | ?]; [| lia] |]; cbn [andb].
    + (* a point inside the digits *)
      destruct (substring_split (decimal s) (Z.to_nat n)) as [Hsp Hsl]; [lia |].
      replace (String.length (decimal s) - Z.to_nat n) with (Z.to_nat (k - n)) in Hsp by lia.
      set (a := substring 0 (Z.to_nat n) (decimal s)) in *.
      set (b := substring (Z.to_nat n) (Z.to_nat (k - n)) (decimal s)) in *.
      assert (Hab : all_digits a = true /\ all_digits b = true).
      { rewrite <- Hsp, all_digits_app in Hd. now apply andb_prop in Hd. }
      destruct Hab as [Ha Hb].
      assert (Hbl : String.length b = Z.to_nat (k - n)).
      { pose proof (f_equal String.length Hsp) as E.
        rewrite length_append, Hsl, Hl in E. lia. }
      split; [| split].
      * exists s, (k - n)%Z. split.
        -- unfold parse_decimal. rewrite (read_digits_app _ _ _ _ Ha).
           cbn [append read_digits]. change (is_digit ".") with false. cbv iota.
           change (Ascii.eqb "." ".") with true. cbv iota.
           rewrite (read_digits_all _ _ _ Hb), <- digits_value_app, Hsp, Hv.
           rewrite Hsl, Hbl. cbn [is_empty andb].
           destruct (Z.eqb_spec (0 + Z.of_nat (Z.to_nat n) + (0 + Z.of_nat (Z.to_nat (k - n)))) 0);
             [lia |]. cbn [negb]. f_equal. f_equal. lia.
        -- intros neg. f_equal. lia.
      * rewrite decimal_chars_app. simpl.
        now rewrite (decimal_chars_digits _ Ha), (decimal_chars_digits _ Hb).
      * destruct Hhead as [c [r [E Hc]]]. unfold a. rewrite E.
        destruct (Z.to_nat n) as [| n'] eqn:En; [lia |]. simpl. eauto.
    + destruct (Z.ltb_spec (-6) n) as [_ | ?]; [| lia].
      destruct (Z.leb_spec n 0) as [_ | ?]; [| lia]. cbn [andb].
      (* a zero, a point, zeros and the digits *)
      destruct (zeros_spec (Z.to_nat (- n)) 0) as [Hz [Hzv Hzl]].
      assert (Hall : all_digits (zeros (Z.to_nat (- n)) ++ decimal s) = true)
        by now rewrite all_digits_app, Hd, Hz.
      split; [| split].
      * exists s, (k - n)%Z. split.
        -- unfold parse_decimal. cbn [append read_digits].
           change (is_digit "0") with true. cbv iota.
           change (is_digit ".") with false. cbv iota.
           change (Ascii.eqb "." ".") with true. cbv iota.
           rewrite (read_digits_all _ _ _ Hall).
           change (10 * 0 + digit_value "0")%Z with 0%Z.
           rewrite digits_value_app, Hzv, Z.mul_0_l, Hv.
           rewrite length_append, Hzl, Hl. cbn [is_empty andb].
           destruct (Z.eqb_spec (0 + 1 + (0 + Z.of_nat (Z.to_nat (- n) + S (Z.to_nat (k - 1))))) 0);
             [lia |]. cbn [negb]. f_equal. f_equal. lia.
        -- intros neg. f_equal. lia.
      * change ("0." ++ zeros (Z.to_nat (- n)) ++ decimal s)
          with (String "0" (String "." (zeros (Z.to_nat (- n)) ++ decimal s))).
        cbn [decimal_chars]. now rewrite (decimal_chars_digits _ Hall).
      * eexists _, _. split; [reflexivity | reflexivity].
Qed.

(** ** The digits [shortest] finds *)

Lemma SFeqb_finite (r : number) (neg : bool) (m : positive) (e : Z) :
  num_eqb r (S754_finite neg m e) = true -> r = S754_finite neg m e.
Proof.
  unfold num_eqb, SFeqb, SFcompare.
  destruct r as [s0 | s0 | | s0 m0 e0]; try discriminate.
  - destruct neg; discriminate.
  - destruct s0, neg; discriminate.
  - destruct s0, neg; try discriminate;
      destruct (Z.compare e0 e) eqn:Ec; try discriminate;
      destruct (Pos.compare_cont Eq m0 m) eqn:Em; try discriminate;
      intros _; apply Z.compare_eq in Ec; apply Pos.compare_eq in Em;
      now subst.
Qed.

Lemma SFeqb_finite_refl (neg : bool) (m : positive) (e : Z) :
  num_eqb (S754_finite neg m e) (S754_finite neg m e) = true.
Proof.
  unfold num_eqb, SFeqb, SFcompare.
  destruct neg; rewrite Z.compare_refl;
    change (Pos.compare_cont Eq m m) with (Pos.compare m m);
    now rewrite Pos.compare_refl.
Qed.

Lemma first_exact_spec (x : number) (k : Z) (cs : list (Z * Z)) (s n : Z) :
  first_exact x k cs = Some (s, n) ->
  (10 ^ (k - 1) <= s < 10 ^ k)%Z /\ num_eqb (round_decimal false s (n - k)) x = true.
Proof.
  induction cs as [| [s' n'] cs IH]; simpl; [discriminate |].
  destruct (Z.leb_spec (10 ^ (k - 1)) s') as [H1 | _]; [| exact IH].
  destruct (Z.ltb_spec s' (10 ^ k)) as [H2 | _]; [| exact IH].
  destruct (num_eqb (round_decimal false s' (n' - k)) x) eqn:E; [| exact IH].
  simpl. intros H; inversion H; subst. auto.
Qed.

Lemma shortest_from_spec (fuel : nat) (x : number) (num den n0 k0 s n k : Z) :
  shortest_from fuel x num den n0 k0 = Some (s, n, k) ->
  (k0 <= k)%Z /\ (10 ^ (k - 1) <= s < 10 ^ k)%Z
  /\ num_eqb (round_decimal false s (n - k)) x = true.
Proof.
  revert k0. induction fuel as [| f IH]; simpl; intros k0; [discriminate |].
  destruct (first_exact x k0 (candidates num den n0 k0)) as [[s' n'] |] eqn:E.
  - intros H; inversion H; subst.
    apply first_exact_spec in E. split; [lia | exact E].
  - intros H. apply IH in H. split; [lia | tauto].
Qed.

Lemma shortest_spec (m : positive) (e s n k : Z) :
  shortest m e = Some (s, n, k) ->
  (1 <= k)%Z /\ (10 ^ (k - 1) <= s < 10 ^ k)%Z
  /\ round_decimal false s (n - k) = S754_finite false m e.
Proof.
  unfold shortest.
  destruct (match e with
            | Zneg j => (Zpos m, (2 ^ Zpos j)%Z)
            | _ => ((Zpos m * 2 ^ e)%Z, 1%Z)
            end) as [num den].
  intros H. apply shortest_from_spec in H as [H1 [H2 H3]].
  split; [exact H1 | split; [exact H2 |]]. now apply SFeqb_finite.
Qed.

Lemma binary_round_aux_sign (mx ex : Z) (lx : location) :
  binary_round_aux prec emax true mx ex lx
  = SFopp (binary_round_aux prec emax false mx ex lx).
Proof.
  unfold binary_round_aux.
  destruct (shr_fexp prec emax mx ex lx) as [mrs' e'].
  destruct (shr_fexp prec emax _ e' loc_Exact) as [mrs'' e''].
  destruct (shr_m mrs''); [reflexivity | | reflexivity].
  destruct (Z.leb e'' (emax - prec)); reflexivity.
Qed.

Lemma round_decimal_sign (m e : Z) :
  round_decimal true m e = SFopp (round_decimal false m e).
Proof.
  unfold round_decimal. destruct m as [| p | p]; try reflexivity.
  destruct e as [| q | q].
  - unfold binary_round. destruct (shl_align _ _ _). apply binary_round_aux_sign.
  - unfold binary_round. destruct (shl_align _ _ _). apply binary_round_aux_sign.
  - unfold SFdiv. destruct (SFdiv_core_binary _ _ _ _ _ _) as [[mz ez] lz].
    apply binary_round_aux_sign.
Qed.

(** ** Number after String *)

Lemma decimal_chars_token (s : string) :
  decimal_chars s = true -> token_chars s = true.
Proof.
  induction s as [| c r IH]; simpl; [reflexivity |].
  intros H. apply andb_prop in H as [Hc Hr].
  unfold token_char. rewrite (IH Hr).
  apply orb_prop in Hc as [Hc | Hc]; rewrite Hc; simpl;
    rewrite ?orb_true_r; reflexivity.
Qed.

Lemma token_char_plain (c : ascii) :
  token_char c = true ->
  is_space c = false /\ is_sep c = false /\ is_letter c = false.
Proof.
  destruct c as [[] [] [] [] [] [] [] []]; vm_compute; intros H;
    try discriminate H; repeat split.
Qed.

Lemma token_chars_trimEnd (s : string) : token_chars s = true -> trimEnd s = s.
Proof.
  induction s as [| c r IH]; simpl; [reflexivity |].
  intros H. apply andb_prop in H as [Hc Hr].
  destruct (token_char_plain c Hc) as [Hs _]. now rewrite Hs, (IH Hr).
Qed.

Lemma token_chars_trim (s : string) : token_chars s = true -> trim s = s.
Proof.
  intros H. unfold trim.
  destruct s as [| c r]; [reflexivity |]. simpl in H.
  pose proof H as H'. apply andb_prop in H as [Hc Hr].
  destruct (token_char_plain c Hc) as [Hs _].
  cbn [trimStart]. rewrite Hs. now apply token_chars_trimEnd.
Qed.

(** The string form of a number in plain notation is made of digits, a
    point and a sign, is not empty, and [Number] reads it back as a number
    equal to the one printed. *)
Lemma Number_number_to_string (x : number) :
  plain x = true ->
  token_chars (number_to_string x) = true
  /\ is_empty (number_to_string x) = false
  /\ num_eqb (Number (number_to_string x)) x = true
  /\ num_eqb x (Number (number_to_string x)) = true.
Proof.
  destruct x as [s0 | s0 | | neg m e]; cbn [plain number_to_string];
    try discriminate.
  - intros _. repeat split; now destruct s0.
  - destruct (shortest m e) as [[[s n] k] |] eqn:E; [| discriminate].
    intros Hn. apply andb_prop in Hn as [Hn1 Hn2].
    apply Z.ltb_lt in Hn1. apply Z.leb_le in Hn2.
    destruct (shortest_spec _ _ _ _ _ E) as [Hk [Hs Hr]].
    destruct (parse_format s n k Hk Hs (conj Hn1 Hn2))
      as [[m' [f' [Hparse Hround]]] [Hchars [c [r [Hfmt Hc]]]]].
    apply decimal_chars_token in Hchars.
    destruct neg.
    + assert (Htok : token_chars ("-" ++ format_digits s n k) = true)
        by (simpl; exact Hchars).
      split; [exact Htok | split; [reflexivity |]].
      unfold Number. rewrite (token_chars_trim _ Htok).
      cbn [append]. change (Ascii.eqb "-" "-") with true. cbv iota.
      rewrite Hparse, Hround, round_decimal_sign, Hr.
      split; apply SFeqb_finite_refl.
    + cbn [append]. split; [exact Hchars | split; [now rewrite Hfmt |]].
      unfold Number. rewrite (token_chars_trim _ Hchars), Hfmt.
      destruct (digit_not_sign c Hc) as [H1 H2]. rewrite H1, H2.
      rewrite <- Hfmt, Hparse, Hround, Hr. split; apply SFeqb_finite_refl.
Qed.

End NumberFacts.

(* ================================================================== *)
(** * parsePath after generatePath *)
(* ================================================================== *)

Module RoundTrip.
Import Js PathEditor Spec JsFacts PathEditorFacts NumberFacts.

(** ** White space at the ends of a path *)

Lemma space_not_command (c : ascii) : is_space c = true -> is_command c = false.
Proof.
  intros H. destruct (is_command c) eqn:E; [| reflexivity].
  apply command_is_letter, letter_not_space in E. congruence.
Qed.

Lemma space_not_letter (c : ascii) : is_space c = true -> is_letter c = false.
Proof.
  intros H. destruct (is_letter c) eqn:E; [| reflexivity].
  apply letter_not_space in E. congruence.
Qed.

Lemma all_space_letter_free (ws : string) : all_space ws = true -> letter_free ws = true.
Proof.
  induction ws as [| c r IH]; simpl; [reflexivity |].
  intros H. apply andb_prop in H as [Hc Hr].
  now rewrite (space_not_letter c Hc), (IH Hr).
Qed.

Lemma all_space_trimStart (ws : string) : all_space ws = true -> trimStart ws = "".
Proof.
  induction ws as [| c r IH]; simpl; [reflexivity |].
  intros H. apply andb_prop in H as [Hc Hr]. now rewrite Hc, (IH Hr).
Qed.

Lemma all_space_trimEnd (ws : string) : all_space ws = true -> trimEnd ws = "".
Proof.
  induction ws as [| c r IH]; simpl; [reflexivity |].
  intros H. apply andb_prop in H as [Hc Hr]. now rewrite Hc, (IH Hr).
Qed.

Lemma trimStart_app_space (r ws : string) :
  all_space ws = true ->
  trimStart (r ++ ws) = if is_empty (trimStart r) then "" else trimStart r ++ ws.
Proof.
  intros H. induction r as [| c r IH]; simpl.
  - now apply all_space_trimStart.
  - destruct (is_space c); [exact IH | reflexivity].
Qed.

Lemma trimEnd_app_space (x ws : string) :
  all_space ws = true -> trimEnd (x ++ ws) = trimEnd x.
Proof.
  intros H. induction x as [| c x IH]; simpl.
  - now apply all_space_trimEnd.
  - now rewrite IH.
Qed.

Lemma trim_app_space (a ws : string) : all_space ws = true -> trim (a ++ ws) = trim a.
Proof.
  intros H. unfold trim. rewrite (trimStart_app_space _ _ H).
  destruct (trimStart a) as [| c u] eqn:E; cbn [is_empty]; [reflexivity |].
  apply (trimEnd_app_space (String c u) ws H).
Qed.

Lemma span_nonletters_app_free (u v a b : string) :
  letter_free v = true -> span_nonletters u = (a, b) ->
  span_nonletters (u ++ v) = if is_empty b then (a ++ v, "") else (a, b ++ v).
Proof.
  intros Hv. revert a b. induction u as [| c r IH]; simpl; intros a b H.
  - inversion H; subst. simpl. now apply span_nonletters_letter_free.
  - destruct (is_letter c); [inversion H; reflexivity |].
    destruct (span_nonletters r) as [a' b'].
    rewrite (IH _ _ eq_refl). inversion H; subst.
    now destruct b.
Qed.

(** White space added at the end of a string changes no command of its
    parse: only the last match can grow, and its pieces are trimmed. *)
Lemma regex_exec_app_space (s ws : string) :
  all_space ws = true ->
  match regex_exec s with
  | None => regex_exec (s ++ ws) = None
  | Some (m, rest) =>
      exists m' rest',
        regex_exec (s ++ ws) = Some (m', rest')
        /\ command_of_match m' = command_of_match m
        /\ (rest' = rest ++ ws \/ (rest = "" /\ rest' = ""))
  end.
Proof.
  intros H. induction s as [| c r IH]; simpl.
  - apply regex_exec_letter_free. now apply all_space_letter_free.
  - destruct (is_command c); [| exact IH].
    rewrite (trimStart_app_space _ _ H).
    destruct (span_nonletters (trimStart r)) as [a b] eqn:E.
    destruct (trimStart r) as [| c0 u] eqn:Eu.
    + simpl in E. inversion E; subst. simpl.
      eexists _, _. split; [reflexivity |]. split; [reflexivity |]. now right.
    + cbn [is_empty].
      rewrite (span_nonletters_app_free _ _ _ _ (all_space_letter_free _ H) E).
      destruct b as [| cb b']; cbn [is_empty].
      * eexists _, _. split; [reflexivity |]. split; [| now right].
        assert (Ha : is_empty a = false).
        { simpl in E. destruct (is_letter c0); [discriminate E |].
          destruct (span_nonletters u). now inversion E. }
        unfold command_of_match. cbn [group1 group2].
        destruct a as [| ca a']; [discriminate Ha |]. cbn [append is_empty].
        change (String ca (a' ++ ws)) with (String ca a' ++ ws).
        now rewrite (trim_app_space _ _ H).
      * eexists _, _. split; [reflexivity |]. split; [reflexivity |]. now left.
Qed.

Lemma parsePath_app_space (s ws : string) :
  all_space ws = true -> parsePath (s ++ ws) = parsePath s.
Proof.
  intros H. induction s as [s IH] using parse_induction.
  pose proof (regex_exec_app_space s ws H) as Hx.
  rewrite (parsePath_unfold (s ++ ws)), (parsePath_unfold s).
  destruct (regex_exec s) as [[m rest] |] eqn:E.
  - destruct Hx as [m' [rest' [Hx [Hm Hr]]]]. rewrite Hx, Hm. f_equal.
    destruct Hr as [-> | [-> ->]]; [eapply IH; eauto | reflexivity].
  - now rewrite Hx.
Qed.

Lemma trimEnd_split (s : string) :
  exists ws, all_space ws = true /\ s = trimEnd s ++ ws.
Proof.
  induction s as [| c r [ws [Hw Hr]]]; simpl.
  - now exists "".
  - destruct (is_space c) eqn:Ec; simpl.
    + destruct (trimEnd r) eqn:Et; simpl.
      * exists (String c ws). simpl in Hr. subst r. simpl. now rewrite Ec, Hw.
      * exists ws. split; [exact Hw |]. simpl in Hr. now rewrite <- Hr.
    + exists ws. split; [exact Hw |]. now rewrite <- Hr.
Qed.

Lemma parsePath_trimStart (s : string) : parsePath (trimStart s) = parsePath s.
Proof.
  induction s as [| c r IH]; simpl; [reflexivity |].
  destruct (is_space c) eqn:E; [| reflexivity].
  now rewrite (parsePath_skip _ _ (space_not_command c E)).
Qed.

(** [parsePath] does not see the white space [trim] removes. *)
Lemma parsePath_trim (s : string) : parsePath (trim s) = parsePath s.
Proof.
  unfold trim. destruct (trimEnd_split (trimStart s)) as [ws [Hw Hs]].
  rewrite <- (parsePath_trimStart s). rewrite Hs at 2.
  now rewrite (parsePath_app_space _ _ Hw).
Qed.

(** ** The text of one command, read back *)

Lemma trimEnd_token (t y : string) :
  token_chars t = true -> trimEnd (t ++ y) = t ++ trimEnd y.
Proof.
  induction t as [| c t IH]; simpl; [reflexivity |].
  intros H. apply andb_prop in H as [Hc Ht].
  destruct (token_char_plain c Hc) as [Hs _]. now rewrite Hs, (IH Ht).
Qed.

Lemma split_from_token (t cur rest : string) (b : bool) :
  token_chars t = true ->
  split_from cur b (t ++ rest)
  = split_from (cur ++ t) (if is_empty t then b else false) rest.
Proof.
  revert cur b. induction t as [| c t IH]; simpl; intros cur b H.
  - now rewrite append_empty_r.
  - apply andb_prop in H as [Hc Ht].
    destruct (token_char_plain c Hc) as [_ [Hsep _]]. rewrite Hsep.
    rewrite (IH _ _ Ht), append_assoc. simpl. now destruct (is_empty t).
Qed.

Lemma clean_head (t : string) :
  clean t -> exists c r, t = String c r /\ token_char c = true.
Proof.
  intros [H1 H2]. destruct t as [| c r]; [discriminate H2 |].
  exists c, r. split; [reflexivity |]. simpl in H1. apply andb_prop in H1. tauto.
Qed.

Lemma joinable_head (pieces : list string) (seps : list ascii) :
  joinable pieces seps ->
  exists c r r', join pieces seps = String c r /\ unjoin pieces seps = String c r'
                 /\ token_char c = true.
Proof.
  intros H. destruct H as [t sep Ht Hs | t sep pieces seps Ht Hs Hj];
    destruct (clean_head t Ht) as [c [r [-> Hc]]].
  - simpl. eexists _, _, _.
    split; [reflexivity | split; [reflexivity | exact Hc]].
  - destruct Hj; simpl; eexists _, _, _;
      (split; [reflexivity | split; [reflexivity | exact Hc]]).
Qed.

Lemma joinable_trimEnd (pieces : list string) (seps : list ascii) :
  joinable pieces seps -> trimEnd (join pieces seps) = unjoin pieces seps.
Proof.
  induction 1 as [t sep [Ht _] Hs | t sep pieces seps [Ht _] Hs Hj IH].
  - cbn [join unjoin]. rewrite (trimEnd_token _ _ Ht). simpl.
    rewrite Hs. simpl. apply append_empty_r.
  - assert (E : unjoin (t :: pieces) (sep :: seps)
                = t ++ String sep (unjoin pieces seps)) by (destruct Hj; reflexivity).
    rewrite E. cbn [join]. rewrite (trimEnd_token _ _ Ht). f_equal.
    cbn [trimEnd]. rewrite IH.
    destruct (joinable_head _ _ Hj) as [c [r [r' [_ [-> _]]]]].
    cbn [is_empty]. now rewrite andb_false_r.
Qed.

Lemma joinable_split (pieces : list string) (seps : list ascii) (b : bool) :
  joinable pieces seps -> split_from "" b (unjoin pieces seps) = pieces.
Proof.
  intros H. revert b.
  induction H as [t sep [Ht Hne] Hs | t sep pieces seps [Ht Hne] Hs Hj IH]; intros b.
  - cbn [unjoin]. rewrite <- (append_empty_r t) at 1.
    rewrite (split_from_token _ _ _ _ Ht). reflexivity.
  - assert (E : unjoin (t :: pieces) (sep :: seps)
                = t ++ String sep (unjoin pieces seps)) by (destruct Hj; reflexivity).
    rewrite E, (split_from_token _ _ _ _ Ht), Hne.
    cbn [split_from append]. rewrite Hs. f_equal. apply IH.
Qed.

Lemma joinable_letter_free (pieces : list string) (seps : list ascii) :
  joinable pieces seps -> letter_free (join pieces seps) = true.
Proof.
  assert (Htok : forall t y, token_chars t = true -> letter_free y = true ->
                             letter_free (t ++ y) = true).
  { induction t as [| c t IH]; simpl; intros y H Hy; [exact Hy |].
    apply andb_prop in H as [Hc Ht].
    destruct (token_char_plain c Hc) as [_ [_ Hl]]. rewrite Hl. simpl. now apply IH. }
  assert (Hsep : forall c, is_sep c = true -> is_letter c = false).
  { intros c. destruct c as [[] [] [] [] [] [] [] []]; vm_compute; intros H;
      try discriminate H; reflexivity. }
  induction 1 as [t sep [Ht _] Hs | t sep pieces seps [Ht _] Hs Hj IH]; cbn [join].
  - apply Htok; [exact Ht |]. simpl. now rewrite (space_not_letter _ Hs).
  - apply Htok; [exact Ht |]. simpl. now rewrite (Hsep _ Hs), IH.
Qed.

(** The pieces [parsePath] finds in the argument run [generatePath] writes
    for a command. *)
Lemma joinable_tokens (pieces : list string) (seps : list ascii) :
  joinable pieces seps ->
  split_seps (trim (String " " (join pieces seps))) = pieces.
Proof.
  intros H. unfold trim. cbn [trimStart]. change (is_space " ") with true. cbv iota.
  destruct (joinable_head _ _ H) as [c [r [r' [E [_ Hc]]]]].
  destruct (token_char_plain c Hc) as [Hs _].
  assert (Et : trimStart (join pieces seps) = join pieces seps)
    by (rewrite E; simpl; now rewrite Hs).
  rewrite Et, (joinable_trimEnd _ _ H). now apply joinable_split.
Qed.

Lemma printable_field (o : commandObject) (k : string) :
  printable o = true -> In k (names o) -> k <> "command" ->
  exists x, field o k = VNum x /\ plain x = true.
Proof.
  unfold printable, field. induction o as [| [k' v] o IH]; simpl; [tauto |].
  intros H Hin Hk. apply andb_prop in H as [Hv Ho].
  destruct (String.eqb k' k) eqn:E.
  - apply String.eqb_eq in E. subst k'.
    destruct (String.eqb k "command") eqn:Ec;
      [apply String.eqb_eq in Ec; contradiction |].
    simpl in Hv. destruct v as [| | | x |]; try discriminate. now exists x.
  - apply IH; [exact Ho | | exact Hk].
    destruct Hin as [Hin | Hin]; [| exact Hin].
    subst k'. now rewrite String.eqb_refl in E.
Qed.

Lemma schema_not_command (c : ascii) : ~ In "command" (schema c).
Proof.
  destruct c as [[] [] [] [] [] [] [] []]; simpl; intros H;
    repeat (destruct H as [H | H]; [discriminate H |]); exact H.
Qed.

(** The argument run of a command whose fields are all in plain notation
    can be read back piece by piece. *)
Lemma schema_joinable (o : commandObject) (c : ascii) :
  is_command c = true ->
  (forall k, In k (schema c) -> clean (to_string (field o k))) ->
  schema c = [] \/ joinable (map (fun k => to_string (field o k)) (schema c)) (separators c).
Proof.
  intros Hc Hclean. apply is_command_cases in Hc. simpl in Hc.
  repeat (destruct Hc as [Hc | Hc];
    [ subst c; first [ left; reflexivity | right ]; cbn [schema separators map];
      repeat (first [ apply joinable_last; [apply Hclean; simpl; tauto | reflexivity]
                    | apply joinable_cons; [apply Hclean; simpl; tauto | reflexivity |] ])
    | ]).
  destruct Hc.
Qed.

Lemma segment_parse (o : commandObject) (c : ascii) (rest : string) :
  well_formed o c -> printable o = true -> at_letter rest = true ->
  exists o', parsePath (segment o ++ rest) = o' :: parsePath rest /\ same_command o o'.
Proof.
  intros [Hc [Hown Hnames]] Hp Hrest.
  assert (Hfield : forall k, In k (schema c) ->
            exists x, field o k = VNum x /\ plain x = true).
  { intros k Hk. apply printable_field; [exact Hp | | ].
    - rewrite Hnames. now right.
    - intros ->. now apply (schema_not_command c). }
  assert (Hclean : forall k, In k (schema c) -> clean (to_string (field o k))).
  { intros k Hk. destruct (Hfield k Hk) as [x [-> Hx]].
    destruct (Number_number_to_string x Hx) as [H1 [H2 _]]. now split. }
  set (args := String " " (fields_text o (schema c) (separators c))).
  assert (Hseg : segment o = String c args).
  { unfold segment, letter_of, field. now rewrite Hown. }
  assert (Hargs : letter_free args = true
                  /\ split_seps (trim args) = match schema c with
                                              | [] => [""]
                                              | _ => map (fun k => to_string (field o k)) (schema c)
                                              end).
  { unfold args, fields_text.
    destruct (schema_joinable o c Hc Hclean) as [E | Hj].
    - rewrite E. simpl. split; reflexivity.
    - split.
      + simpl. now apply joinable_letter_free.
      + rewrite (joinable_tokens _ _ Hj). destruct (schema c); [now inversion Hj | reflexivity]. }
  destruct Hargs as [Hfree Htok].
  exists (command_of_match (match_of c args)). split.
  - rewrite Hseg. cbn [append]. now apply parsePath_command.
  - destruct (command_of_match_names (match_of c args) Hc) as [Hown' Hnames'].
    cbn [group1 match_of] in Hown', Hnames'.
    split; [congruence |]. split; [unfold field; now rewrite Hown, Hown' |].
    intros k Hk. destruct (in_dec string_dec k (schema c)) as [Hin | Hout].
    + destruct (In_nth_error _ _ Hin) as [i Hi].
      rewrite (command_of_match_fields c args i k Hc Hi), Htok.
      destruct (Hfield k Hin) as [x [Ex Hx]]. rewrite Ex.
      destruct (schema c) as [| k0 ks] eqn:Es; [destruct Hin |].
      unfold argument. rewrite nth_error_map, Hi. cbn [option_map].
      rewrite Ex. cbn [to_string same_value].
      now destruct (Number_number_to_string x Hx) as [_ [_ [_ H]]].
    + unfold field. rewrite !own_names; [reflexivity | |].
      * rewrite Hnames'. intros [E | E]; [apply Hk; now symmetry | exact (Hout E)].
      * rewrite Hnames. intros [E | E]; [apply Hk; now symmetry | exact (Hout E)].
Qed.

Lemma segments_at_letter (pathData : list commandObject) :
  Forall (fun o => exists c, well_formed o c) pathData ->
  at_letter (flatten (map segment pathData)) = true.
Proof.
  intros H. destruct H as [| o pd [c [Hc [Hown _]]] _]; [reflexivity |].
  simpl. unfold segment, field. rewrite Hown. simpl. now apply command_is_letter.
Qed.

Lemma segments_parse (pathData : list commandObject) :
  Forall (fun o => exists c, well_formed o c) pathData ->
  forallb printable pathData = true ->
  Forall2 same_command pathData (parsePath (flatten (map segment pathData))).
Proof.
  induction 1 as [| o pd [c Hwf] Hpd IH]; simpl; intros Hp.
  - rewrite parsePath_empty. constructor.
  - apply andb_prop in Hp as [Ho Hp].
    destruct (segment_parse o c (flatten (map segment pd)) Hwf Ho
                (segments_at_letter pd Hpd)) as [o' [E Hs]].
    rewrite E. constructor; [exact Hs | now apply IH].
Qed.

(** ** The round trip *)

(** A coordinate below 1e-6 is printed with an exponent, which
    [parsePath] does not read: the path ["M 0.0000001,5"] comes back as
    ["M 1e-7,5"], whose parse has [x = 1] and [y] undefined. *)
Lemma roundtrip_exponent_counterexample :
  let d := "M 0.0000001,5" in
  let doc := [ {| elem_id := "p"; attr_d := Some d |} ] in
  generatePath doc (parsePath d) "p" = Ok "M 1e-7,5"
  /\ parsePath "M 1e-7,5"
     = [ [("command", VStr "M"); ("x", VNum (Number "1")); ("y", VUndefined)] ]
  /\ ~ Forall2 same_command (parsePath d) (parsePath "M 1e-7,5").
Proof.
  split; [reflexivity |]. split; [reflexivity |].
  intros H. inversion H as [| o o' l l' [_ [_ Hf]] _]; subst.
  specialize (Hf "y"). vm_compute in Hf.
  assert (E : "y" <> "command") by discriminate.
  specialize (Hf E). discriminate Hf.
Qed.

(** A truncated argument list is printed with the word [undefined], which
    ends the argument run: the missing [y] of ["M 10"] comes back as 0. *)
Example roundtrip_truncated_example :
  let d := "M 10" in
  let doc := [ {| elem_id := "p"; attr_d := Some d |} ] in
  generatePath doc (parsePath d) "p" = Ok "M 10,undefined"
  /\ parsePath "M 10,undefined"
     = [ [("command", VStr "M"); ("x", VNum (Number "10"));
          ("y", VNum (S754_zero false))] ].
Proof. split; reflexivity. Qed.

(** A path that ends with [Z] comes back with one more [Z]: the command
    object of the letter writes one and the closing rule adds another. *)
Lemma roundtrip_closed_path_gains_Z :
  let d := "M 10,10 L 20,20 Z" in
  let doc := [ {| elem_id := "p"; attr_d := Some d |} ] in
  generatePath doc (parsePath d) "p" = Ok "M 10,10 L 20,20 Z Z"
  /\ List.length (parsePath d) = 3
  /\ List.length (parsePath "M 10,10 L 20,20 Z Z") = 4.
Proof. repeat split. Qed.

(** C1, as the code has it.  For every path string whose parse has only
    numbers in plain decimal notation in its fields (complete argument
    lists of numbers that are zero or of magnitude from 1e-6 up to, not
    including, 1e21) and every element of the document whose [d] attribute
    does not end with [Z], [generatePath] applied to the parse returns a
    string whose parse has the same commands in the same order, with the
    same fields and numerically equal values in them. *)
Theorem parse_generate_roundtrip (d : string) (doc : document) (pathId : string)
  (elem : element) :
  getElementById doc pathId = Some elem ->
  ends_closed (attr_d elem) = false ->
  forallb printable (parsePath d) = true ->
  exists out,
    generatePath doc (parsePath d) pathId = Ok out
    /\ Forall2 same_command (parsePath d) (parsePath out).
Proof.
  intros Hid Hz Hp.
  exists (serialized (parsePath d) (attr_d elem)).
  split; [now apply generatePath_serialized |].
  unfold serialized. rewrite ends_closed_closure, Hz, append_empty_r, parsePath_trim.
  apply segments_parse; [apply parsePath_well_formed | exact Hp].
Qed.

Lemma parse_generate_roundtrip_witness :
  let d := "M 10,10 C 1.5,-1 2,2 3,0.25 A 5,5 0 0,1 20,20 l -3,.5 z" in
  let doc := [ {| elem_id := "p"; attr_d := Some d |} ] in
  exists out,
    generatePath doc (parsePath d) "p" = Ok out
    /\ Forall2 same_command (parsePath d) (parsePath out).
Proof.
  intros d doc.
  apply (parse_generate_roundtrip d doc "p" {| elem_id := "p"; attr_d := Some d |});
    reflexivity.
Defined.

End RoundTrip.

(* ================================================================== *)
(** * The editor: markers, updates and drags *)
(* ================================================================== *)

Module EditorFacts.
Import Js PathEditor Spec PresetSpec JsFacts PathEditorFacts PresetManagerFacts
  NumberFacts RoundTrip.

(** ** parsePath: one command for each command letter *)

Lemma command_letters_trimStart (s : string) :
  command_letters (trimStart s) = command_letters s.
Proof.
  induction s as [|c r IH]; [reflexivity|].
  simpl. destruct (is_space c) eqn:Hc; [|reflexivity].
  rewrite (space_not_command _ Hc). exact IH.
Qed.

Lemma command_letters_span (s a b : string) :
  span_nonletters s = (a, b) -> command_letters s = command_letters b.
Proof.
  revert a b. induction s as [|c r IH]; intros a b H; simpl in H.
  - inversion H. reflexivity.
  - destruct (is_letter c) eqn:Hc.
    + inversion H. reflexivity.
    + destruct (span_nonletters r) as [a' b'] eqn:Hr. inversion H; subst.
      simpl. destruct (is_command c) eqn:Hk.
      * apply command_is_letter in Hk. congruence.
      * eapply IH. reflexivity.
Qed.

Lemma regex_exec_letters (s : string) :
  match regex_exec s with
  | None => command_letters s = []
  | Some (m, rest) => command_letters s = group1 m :: command_letters rest
  end.
Proof.
  induction s as [|c r IH]; [reflexivity|].
  simpl. destruct (is_command c) eqn:Hc.
  - destruct (span_nonletters (trimStart r)) as [args rest] eqn:Hs.
    simpl. f_equal. rewrite <- (command_letters_trimStart r).
    eapply command_letters_span. exact Hs.
  - exact IH.
Qed.

Lemma letter_of_command_of_match (m : regex_match) :
  is_command (group1 m) = true -> letter_of (command_of_match m) = Some (group1 m).
Proof.
  intros H. destruct (command_of_match_names m H) as [Ho _].
  unfold letter_of, field. rewrite Ho. reflexivity.
Qed.

(** X1. [parsePath] makes one command object for each command letter of
    its input, in the order of the letters: the letters of the objects are
    the characters of [d] among [MmLlCcAaZz], and nothing else of the input
    adds or removes an object. *)
Theorem parsePath_one_per_letter (d : string) :
  map letter_of (parsePath d) = map Some (command_letters d)
  /\ List.length (parsePath d) = List.length (command_letters d).
Proof.
  assert (H : map letter_of (parsePath d) = map Some (command_letters d)).
  { induction d as [d IH] using parse_induction.
    rewrite parsePath_unfold. pose proof (regex_exec_letters d) as Hl.
    destruct (regex_exec d) as [[m rest]|] eqn:He.
    - rewrite Hl. simpl. rewrite (IH m rest eq_refl).
      rewrite letter_of_command_of_match; [reflexivity|].
      eapply regex_exec_command. exact He.
    - rewrite Hl. reflexivity. }
  split; [exact H|].
  rewrite <- (length_map letter_of), H. apply length_map.
Qed.

(** ** parsePath: what surrounds the commands *)

Lemma parsePath_skip_prefix (pre d : string) :
  command_letters pre = [] -> parsePath (pre ++ d) = parsePath d.
Proof.
  induction pre as [|c r IH]; intros H; [reflexivity|].
  simpl in H. destruct (is_command c) eqn:Hc; [discriminate|].
  simpl. rewrite (parsePath_skip _ _ Hc). exact (IH H).
Qed.

(** X2. Text before the first command letter and white space after the
    last command do not change the result of [parsePath]: a prefix without
    any of the letters [MmLlCcAaZz] is skipped, whatever else it holds. *)
Theorem parsePath_ignores_surroundings (pre d ws : string) :
  command_letters pre = [] -> all_space ws = true ->
  parsePath (pre ++ d ++ ws) = parsePath d.
Proof.
  intros Hpre Hws. rewrite (parsePath_skip_prefix _ _ Hpre).
  apply parsePath_app_space. exact Hws.
Qed.

Lemma parsePath_ignores_surroundings_witness :
  parsePath ("  x=5; " ++ "M 1,2 L 3,4" ++ "  ") = parsePath "M 1,2 L 3,4".
Proof.
  apply (parsePath_ignores_surroundings "  x=5; " "M 1,2 L 3,4" "  "); reflexivity.
Defined.

(** ** drawMarkers *)

Lemma marker_at_In (o : commandObject) (kx ky col : string) (i : nat)
  (tag : option string) (mk : marker) :
  In mk (marker_at o kx ky col i tag) ->
  is_defined (field o kx) = true /\ is_defined (field o ky) = true
  /\ mk = {| cx := to_string (field o kx); cy := to_string (field o ky);
             fill := col; data_index := i; data_point_type := tag |}.
Proof.
  unfold marker_at. intros H.
  destruct (is_defined (field o kx)); destruct (is_defined (field o ky));
    simpl in H; try contradiction.
  destruct H as [H|[]]. auto.
Qed.

Lemma markers_from_In (pathData : list commandObject) (k : nat) (mk : marker) :
  In mk (markers_from k pathData) <->
  exists j o,
    nth_error pathData j = Some o
    /\ (In mk (marker_at o "x" "y" "#f44336" (k + j) None)
        \/ In mk (marker_at o "x1" "y1" "#4caf50" (k + j) (Some "C1"))
        \/ In mk (marker_at o "x2" "y2" "#4caf50" (k + j) (Some "C2"))).
Proof.
  revert k. induction pathData as [|o pd IH]; intros k; simpl.
  - split; [contradiction|]. intros (j & o & H & _). destruct j; discriminate.
  - rewrite !in_app_iff, IH. split.
    + intros [H|[H|[H|(j & o' & Hn & H)]]].
      * exists 0, o. rewrite Nat.add_0_r. auto.
      * exists 0, o. rewrite Nat.add_0_r. auto.
      * exists 0, o. rewrite Nat.add_0_r. auto.
      * exists (S j), o'. rewrite Nat.add_succ_r. auto.
    + intros (j & o' & Hn & H). destruct j as [|j]; simpl in Hn.
      * inversion Hn; subst o'. rewrite Nat.add_0_r in H. tauto.
      * right. right. right. exists j, o'. rewrite Nat.add_succ_r in H. auto.
Qed.

(** X3. Every marker that [drawMarkers] draws can be dragged: its
    [data-index] is the index of a command of the array, and the pair of
    fields [updatePath] assigns for its point type (as [handleMove] reads it
    from [data-point-type]) is the pair of defined fields whose values the
    marker shows in [cx] and [cy]. *)
Theorem drawMarkers_draggable (parsedPathData : list commandObject) (mk : marker) :
  In mk (drawMarkers parsedPathData) ->
  exists commandObj,
    nth_error parsedPathData (data_index mk) = Some commandObj
    /\ is_defined (field commandObj (fst (moved_fields (pointType_of mk)))) = true
    /\ is_defined (field commandObj (snd (moved_fields (pointType_of mk)))) = true
    /\ cx mk = to_string (field commandObj (fst (moved_fields (pointType_of mk))))
    /\ cy mk = to_string (field commandObj (snd (moved_fields (pointType_of mk)))).
Proof.
  unfold drawMarkers. intros H. apply markers_from_In in H.
  destruct H as (j & o & Hn & H). exists o.
  destruct H as [H|[H|H]]; apply marker_at_In in H;
    destruct H as (Hx & Hy & ->); simpl; auto.
Qed.

Lemma drawMarkers_draggable_witness :
  let mk := {| cx := "2"; cy := "2"; fill := "#4caf50";
               data_index := 1; data_point_type := Some "C2" |} in
  let pd := parsePath "M 0,0 C 1,1 2,2 3,3" in
  exists commandObj,
    nth_error pd (data_index mk) = Some commandObj
    /\ is_defined (field commandObj (fst (moved_fields (pointType_of mk)))) = true
    /\ is_defined (field commandObj (snd (moved_fields (pointType_of mk)))) = true
    /\ cx mk = to_string (field commandObj (fst (moved_fields (pointType_of mk))))
    /\ cy mk = to_string (field commandObj (snd (moved_fields (pointType_of mk)))).
Proof.
  intros mk pd. apply (drawMarkers_draggable pd mk).
  vm_compute. right. right. right. left. reflexivity.
Defined.

Lemma defined_field_name (o : commandObject) (k : string) :
  is_defined (field o k) = true -> In k (names o).
Proof.
  unfold field. intros H. destruct (in_dec string_dec k (names o)) as [Hin|Hin];
    [exact Hin|].
  rewrite (own_names o k Hin) in H. discriminate.
Qed.

(** X4. On a parsed path the handles of control points belong to curves
    only, and a closing command has no marker: a marker with a
    [data-point-type] has the index of a [C] or [c] command, and no marker
    has the index of a [Z] or [z] command. *)
Theorem drawMarkers_parsed_path (d : string) (mk : marker) :
  In mk (drawMarkers (parsePath d)) ->
  exists commandObj c,
    nth_error (parsePath d) (data_index mk) = Some commandObj
    /\ letter_of commandObj = Some c
    /\ c <> "Z"%char /\ c <> "z"%char
    /\ (data_point_type mk <> None -> c = "C"%char \/ c = "c"%char).
Proof.
  unfold drawMarkers. intros H. apply markers_from_In in H.
  destruct H as (j & o & Hn & H). simpl in H.
  pose proof (parsePath_well_formed d) as Hwf.
  rewrite Forall_forall in Hwf.
  destruct (Hwf o (nth_error_In _ _ Hn)) as (c & Hc & Ho & Hnames).
  assert (Hl : letter_of o = Some c).
  { unfold letter_of, field. rewrite Ho. reflexivity. }
  assert (Hin : forall k, is_defined (field o k) = true -> k <> "command" ->
                          In k (schema c)).
  { intros k Hk Hne. apply defined_field_name in Hk. rewrite Hnames in Hk.
    destruct Hk as [Hk|Hk]; [congruence|exact Hk]. }
  exists o, c.
  destruct H as [H|[H|H]]; apply marker_at_In in H; destruct H as (Hx & Hy & ->);
    simpl; (split; [exact Hn|]); (split; [exact Hl|]);
    apply Hin in Hx; try discriminate;
    apply is_command_cases in Hc; simpl in Hc;
    repeat (destruct Hc as [<-|Hc]; [simpl in Hx|]); try contradiction;
    repeat split; try discriminate; try (intros _; auto; fail);
    try (intros Hf; exfalso; apply Hf; reflexivity);
    simpl in Hx; intuition discriminate.
Qed.

Lemma drawMarkers_parsed_path_witness :
  let mk := {| cx := "1"; cy := "1"; fill := "#4caf50";
               data_index := 1; data_point_type := Some "C1" |} in
  let d := "M 0,0 C 1,1 2,2 3,3 Z" in
  exists commandObj c,
    nth_error (parsePath d) (data_index mk) = Some commandObj
    /\ letter_of commandObj = Some c
    /\ c <> "Z"%char /\ c <> "z"%char
    /\ (data_point_type mk <> None -> c = "C"%char \/ c = "c"%char).
Proof.
  intros mk d. apply (drawMarkers_parsed_path d mk).
  vm_compute. right. right. left. reflexivity.
Defined.

(** ** updatePath: errors *)

Lemma getElementById_empty (doc : document) : getElementById doc "" = None.
Proof. induction doc as [|e doc IH]; [reflexivity|exact IH]. Qed.

Lemma at_index_none {A : Type} (l : list A) (i : Z) :
  at_index l i = None <-> (i < 0 \/ Z.of_nat (List.length l) <= i)%Z.
Proof.
  unfold at_index. destruct (Z.ltb_spec i 0) as [Hi|Hi].
  - split; auto.
  - rewrite nth_error_None. lia.
Qed.

(** X5. [updatePath] raises a [TypeError] in two cases and no other: the
    index of the update is negative or not below the number of commands of
    the path, or no element of the document is found under the [id] of the
    path element.  In every other case it succeeds. *)
Theorem updatePath_throws_iff (ed : editor) (doc : document) (u : updateData)
  (elem : element) :
  nth_error doc (pathElem ed) = Some elem ->
  let pathData := parsePath (attribute_string (attr_d elem)) in
  (updatePath ed doc u = Throw TypeError
   <-> ((upd_index u < 0 \/ Z.of_nat (List.length pathData) <= upd_index u)%Z
        \/ getElementById doc (elem_id elem) = None))
  /\ (updatePath ed doc u <> Throw TypeError ->
      exists doc' ed', updatePath ed doc u = Ok (doc', ed')).
Proof.
  intros He pathData. unfold updatePath. rewrite He. fold pathData.
  rewrite <- at_index_none.
  destruct (at_index pathData (upd_index u)) as [obj|] eqn:Ha.
  - unfold generatePath.
    destruct (getElementById doc (elem_id elem)) as [found|] eqn:Hg.
    + split.
      * split; [discriminate|]. intros [H|H]; discriminate.
      * intros _. eauto.
    + split; [tauto|]. intros H. contradiction H. reflexivity.
  - split; [tauto|]. intros H. contradiction H. reflexivity.
Qed.

Lemma updatePath_throws_iff_witness :
  let elem := {| elem_id := "p"; attr_d := Some "M 1,1 L 2,2" |} in
  let ed := {| pathElem := 0; markers := [] |} in
  let u := {| upd_x := VNum (Number "5"); upd_y := VNum (Number "5");
              upd_index := 2; upd_pointType := "endpoint" |} in
  let pathData := parsePath (attribute_string (attr_d elem)) in
  (updatePath ed [elem] u = Throw TypeError
   <-> ((upd_index u < 0 \/ Z.of_nat (List.length pathData) <= upd_index u)%Z
        \/ getElementById [elem] (elem_id elem) = None))
  /\ (updatePath ed [elem] u <> Throw TypeError ->
      exists doc' ed', updatePath ed [elem] u = Ok (doc', ed')).
Proof.
  intros elem ed u.
  apply (updatePath_throws_iff ed [elem] u elem). reflexivity.
Defined.

(** X6. A path element without an [id] cannot be edited: [generatePath]
    looks the element up by its [id], no element is found under the empty
    string, and so [updatePath] and [applyPathData] raise a [TypeError]
    whatever their argument. *)
Theorem empty_id_throws (ed : editor) (doc : document) (elem : element) :
  nth_error doc (pathElem ed) = Some elem -> elem_id elem = "" ->
  (forall u, updatePath ed doc u = Throw TypeError)
  /\ (forall newPathData, applyPathData ed doc newPathData = Throw TypeError)
  /\ (forall pathData, generatePath doc pathData "" = Throw TypeError).
Proof.
  intros He Hid. repeat split.
  - intros u. unfold updatePath. rewrite He.
    destruct (at_index _ _); [|reflexivity].
    unfold generatePath. rewrite Hid, getElementById_empty. reflexivity.
  - intros pd. unfold applyPathData. rewrite He.
    unfold generatePath. rewrite Hid, getElementById_empty. reflexivity.
  - intros pd. unfold generatePath. rewrite getElementById_empty. reflexivity.
Qed.

Lemma empty_id_throws_witness :
  let elem := {| elem_id := ""; attr_d := Some "M 1,1 L 2,2" |} in
  let ed := {| pathElem := 0; markers := [] |} in
  (forall u, updatePath ed [elem] u = Throw TypeError)
  /\ (forall newPathData, applyPathData ed [elem] newPathData = Throw TypeError)
  /\ (forall pathData, generatePath [elem] pathData "" = Throw TypeError).
Proof.
  intros elem ed. apply (empty_id_throws ed [elem] elem); reflexivity.
Defined.

(** ** updatePath: the markers afterwards *)

Lemma at_index_nat {A : Type} (l : list A) (i : nat) :
  at_index l (Z.of_nat i) = nth_error l i.
Proof.
  unfold at_index. destruct (Z.ltb_spec (Z.of_nat i) 0) as [H|H]; [lia|].
  now rewrite Nat2Z.id.
Qed.

Lemma updatePath_success (ed : editor) (doc : document) (u : updateData)
  (elem found : element) (i : nat) (obj : commandObject) :
  nth_error doc (pathElem ed) = Some elem ->
  getElementById doc (elem_id elem) = Some found ->
  upd_index u = Z.of_nat i ->
  nth_error (parsePath (attribute_string (attr_d elem))) i = Some obj ->
  updatePath ed doc u
  = let pathData :=
      replace_at (parsePath (attribute_string (attr_d elem))) i (move_point obj u) in
    Ok (setAttribute_d doc (pathElem ed) (serialized pathData (attr_d found)),
        {| pathElem := pathElem ed; markers := drawMarkers pathData |}).
Proof.
  intros He Hg Hi Hn. unfold updatePath. rewrite He, Hi, at_index_nat, Hn, Nat2Z.id.
  rewrite (generatePath_serialized _ _ _ _ Hg). reflexivity.
Qed.

(** X7. The dragged marker follows the pointer: after a successful
    [updatePath] with defined coordinates the markers group holds, for the
    index and the point type of the update, a marker at the new
    coordinates, green with its [data-point-type] for [C1] and [C2] and red
    without one for any other point type. *)
Theorem updatePath_marker_follows (ed : editor) (doc : document) (u : updateData)
  (elem found : element) (i : nat) (obj : commandObject) :
  nth_error doc (pathElem ed) = Some elem ->
  getElementById doc (elem_id elem) = Some found ->
  upd_index u = Z.of_nat i ->
  nth_error (parsePath (attribute_string (attr_d elem))) i = Some obj ->
  is_defined (upd_x u) = true -> is_defined (upd_y u) = true ->
  exists doc' ed',
    updatePath ed doc u = Ok (doc', ed')
    /\ In {| cx := to_string (upd_x u); cy := to_string (upd_y u);
             fill := if String.eqb (upd_pointType u) "C1"
                        || String.eqb (upd_pointType u) "C2"
                     then "#4caf50" else "#f44336";
             data_index := i;
             data_point_type :=
               if String.eqb (upd_pointType u) "C1" then Some "C1"
               else if String.eqb (upd_pointType u) "C2" then Some "C2"
               else None |}
          (markers ed').
Proof.
  intros He Hg Hi Hn Hx Hy.
  rewrite (updatePath_success _ _ _ _ _ _ _ He Hg Hi Hn). cbv zeta.
  eexists _, _. split; [reflexivity|]. simpl markers.
  unfold drawMarkers. apply markers_from_In.
  exists i, (move_point obj u). split; [eapply replace_at_same; exact Hn|].
  pose proof (move_point_frame obj u) as Hm.
  unfold moved_fields in Hm. unfold marker_at. simpl "+".
  destruct (String.eqb (upd_pointType u) "C1") eqn:E1;
    [|destruct (String.eqb (upd_pointType u) "C2") eqn:E2];
    destruct Hm as (_ & Hfx & Hfy).
  - right. left. rewrite Hfx, Hfy, Hx, Hy. left. reflexivity.
  - right. right. rewrite Hfx, Hfy, Hx, Hy. left. reflexivity.
  - left. rewrite Hfx, Hfy, Hx, Hy. left. reflexivity.
Qed.

Lemma updatePath_marker_follows_witness :
  let elem := {| elem_id := "p"; attr_d := Some "M 0,0 C 1,1 2,2 3,3" |} in
  let ed := {| pathElem := 0; markers := [] |} in
  let u := {| upd_x := VNum (Number "7"); upd_y := VNum (Number "8");
              upd_index := 1; upd_pointType := "C2" |} in
  exists doc' ed',
    updatePath ed [elem] u = Ok (doc', ed')
    /\ In {| cx := to_string (upd_x u); cy := to_string (upd_y u);
             fill := "#4caf50"; data_index := 1; data_point_type := Some "C2" |}
          (markers ed').
Proof.
  intros elem ed u.
  apply (updatePath_marker_follows ed [elem] u elem elem 1
           [("command", VStr "C");
            ("x1", VNum (Number "1")); ("y1", VNum (Number "1"));
            ("x2", VNum (Number "2")); ("y2", VNum (Number "2"));
            ("x", VNum (Number "3")); ("y", VNum (Number "3"))]);
    reflexivity.
Defined.

(** ** updatePath: the path never gets shorter *)

Lemma lettered_segment (o : commandObject) :
  lettered o -> exists c r, is_command c = true /\ segment o = String c r.
Proof.
  intros (c & Hc & Ho). exists c. unfold segment, field. rewrite Ho.
  simpl. eauto.
Qed.

Lemma parsePath_letter_first (c : ascii) (r : string) :
  is_command c = true -> 1 <= List.length (parsePath (String c r)).
Proof.
  intros Hc. rewrite parsePath_unfold. simpl. rewrite Hc.
  destruct (span_nonletters (trimStart r)). simpl. lia.
Qed.

Lemma lettered_segments (pathData : list commandObject) :
  Forall lettered pathData ->
  at_letter (flatten (map segment pathData)) = true
  /\ List.length pathData
     <= List.length (parsePath (flatten (map segment pathData))).
Proof.
  induction 1 as [|o pd Ho Hpd [IHa IHl]]; simpl.
  - split; [reflexivity|lia].
  - destruct (lettered_segment o Ho) as (c & r & Hc & Hs). split.
    + rewrite Hs. simpl. apply command_is_letter. exact Hc.
    + rewrite (parsePath_app _ _ IHa), length_app, Hs.
      pose proof (parsePath_letter_first c r Hc). lia.
Qed.

Lemma closure_at_letter (a : option string) : at_letter (closure a) = true.
Proof.
  unfold closure. destruct a as [s|]; [|reflexivity].
  destruct (endsWith (trim s) "Z"); reflexivity.
Qed.

Lemma serialized_length (pathData : list commandObject) (a : option string) :
  Forall lettered pathData ->
  List.length pathData <= List.length (parsePath (serialized pathData a)).
Proof.
  intros H. unfold serialized.
  rewrite parsePath_trim, (parsePath_app _ _ (closure_at_letter a)), length_app.
  destruct (lettered_segments pathData H) as [_ Hl]. lia.
Qed.

Lemma parsePath_lettered (d : string) : Forall lettered (parsePath d).
Proof.
  eapply Forall_impl; [|apply parsePath_well_formed].
  intros o (c & Hc & Ho & _). exists c. auto.
Qed.

Lemma move_point_lettered (o : commandObject) (u : updateData) :
  lettered o -> lettered (move_point o u).
Proof.
  intros (c & Hc & Ho). exists c. split; [exact Hc|].
  pose proof (move_point_frame o u) as Hm.
  unfold moved_fields in Hm.
  destruct (String.eqb (upd_pointType u) "C1");
    [|destruct (String.eqb (upd_pointType u) "C2")];
    destruct Hm as (Hm & _); rewrite Hm; try exact Ho; discriminate.
Qed.

Lemma replace_at_Forall {A : Type} (P : A -> Prop) (l : list A) (i : nat) (a : A) :
  Forall P l -> P a -> Forall P (replace_at l i a).
Proof.
  intros Hl Ha. revert i. induction Hl as [|b l Hb Hl IH]; intros i.
  - destruct i; constructor.
  - destruct i; simpl; constructor; auto.
Qed.

Lemma setAttribute_d_same (doc : document) (node : nat) (s : string) (elem : element) :
  nth_error doc node = Some elem ->
  nth_error (setAttribute_d doc node s) node
  = Some {| elem_id := elem_id elem; attr_d := Some s |}.
Proof.
  revert node. induction doc as [|e doc IH]; intros [|n] H; simpl in *;
    try discriminate.
  - inversion H. reflexivity.
  - apply IH. exact H.
Qed.

Lemma setAttribute_d_other (doc : document) (node j : nat) (s : string) :
  j <> node -> nth_error (setAttribute_d doc node s) j = nth_error doc j.
Proof.
  revert node j. induction doc as [|e doc IH]; intros [|n] [|j] H; simpl;
    try reflexivity; try congruence.
  apply IH. congruence.
Qed.

Lemma setAttribute_d_found (doc : document) (node : nat) (s id : string) :
  getElementById doc id <> None ->
  getElementById (setAttribute_d doc node s) id <> None.
Proof.
  revert node. induction doc as [|e doc IH]; intros node H; [exact H|].
  destruct node as [|n]; simpl in *.
  - destruct (negb (is_empty id) && String.eqb (elem_id e) id); [discriminate|exact H].
  - destruct (negb (is_empty id) && String.eqb (elem_id e) id); [discriminate|].
    apply IH. exact H.
Qed.

Lemma updatePath_step (ed : editor) (doc doc' : document) (ed' : editor)
  (u : updateData) :
  updatePath ed doc u = Ok (doc', ed') ->
  pathElem ed' = pathElem ed
  /\ exists elem s,
       nth_error doc (pathElem ed) = Some elem
       /\ nth_error doc' (pathElem ed) = Some {| elem_id := elem_id elem; attr_d := Some s |}
       /\ List.length (parsePath (attribute_string (attr_d elem)))
          <= List.length (parsePath s)
       /\ (0 <= upd_index u < Z.of_nat (List.length (parsePath (attribute_string (attr_d elem)))))%Z
       /\ getElementById doc' (elem_id elem) <> None
       /\ forall j, j <> pathElem ed -> nth_error doc' j = nth_error doc j.
Proof.
  unfold updatePath. destruct (nth_error doc (pathElem ed)) as [elem|] eqn:He;
    [|discriminate].
  destruct (at_index _ (upd_index u)) as [obj|] eqn:Ha; [|discriminate].
  destruct (getElementById doc (elem_id elem)) as [found|] eqn:Hg.
  - rewrite (generatePath_serialized _ _ _ _ Hg). intros H. inversion H; subst.
    split; [reflexivity|]. eexists elem, _.
    split; [reflexivity|]. split; [apply setAttribute_d_same; exact He|].
    split; [|split; [|split]].
    + etransitivity; [|apply serialized_length].
      * rewrite replace_at_length. lia.
      * apply replace_at_Forall; [apply parsePath_lettered|].
        apply move_point_lettered.
        pose proof (parsePath_lettered (attribute_string (attr_d elem))) as Hl.
        rewrite Forall_forall in Hl. apply Hl.
        unfold at_index in Ha. destruct (upd_index u <? 0)%Z; [discriminate|].
        eapply nth_error_In. exact Ha.
    + assert (Hn : at_index (parsePath (attribute_string (attr_d elem))) (upd_index u)
                   <> None) by congruence.
      rewrite at_index_none in Hn. lia.
    + apply setAttribute_d_found. congruence.
    + intros j Hj. apply setAttribute_d_other. exact Hj.
  - unfold generatePath. rewrite Hg. discriminate.
Qed.

(** X8. [updatePath] never shortens the path and touches no other
    element: after a successful update the [d] attribute of the path
    element parses into at least as many commands as before, so the index
    of the update is still the index of a command, the element keeps its
    [id], and every other element of the document is as it was. *)
Theorem updatePath_keeps_indices (ed : editor) (doc doc' : document) (ed' : editor)
  (u : updateData) :
  updatePath ed doc u = Ok (doc', ed') ->
  pathElem ed' = pathElem ed
  /\ (exists elem elem',
        nth_error doc (pathElem ed) = Some elem
        /\ nth_error doc' (pathElem ed) = Some elem'
        /\ elem_id elem' = elem_id elem
        /\ List.length (parsePath (attribute_string (attr_d elem)))
           <= List.length (parsePath (attribute_string (attr_d elem')))
        /\ (0 <= upd_index u
            < Z.of_nat (List.length (parsePath (attribute_string (attr_d elem')))))%Z)
  /\ (forall j, j <> pathElem ed -> nth_error doc' j = nth_error doc j).
Proof.
  intros H. apply updatePath_step in H.
  destruct H as (Hp & elem & s & He & He' & Hl & Hi & _ & Hj).
  split; [exact Hp|]. split; [|exact Hj].
  eexists elem, _. split; [exact He|]. split; [exact He'|]. simpl.
  split; [reflexivity|]. split; [exact Hl|lia].
Qed.

Lemma updatePath_keeps_indices_witness :
  let doc := [ {| elem_id := "p"; attr_d := Some "M 10,10 L 20,20" |} ] in
  let ed := {| pathElem := 0; markers := [] |} in
  let u := {| upd_x := VNum (Number "5"); upd_y := VNum (Number "5");
              upd_index := 0; upd_pointType := "endpoint" |} in
  let doc' := [ {| elem_id := "p"; attr_d := Some "M 5,5 L 20,20" |} ] in
  let ed' := {| pathElem := 0;
                markers :=
                  [ {| cx := "5"; cy := "5"; fill := "#f44336";
                       data_index := 0; data_point_type := None |};
                    {| cx := "20"; cy := "20"; fill := "#f44336";
                       data_index := 1; data_point_type := None |} ] |} in
  pathElem ed' = pathElem ed
  /\ (exists elem elem',
        nth_error doc (pathElem ed) = Some elem
        /\ nth_error doc' (pathElem ed) = Some elem'
        /\ elem_id elem' = elem_id elem
        /\ List.length (parsePath (attribute_string (attr_d elem)))
           <= List.length (parsePath (attribute_string (attr_d elem')))
        /\ (0 <= upd_index u
            < Z.of_nat (List.length (parsePath (attribute_string (attr_d elem')))))%Z)
  /\ (forall j, j <> pathElem ed -> nth_error doc' j = nth_error doc j).
Proof.
  intros doc ed u doc' ed'.
  apply (updatePath_keeps_indices ed doc doc' ed' u). vm_compute. reflexivity.
Defined.

(** ** The drag handlers *)

Lemma drawMarkers_index (parsedPathData : list commandObject) (m : marker) :
  In m (drawMarkers parsedPathData) -> data_index m < List.length parsedPathData.
Proof.
  unfold drawMarkers. intros H. apply markers_from_In in H.
  destruct H as (j & o & Hn & H).
  assert (Hj : j < List.length parsedPathData).
  { apply nth_error_Some. congruence. }
  destruct H as [H|[H|H]]; apply marker_at_In in H; destruct H as (_ & _ & ->);
    exact Hj.
Qed.

Lemma drag_moves_ok (m : marker) (moves : list (pointer * screenCTM)) :
  Forall convertible moves ->
  forall (ed : editor) (doc : document) (elem : element),
  nth_error doc (pathElem ed) = Some elem ->
  data_index m < List.length (parsePath (attribute_string (attr_d elem))) ->
  getElementById doc (elem_id elem) <> None ->
  exists doc' ed',
    drag_moves true {| isDragging := true; activeMarker := Some m |} ed doc moves
    = Ok (doc', ed').
Proof.
  induction 1 as [|[e ctm] moves [Ht [toDrawing Hc]] Hmoves IH];
    intros ed doc elem He Hi Hg; simpl.
  - eauto.
  - simpl in Ht, Hc. subst ctm.
    unfold handleMove. cbn [isDragging activeMarker].
    assert (Hcl : exists cX cY, client e = Ok (cX, cY)).
    { unfold client. destruct (touch e); [|eauto].
      destruct (touches e) as [|[cX cY] ts]; [contradiction Ht; reflexivity|eauto]. }
    destruct Hcl as (cX & cY & ->).
    destruct (toDrawing cX cY) as [x y].
    destruct (getElementById doc (elem_id elem)) as [found|] eqn:Hf; [|congruence].
    destruct (nth_error (parsePath (attribute_string (attr_d elem))) (data_index m))
      as [obj|] eqn:Hn; [|apply nth_error_None in Hn; lia].
    destruct (updatePath ed doc
                {| upd_x := VNum x; upd_y := VNum y;
                   upd_index := Z.of_nat (data_index m);
                   upd_pointType := pointType_of m |}) as [[doc1 ed1]|err] eqn:Hu.
    + pose proof (updatePath_step _ _ _ _ _ Hu) as (Hp & elem0 & s & He0 & He1 & Hl & _ & Hg1 & _).
      rewrite He in He0. inversion He0; subst elem0.
      rewrite <- Hp in He1.
      eapply (IH ed1 doc1 _ He1); simpl; [lia|exact Hg1].
    + pose proof (updatePath_success ed doc
                    {| upd_x := VNum x; upd_y := VNum y;
                       upd_index := Z.of_nat (data_index m);
                       upd_pointType := pointType_of m |}
                    elem found (data_index m) obj He Hf eq_refl Hn) as Hs.
      rewrite Hs in Hu. discriminate.
Qed.

(** X9. A drag raises no error when the page can convert the pointer:
    [init] has drawn the markers of a path that has an [svg] ancestor and
    whose [id] finds an element of the document, one of these markers is
    pressed, and at every move a touch event carries a touch and the
    screen matrix of the [svg] element exists and has an inverse.  Then
    every [handleMove] succeeds, however many moves there are and wherever
    they go.  For a path without [svg] ancestor the first move of a drag
    raises a [TypeError]. *)
Theorem drag_never_throws (doc : document) (node : nat) (elem : element)
  (ed : editor) (st : dragState) (m : marker) (moves : list (pointer * screenCTM)) :
  nth_error doc node = Some elem ->
  getElementById doc (elem_id elem) <> None ->
  init doc node = Ok (ed, st) ->
  In m (markers ed) ->
  Forall convertible moves ->
  (exists doc' ed',
     drag_moves true (handleStart st (Some m)) ed doc moves = Ok (doc', ed'))
  /\ (forall move moves',
        drag_moves false (handleStart st (Some m)) ed doc (move :: moves')
        = Throw TypeError).
Proof.
  intros He Hg Hi Hm Hmoves. unfold init in Hi. rewrite He in Hi.
  inversion Hi; subst ed st. simpl in Hm.
  apply drawMarkers_index in Hm. split.
  - simpl handleStart. eapply drag_moves_ok; simpl; eauto.
  - intros [e ctm] moves'. simpl. unfold handleMove, client.
    cbn [isDragging activeMarker].
    destruct (touch e); [destruct (touches e) as [|[cX cY] ts]|]; reflexivity.
Qed.

Lemma drag_never_throws_witness :
  let elem := {| elem_id := "p"; attr_d := Some "M 0,0 C 1,1 2,2 3,3 Z" |} in
  let ed := {| pathElem := 0;
               markers := drawMarkers (parsePath "M 0,0 C 1,1 2,2 3,3 Z") |} in
  let m := {| cx := "1"; cy := "1"; fill := "#4caf50";
              data_index := 1; data_point_type := Some "C1" |} in
  let moves :=
    [ ({| touch := false; touches := [];
          clientX := Number "40"; clientY := Number "50" |},
       Inverse (fun x y => (x, y)));
      ({| touch := true; touches := [(Number "6", Number "7")];
          clientX := NaN; clientY := NaN |},
       Inverse (fun x y => (y, NaN))) ] in
  (exists doc' ed',
     drag_moves true (handleStart idle (Some m)) ed [elem] moves = Ok (doc', ed'))
  /\ (forall move moves',
        drag_moves false (handleStart idle (Some m)) ed [elem] (move :: moves')
        = Throw TypeError).
Proof.
  intros elem ed m moves.
  apply (drag_never_throws [elem] 0 elem ed idle m moves).
  - reflexivity.
  - simpl. discriminate.
  - reflexivity.
  - vm_compute. right. right. left. reflexivity.
  - repeat constructor; simpl; try discriminate; eexists; reflexivity.
Defined.

Lemma dispatch_quiet (events : list event) :
  forallb presses_nothing events = true ->
  forall s, isDragging (drag s) = false ->
  the_document (fold_left dispatch events s) = the_document s
  /\ the_editor (fold_left dispatch events s) = the_editor s.
Proof.
  induction events as [|e events IH]; intros Hq s Hs; [split; reflexivity|].
  simpl in Hq. apply andb_true_iff in Hq. destruct Hq as [He Hq].
  simpl fold_left.
  assert (Hstep : isDragging (drag (dispatch s e)) = false
                  /\ the_document (dispatch s e) = the_document s
                  /\ the_editor (dispatch s e) = the_editor s).
  { destruct e as [[t|]|e ctm|]; simpl in *; try discriminate; auto.
    unfold handleMove. rewrite Hs. simpl. auto. }
  destruct Hstep as (H1 & H2 & H3).
  destruct (IH Hq (dispatch s e) H1) as [H4 H5].
  split; congruence.
Qed.

(** X10. The path changes only while a marker is held: from a session at
    rest, as [init] leaves it, and from any session once the pointer is
    released, events that press no marker (moves, releases, presses beside
    the markers) leave the document and the markers as they are. *)
Theorem no_press_no_change (s : session) (events : list event) :
  forallb presses_nothing events = true ->
  (isDragging (drag s) = false ->
   the_document (fold_left dispatch events s) = the_document s
   /\ the_editor (fold_left dispatch events s) = the_editor s)
  /\ the_document (fold_left dispatch (PointerUp :: events) s) = the_document s
  /\ the_editor (fold_left dispatch (PointerUp :: events) s) = the_editor s.
Proof.
  intros Hq. split; [apply dispatch_quiet; exact Hq|].
  change (fold_left dispatch (PointerUp :: events) s)
    with (fold_left dispatch events (dispatch s PointerUp)).
  destruct (dispatch_quiet events Hq (dispatch s PointerUp) eq_refl) as [H1 H2].
  split; [rewrite H1|rewrite H2]; reflexivity.
Qed.

Lemma no_press_no_change_witness :
  let m := {| cx := "0"; cy := "0"; fill := "#f44336";
              data_index := 0; data_point_type := None |} in
  let s := {| drag := {| isDragging := true; activeMarker := Some m |};
              the_editor := {| pathElem := 0; markers := [m] |};
              the_document := [ {| elem_id := "p"; attr_d := Some "M 0,0" |} ];
              the_svg := true |} in
  let e := {| touch := false; touches := [];
              clientX := Number "3"; clientY := Number "4" |} in
  let events := [PointerMove e (Inverse (fun x y => (x, y))); PointerDown None;
                 PointerMove e NoMatrix] in
  (isDragging (drag s) = false ->
   the_document (fold_left dispatch events s) = the_document s
   /\ the_editor (fold_left dispatch events s) = the_editor s)
  /\ the_document (fold_left dispatch (PointerUp :: events) s) = the_document s
  /\ the_editor (fold_left dispatch (PointerUp :: events) s) = the_editor s.
Proof.
  intros m s e events. apply (no_press_no_change s events). reflexivity.
Defined.

(** ** getPathData and applyPathData *)

Lemma applyPathData_success (ed : editor) (doc : document)
  (newPathData : list commandObject) (elem found : element) :
  nth_error doc (pathElem ed) = Some elem ->
  getElementById doc (elem_id elem) = Some found ->
  applyPathData ed doc newPathData
  = Ok (setAttribute_d doc (pathElem ed) (serialized newPathData (attr_d found)),
        {| pathElem := pathElem ed; markers := drawMarkers newPathData |})
  /\ getPathData {| pathElem := pathElem ed; markers := drawMarkers newPathData |}
       (setAttribute_d doc (pathElem ed) (serialized newPathData (attr_d found)))
     = Ok (parsePath (flatten (map segment newPathData) ++ closure (attr_d found))).
Proof.
  intros He Hg. unfold applyPathData, getPathData. rewrite He.
  rewrite (generatePath_serialized _ _ _ _ Hg). split; [reflexivity|].
  simpl pathElem. rewrite (setAttribute_d_same _ _ _ _ He). simpl.
  unfold serialized. rewrite parsePath_trim. reflexivity.
Qed.

(** X11. [applyPathData] puts a saved path back: for path data as
    [parsePath] makes them, with every coordinate a number in plain
    notation, applied to a path whose found attribute does not end with
    [Z], a following [getPathData] returns the same commands with the same
    fields and numerically equal values; the markers are those of the data
    and no other element of the document changes. *)
Theorem applyPathData_then_getPathData (ed : editor) (doc : document)
  (newPathData : list commandObject) (elem found : element) :
  nth_error doc (pathElem ed) = Some elem ->
  getElementById doc (elem_id elem) = Some found ->
  ends_closed (attr_d found) = false ->
  Forall (fun o => exists c, well_formed o c) newPathData ->
  forallb printable newPathData = true ->
  exists doc' ed' pathData',
    applyPathData ed doc newPathData = Ok (doc', ed')
    /\ getPathData ed' doc' = Ok pathData'
    /\ Forall2 same_command newPathData pathData'
    /\ markers ed' = drawMarkers newPathData
    /\ forall j, j <> pathElem ed -> nth_error doc' j = nth_error doc j.
Proof.
  intros He Hg Hc Hwf Hp.
  destruct (applyPathData_success ed doc newPathData elem found He Hg) as [Ha Hget].
  eexists _, _, _. split; [exact Ha|]. split; [exact Hget|].
  split; [|split; [reflexivity|]].
  - rewrite ends_closed_closure, Hc, append_empty_r.
    apply segments_parse; assumption.
  - intros j Hj. apply setAttribute_d_other. exact Hj.
Qed.

Lemma applyPathData_then_getPathData_witness :
  let elem := {| elem_id := "p"; attr_d := Some "M 0,0 L 9,9" |} in
  let ed := {| pathElem := 0; markers := [] |} in
  let newPathData := parsePath "M 10,10 C 1.5,-1 2,2 3,0.25 z" in
  exists doc' ed' pathData',
    applyPathData ed [elem] newPathData = Ok (doc', ed')
    /\ getPathData ed' doc' = Ok pathData'
    /\ Forall2 same_command newPathData pathData'
    /\ markers ed' = drawMarkers newPathData
    /\ forall j, j <> pathElem ed -> nth_error doc' j = nth_error [elem] j.
Proof.
  intros elem ed newPathData.
  apply (applyPathData_then_getPathData ed [elem] newPathData elem elem).
  - reflexivity.
  - reflexivity.
  - reflexivity.
  - vm_compute. repeat (constructor; [eexists; repeat split; reflexivity|]). constructor.
  - vm_compute. reflexivity.
Defined.

Lemma same_command_close : same_command close_command close_command.
Proof.
  repeat split. intros k Hk. unfold field, close_command. cbn [own].
  destruct (String.eqb "command" k) eqn:E; [|exact eq_refl].
  apply String.eqb_eq in E. congruence.
Qed.

(** X12. On a path whose attribute ends with [Z] every [applyPathData]
    adds a closing command: for path data as [parsePath] makes them, with
    every coordinate a number in plain notation, a following [getPathData]
    returns the commands of the data followed by one more [Z] command,
    whether or not the data end with one themselves. *)
Theorem applyPathData_closed_gains_Z (ed : editor) (doc : document)
  (newPathData : list commandObject) (elem found : element) :
  nth_error doc (pathElem ed) = Some elem ->
  getElementById doc (elem_id elem) = Some found ->
  ends_closed (attr_d found) = true ->
  Forall (fun o => exists c, well_formed o c) newPathData ->
  forallb printable newPathData = true ->
  exists doc' ed' pathData',
    applyPathData ed doc newPathData = Ok (doc', ed')
    /\ getPathData ed' doc' = Ok pathData'
    /\ Forall2 same_command (newPathData ++ [close_command])%list pathData'
    /\ List.length pathData' = S (List.length newPathData).
Proof.
  intros He Hg Hc Hwf Hp.
  destruct (applyPathData_success ed doc newPathData elem found He Hg) as [Ha Hget].
  eexists _, _, _. split; [exact Ha|]. split; [exact Hget|].
  rewrite ends_closed_closure, Hc. rewrite parsePath_app by reflexivity.
  assert (HF : Forall2 same_command (newPathData ++ [close_command])%list
                 (parsePath (flatten (map segment newPathData)) ++ parsePath "Z")%list).
  { apply Forall2_app; [apply segments_parse; assumption|].
    constructor; [exact same_command_close|constructor]. }
  split; [exact HF|].
  apply Forall2_length in HF. rewrite <- HF, length_app. simpl. lia.
Qed.

Lemma applyPathData_closed_gains_Z_witness :
  let elem := {| elem_id := "p"; attr_d := Some "M 0,0 L 9,9 Z" |} in
  let ed := {| pathElem := 0; markers := [] |} in
  let newPathData := parsePath "M 0,0 L 9,9 Z" in
  exists doc' ed' pathData',
    applyPathData ed [elem] newPathData = Ok (doc', ed')
    /\ getPathData ed' doc' = Ok pathData'
    /\ Forall2 same_command (newPathData ++ [close_command])%list pathData'
    /\ List.length pathData' = S (List.length newPathData).
Proof.
  intros elem ed newPathData.
  apply (applyPathData_closed_gains_Z ed [elem] newPathData elem elem).
  - reflexivity.
  - reflexivity.
  - reflexivity.
  - vm_compute. repeat (constructor; [eexists; repeat split; reflexivity|]). constructor.
  - vm_compute. reflexivity.
Defined.

(** ** The text of generatePath is a fixed point *)

Lemma plain_num_eqb (x y : number) :
  plain x = true -> num_eqb x y = true -> number_to_string y = number_to_string x.
Proof.
  destruct x as [s0 | s0 | | neg m e]; cbn [plain]; try discriminate; intros _.
  - unfold num_eqb, SFeqb, SFcompare.
    destruct y as [s1 | s1 | | s1 m1 e1]; try discriminate; try reflexivity.
    + destruct s1; discriminate.
    + destruct s1; discriminate.
  - intros H. replace y with (S754_finite neg m e); [reflexivity|].
    revert H. unfold num_eqb, SFeqb, SFcompare.
    destruct y as [s1 | s1 | | s1 m1 e1]; try discriminate.
    + destruct neg; discriminate.
    + destruct neg, s1; discriminate.
    + destruct neg, s1; try discriminate;
        destruct (Z.compare e e1) eqn:Ec; try discriminate;
        destruct (Pos.compare_cont Eq m m1) eqn:Em; try discriminate;
        intros _; apply Z.compare_eq in Ec; apply Pos.compare_eq in Em;
        now subst.
Qed.

Lemma same_command_segment (o o' : commandObject) (c : ascii) :
  well_formed o c -> printable o = true -> same_command o o' ->
  segment o' = segment o.
Proof.
  intros (Hc & Ho & Hn) Hp (_ & Hcmd & Hf).
  assert (Hfc : field o "command" = VStr (String c "")).
  { unfold field. rewrite Ho. reflexivity. }
  unfold segment, letter_of. rewrite <- Hcmd, Hfc.
  f_equal. f_equal. unfold fields_text. f_equal.
  apply map_ext_in. intros k Hk.
  assert (Hne : k <> "command").
  { intros ->. exact (schema_not_command c Hk). }
  destruct (printable_field o k Hp) as (x & Hx & Hpl); [rewrite Hn; right; exact Hk|exact Hne|].
  specialize (Hf k Hne). rewrite Hx in Hf |- *. unfold same_value in Hf.
  destruct (field o' k) as [| | |y|] eqn:Hy; try discriminate.
  simpl. apply plain_num_eqb; assumption.
Qed.

Lemma same_commands_segments (pathData pathData' : list commandObject) :
  Forall (fun o => exists c, well_formed o c) pathData ->
  forallb printable pathData = true ->
  Forall2 same_command pathData pathData' ->
  map segment pathData' = map segment pathData.
Proof.
  intros Hwf Hp H. induction H as [|o o' pd pd' Ho Hpd IH]; [reflexivity|].
  inversion Hwf as [|? ? (c & Hc) Hwf']; subst.
  simpl in Hp. apply andb_true_iff in Hp. destruct Hp as [Hp1 Hp2].
  simpl. rewrite (same_command_segment o o' c Hc Hp1 Ho), (IH Hwf' Hp2).
  reflexivity.
Qed.

(** X13. The text [generatePath] writes is a fixed point: when the
    commands of [d] have all their coordinates in plain notation and [out]
    is the text written for them, parsing [out] and generating again gives
    [out] itself, character for character.  Both times the attribute of
    the element found does not end with [Z]; the second time it can be
    [out], as it is after [applyPathData] or [updatePath]. *)
Theorem generatePath_fixed_point (d out : string) (doc doc' : document)
  (pathId pathId' : string) (elem elem' : element) :
  getElementById doc pathId = Some elem ->
  ends_closed (attr_d elem) = false ->
  forallb printable (parsePath d) = true ->
  generatePath doc (parsePath d) pathId = Ok out ->
  getElementById doc' pathId' = Some elem' ->
  ends_closed (attr_d elem') = false ->
  generatePath doc' (parsePath out) pathId' = Ok out.
Proof.
  intros Hg Hc Hp H Hg' Hc'. revert H.
  rewrite (generatePath_serialized _ _ _ _ Hg), (generatePath_serialized _ _ _ _ Hg').
  unfold serialized. rewrite !ends_closed_closure, Hc, Hc', !append_empty_r.
  intros H. inversion H as [Hout]. rewrite Hout. f_equal. rewrite <- Hout at 2.
  f_equal. rewrite <- Hout, parsePath_trim. f_equal.
  apply same_commands_segments; [apply parsePath_well_formed|exact Hp|].
  apply segments_parse; [apply parsePath_well_formed|exact Hp].
Qed.

Lemma generatePath_fixed_point_witness :
  let d := "M10 10C 1.50,-1,2 2 3,.25,l -3 , 0.5z" in
  let out := "M 10,10 C 1.5,-1 2,2 3,0.25 l -3,0.5 z" in
  let doc := [ {| elem_id := "p"; attr_d := Some d |} ] in
  let doc' := [ {| elem_id := "p"; attr_d := Some out |} ] in
  generatePath doc' (parsePath out) "p" = Ok out.
Proof.
  intros d out doc doc'.
  apply (generatePath_fixed_point d out doc doc' "p" "p"
           {| elem_id := "p"; attr_d := Some d |}
           {| elem_id := "p"; attr_d := Some out |});
    vm_compute; reflexivity.
Defined.

(** ** updatePath: what the path reads back *)

Lemma put_known_names (o : commandObject) (k : string) (v : value) :
  In k (names o) -> names (put o k v) = names o.
Proof.
  intros H. rewrite names_put. unfold add_name.
  apply mem_In in H. rewrite H. reflexivity.
Qed.

Lemma printable_put (o : commandObject) (k : string) (v : value) :
  printable o = true -> plain_value v = true -> printable (put o k v) = true.
Proof.
  unfold printable. intros Ho Hv. induction o as [|[k' v'] o IH]; simpl in *.
  - rewrite Hv. now rewrite orb_true_r.
  - apply andb_true_iff in Ho. destruct Ho as [H1 H2].
    destruct (String.eqb k' k); simpl.
    + rewrite H2, Hv. now rewrite orb_true_r.
    + rewrite H1. exact (IH H2).
Qed.

Lemma move_point_well_formed (o : commandObject) (c : ascii) (u : updateData) :
  well_formed o c ->
  In (fst (moved_fields (upd_pointType u))) (names o) ->
  In (snd (moved_fields (upd_pointType u))) (names o) ->
  well_formed (move_point o u) c.
Proof.
  intros (Hc & Ho & Hn) Hx Hy. split; [exact Hc|].
  pose proof (move_point_frame o u) as Hm.
  unfold move_point. unfold moved_fields in *.
  destruct (String.eqb (upd_pointType u) "C1");
    [|destruct (String.eqb (upd_pointType u) "C2")];
    destruct Hm as (Hm & _); simpl in Hx, Hy;
    (split; [rewrite !own_put_other by discriminate; exact Ho|]);
    rewrite !put_known_names; auto; rewrite put_known_names; auto.
Qed.

Lemma move_point_printable (o : commandObject) (u : updateData) :
  printable o = true -> plain_value (upd_x u) = true -> plain_value (upd_y u) = true ->
  printable (move_point o u) = true.
Proof.
  intros Ho Hx Hy. unfold move_point.
  destruct (String.eqb (upd_pointType u) "C1");
    [|destruct (String.eqb (upd_pointType u) "C2")];
    repeat apply printable_put; assumption.
Qed.

Lemma replace_at_forallb {A : Type} (f : A -> bool) (l : list A) (i : nat) (a : A) :
  forallb f l = true -> f a = true -> forallb f (replace_at l i a) = true.
Proof.
  rewrite !forallb_forall, <- !Forall_forall. intros Hl Ha.
  apply replace_at_Forall; assumption.
Qed.

Lemma Forall2_nth_l {A B : Type} (R : A -> B -> Prop) (l : list A) (l' : list B)
  (i : nat) (a : A) :
  Forall2 R l l' -> nth_error l i = Some a ->
  exists b, nth_error l' i = Some b /\ R a b.
Proof.
  intros H. revert i. induction H as [|x y l l' Hxy H IH]; intros [|i] Hi;
    simpl in *; try discriminate.
  - inversion Hi; subst. eauto.
  - apply IH. exact Hi.
Qed.

(** X14. A drag is kept by the path: after an [updatePath] that moves a
    point the command has (both fields of the point type are fields of the
    command) to coordinates in plain notation, on a path with all
    coordinates in plain notation whose found attribute does not end with
    [Z], [getPathData] returns the commands of before with the two fields
    of that one point replaced: the same commands, the same fields, and
    numerically equal values. *)
Theorem updatePath_then_getPathData (ed : editor) (doc : document) (u : updateData)
  (elem found : element) (i : nat) (obj : commandObject) :
  nth_error doc (pathElem ed) = Some elem ->
  getElementById doc (elem_id elem) = Some found ->
  ends_closed (attr_d found) = false ->
  upd_index u = Z.of_nat i ->
  let pathData := parsePath (attribute_string (attr_d elem)) in
  nth_error pathData i = Some obj ->
  forallb printable pathData = true ->
  plain_value (upd_x u) = true -> plain_value (upd_y u) = true ->
  In (fst (moved_fields (upd_pointType u))) (names obj) ->
  In (snd (moved_fields (upd_pointType u))) (names obj) ->
  exists doc' ed' pathData' obj',
    updatePath ed doc u = Ok (doc', ed')
    /\ getPathData ed' doc' = Ok pathData'
    /\ Forall2 same_command (replace_at pathData i (move_point obj u)) pathData'
    /\ nth_error pathData' i = Some obj'
    /\ same_value (upd_x u) (field obj' (fst (moved_fields (upd_pointType u))))
    /\ same_value (upd_y u) (field obj' (snd (moved_fields (upd_pointType u)))).
Proof.
  intros He Hg Hc Hi pathData Hn Hp Hx Hy Hkx Hky.
  rewrite (updatePath_success ed doc u elem found i obj He Hg Hi Hn). cbv zeta.
  fold pathData. set (pathData1 := replace_at pathData i (move_point obj u)).
  pose proof (parsePath_well_formed (attribute_string (attr_d elem))) as Hwf.
  fold pathData in Hwf.
  assert (Hobj : exists c, well_formed obj c).
  { rewrite Forall_forall in Hwf. apply Hwf. eapply nth_error_In. exact Hn. }
  assert (Hpo : printable obj = true).
  { rewrite forallb_forall in Hp. apply Hp. eapply nth_error_In. exact Hn. }
  assert (Hwf1 : Forall (fun o => exists c, well_formed o c) pathData1).
  { apply replace_at_Forall; [exact Hwf|]. destruct Hobj as (c & Hc0).
    exists c. apply move_point_well_formed; assumption. }
  assert (Hp1 : forallb printable pathData1 = true).
  { apply replace_at_forallb; [exact Hp|]. apply move_point_printable; assumption. }
  assert (HF : Forall2 same_command pathData1
                 (parsePath (serialized pathData1 (attr_d found)))).
  { unfold serialized. rewrite parsePath_trim, ends_closed_closure, Hc, append_empty_r.
    apply segments_parse; assumption. }
  assert (Hn1 : nth_error pathData1 i = Some (move_point obj u)).
  { eapply replace_at_same. exact Hn. }
  destruct (Forall2_nth_l same_command _ _ i _ HF Hn1) as (obj' & Hn' & Hsame).
  eexists _, _, _, obj'. split; [reflexivity|].
  split; [unfold getPathData; simpl pathElem;
          rewrite (setAttribute_d_same _ _ _ _ He); reflexivity|].
  split; [exact HF|]. split; [exact Hn'|].
  destruct Hsame as (_ & _ & Hf).
  pose proof (move_point_frame obj u) as Hm.
  destruct (moved_fields (upd_pointType u)) as [kx ky] eqn:Ek.
  destruct Hm as (_ & Hfx & Hfy). simpl fst in *. simpl snd in *.
  rewrite <- Hfx at 1. rewrite <- Hfy at 1.
  unfold moved_fields in Ek.
  destruct (String.eqb (upd_pointType u) "C1");
    [|destruct (String.eqb (upd_pointType u) "C2")];
    inversion Ek; subst kx ky; split; apply Hf; discriminate.
Qed.

Lemma updatePath_then_getPathData_witness :
  let elem := {| elem_id := "p"; attr_d := Some "M 0,0 C 1,1 2,2 3,3 z" |} in
  let ed := {| pathElem := 0; markers := [] |} in
  let u := {| upd_x := VNum (Number "7.5"); upd_y := VNum (Number "-8");
              upd_index := 1; upd_pointType := "C2" |} in
  let obj := [("command", VStr "C");
              ("x1", VNum (Number "1")); ("y1", VNum (Number "1"));
              ("x2", VNum (Number "2")); ("y2", VNum (Number "2"));
              ("x", VNum (Number "3")); ("y", VNum (Number "3"))] in
  let pathData := parsePath "M 0,0 C 1,1 2,2 3,3 z" in
  exists doc' ed' pathData' obj',
    updatePath ed [elem] u = Ok (doc', ed')
    /\ getPathData ed' doc' = Ok pathData'
    /\ Forall2 same_command (replace_at pathData 1 (move_point obj u)) pathData'
    /\ nth_error pathData' 1 = Some obj'
    /\ same_value (upd_x u) (field obj' "x2")
    /\ same_value (upd_y u) (field obj' "y2").
Proof.
  intros elem ed u obj pathData.
  apply (updatePath_then_getPathData ed [elem] u elem elem 1 obj);
    try reflexivity; simpl; tauto.
Defined.

(** ** updatePath: the frame in the rewritten path *)

Lemma moved_fields_paired (o : commandObject) (c : ascii) (pointType : string) :
  well_formed o c ->
  (In (fst (moved_fields pointType)) (names o)
   <-> In (snd (moved_fields pointType)) (names o)).
Proof.
  intros (Hc & _ & Hn). rewrite Hn. unfold moved_fields.
  apply is_command_cases in Hc. simpl in Hc.
  destruct (String.eqb pointType "C1"); [|destruct (String.eqb pointType "C2")];
    repeat (destruct Hc as [<-|Hc]; [simpl; intuition discriminate|]);
    contradiction.
Qed.

Lemma segment_move_point_absent (o : commandObject) (c : ascii) (u : updateData) :
  well_formed o c ->
  ~ In (fst (moved_fields (upd_pointType u))) (names o) ->
  segment (move_point o u) = segment o.
Proof.
  intros Hwf Hx.
  assert (Hy : ~ In (snd (moved_fields (upd_pointType u))) (names o)).
  { intros H. apply Hx. apply (moved_fields_paired o c _ Hwf). exact H. }
  destruct Hwf as (Hc & Ho & Hn).
  pose proof (move_point_frame o u) as Hm.
  destruct (moved_fields (upd_pointType u)) as [kx ky]. simpl in Hx, Hy.
  destruct Hm as (Hm & _).
  assert (Hf : forall k, In k (names o) -> field (move_point o u) k = field o k).
  { intros k Hk. unfold field. rewrite Hm; [reflexivity| |]; congruence. }
  unfold segment, letter_of.
  rewrite (Hf "command") by (rewrite Hn; left; reflexivity).
  unfold field at 2 4. rewrite Ho. do 2 f_equal.
  unfold fields_text. f_equal. apply map_ext_in. intros k Hk.
  rewrite Hf; [reflexivity|]. rewrite Hn. right. exact Hk.
Qed.

Lemma segments_replace_at (pathData : list commandObject) (i : nat)
  (o o' : commandObject) :
  nth_error pathData i = Some o -> segment o' = segment o ->
  map segment (replace_at pathData i o') = map segment pathData.
Proof.
  revert i. induction pathData as [|a pd IH]; intros [|i] Hn Hs; simpl in *;
    try discriminate.
  - inversion Hn; subst. now rewrite Hs.
  - f_equal. apply IH; assumption.
Qed.

Lemma same_command_all_fields (o o' : commandObject) (c : ascii) (k : string) :
  well_formed o c -> same_command o o' -> same_value (field o k) (field o' k).
Proof.
  intros (_ & Ho & _) (_ & Hc & Hf). destruct (string_dec k "command") as [->|Hk].
  - rewrite <- Hc. unfold field. rewrite Ho. exact eq_refl.
  - apply Hf. exact Hk.
Qed.

(** C6, as the code has it.  On a path all of whose coordinates are numbers
    in plain notation and whose found attribute does not end with [Z],
    [updatePath] at the index of a command, with coordinates in plain
    notation, rewrites the attribute so that reading it again gives as many
    commands as before; every other command has the same fields with
    numerically equal values; the command at the index has the same fields,
    those outside the pair of the point type ([x1], [y1] for C1, [x2], [y2]
    for C2, [x], [y] otherwise) numerically unchanged, and the pair holding
    the new coordinates when the command has these fields; a command
    without them is rewritten unchanged.  No other element of the document
    changes. *)
Theorem updatePath_rewrites_one_point (ed : editor) (doc : document) (u : updateData)
  (elem found : element) (i : nat) (obj : commandObject) :
  nth_error doc (pathElem ed) = Some elem ->
  getElementById doc (elem_id elem) = Some found ->
  ends_closed (attr_d found) = false ->
  upd_index u = Z.of_nat i ->
  let pathData := parsePath (attribute_string (attr_d elem)) in
  nth_error pathData i = Some obj ->
  forallb printable pathData = true ->
  plain_value (upd_x u) = true -> plain_value (upd_y u) = true ->
  let kx := fst (moved_fields (upd_pointType u)) in
  let ky := snd (moved_fields (upd_pointType u)) in
  exists doc' ed' pathData' obj',
    updatePath ed doc u = Ok (doc', ed')
    /\ getPathData ed' doc' = Ok pathData'
    /\ (forall j, j <> pathElem ed -> nth_error doc' j = nth_error doc j)
    /\ List.length pathData' = List.length pathData
    /\ (forall j o, j <> i -> nth_error pathData j = Some o ->
          exists o', nth_error pathData' j = Some o' /\ same_command o o')
    /\ nth_error pathData' i = Some obj'
    /\ names obj' = names obj
    /\ (forall k, k <> kx -> k <> ky -> same_value (field obj k) (field obj' k))
    /\ (In kx (names obj) ->
        same_value (upd_x u) (field obj' kx) /\ same_value (upd_y u) (field obj' ky))
    /\ (~ In kx (names obj) -> same_command obj obj').
Proof.
  intros He Hg Hc Hi pathData Hn Hp Hx Hy kx ky.
  rewrite (updatePath_success ed doc u elem found i obj He Hg Hi Hn). cbv zeta.
  fold pathData. set (pathData1 := replace_at pathData i (move_point obj u)).
  pose proof (parsePath_well_formed (attribute_string (attr_d elem))) as Hwf.
  fold pathData in Hwf.
  assert (Hobj : exists c, well_formed obj c).
  { rewrite Forall_forall in Hwf. apply Hwf. eapply nth_error_In. exact Hn. }
  destruct Hobj as (c & Hobj).
  assert (Hpo : printable obj = true).
  { rewrite forallb_forall in Hp. apply Hp. eapply nth_error_In. exact Hn. }
  assert (Hget : getPathData {| pathElem := pathElem ed; markers := drawMarkers pathData1 |}
                   (setAttribute_d doc (pathElem ed) (serialized pathData1 (attr_d found)))
                 = Ok (parsePath (flatten (map segment pathData1)))).
  { unfold getPathData. simpl pathElem. rewrite (setAttribute_d_same _ _ _ _ He).
    simpl. unfold serialized.
    rewrite parsePath_trim, ends_closed_closure, Hc, append_empty_r. reflexivity. }
  assert (Hother : forall j, j <> pathElem ed ->
            nth_error (setAttribute_d doc (pathElem ed)
                         (serialized pathData1 (attr_d found))) j = nth_error doc j).
  { intros j Hj. apply setAttribute_d_other. exact Hj. }
  pose proof (move_point_frame obj u) as Hm.
  fold kx ky in Hm. destruct (moved_fields (upd_pointType u)) as [kx0 ky0] eqn:Ek.
  simpl in kx, ky. subst kx ky. destruct Hm as (Hframe & Hfx & Hfy).
  destruct (in_dec string_dec kx0 (names obj)) as [Hin|Hout].
  - (* the command has the point *)
    assert (Hiny : In ky0 (names obj)).
    { pose proof (moved_fields_paired obj c (upd_pointType u) Hobj) as Hpair.
      rewrite Ek in Hpair. apply Hpair. exact Hin. }
    assert (Hwf1 : Forall (fun o => exists c, well_formed o c) pathData1).
    { apply replace_at_Forall; [exact Hwf|]. exists c.
      apply move_point_well_formed; [exact Hobj| |]; rewrite Ek; assumption. }
    assert (Hp1 : forallb printable pathData1 = true).
    { apply replace_at_forallb; [exact Hp|]. apply move_point_printable; assumption. }
    pose proof (segments_parse pathData1 Hwf1 Hp1) as HF.
    assert (Hn1 : nth_error pathData1 i = Some (move_point obj u)).
    { eapply replace_at_same. exact Hn. }
    destruct (Forall2_nth_l same_command _ _ i _ HF Hn1) as (obj' & Hn' & Hsame).
    destruct (move_point_well_formed obj c u Hobj) as (_ & _ & Hnames1);
      [rewrite Ek; exact Hin|rewrite Ek; exact Hiny|].
    assert (Hwfm : well_formed (move_point obj u) c).
    { apply move_point_well_formed; [exact Hobj| |]; rewrite Ek; assumption. }
    eexists _, _, _, obj'. split; [reflexivity|]. split; [exact Hget|].
    split; [exact Hother|]. split; [|split; [|split; [exact Hn'|split; [|split; [|split]]]]].
    + apply Forall2_length in HF. rewrite <- HF. apply replace_at_length.
    + intros j o Hj Ho. apply (Forall2_nth_l same_command _ _ j o HF).
      unfold pathData1. rewrite replace_at_other by exact Hj. exact Ho.
    + destruct Hsame as (Hnm & _). rewrite <- Hnm.
      destruct Hobj as (_ & _ & Hno). rewrite Hnames1, Hno. reflexivity.
    + intros k Hkx Hky.
      pose proof (same_command_all_fields _ _ c k Hwfm Hsame) as Hk.
      unfold field at 1 in Hk. rewrite (Hframe k Hkx Hky) in Hk. exact Hk.
    + intros _. rewrite <- Hfx, <- Hfy.
      split; apply (same_command_all_fields _ _ c _ Hwfm Hsame).
    + intros H. contradiction.
  - (* the command has no such point: the text is the same *)
    assert (Hseg : map segment pathData1 = map segment pathData).
    { apply (segments_replace_at pathData i obj); [exact Hn|].
      apply (segment_move_point_absent obj c u Hobj). rewrite Ek. exact Hout. }
    rewrite Hseg in Hget.
    pose proof (segments_parse pathData Hwf Hp) as HF.
    destruct (Forall2_nth_l same_command _ _ i _ HF Hn) as (obj' & Hn' & Hsame).
    eexists _, _, _, obj'. split; [reflexivity|]. split; [exact Hget|].
    split; [exact Hother|]. split; [|split; [|split; [exact Hn'|split; [|split; [|split]]]]].
    + apply Forall2_length in HF. symmetry. exact HF.
    + intros j o Hj Ho. apply (Forall2_nth_l same_command _ _ j o HF Ho).
    + destruct Hsame as (Hnm & _). symmetry. exact Hnm.
    + intros k _ _. apply (same_command_all_fields _ _ c k Hobj Hsame).
    + intros H. contradiction.
    + intros _. exact Hsame.
Qed.

Lemma updatePath_rewrites_one_point_witness :
  let elem := {| elem_id := "p"; attr_d := Some "M 10,10 C 1,1 2,2 3,3 L 20,20 z" |} in
  let ed := {| pathElem := 0; markers := [] |} in
  let u := {| upd_x := VNum (Number "7.5"); upd_y := VNum (Number "-8");
              upd_index := 1; upd_pointType := "C1" |} in
  let obj := [("command", VStr "C");
              ("x1", VNum (Number "1")); ("y1", VNum (Number "1"));
              ("x2", VNum (Number "2")); ("y2", VNum (Number "2"));
              ("x", VNum (Number "3")); ("y", VNum (Number "3"))] in
  let pathData := parsePath "M 10,10 C 1,1 2,2 3,3 L 20,20 z" in
  exists doc' ed' pathData' obj',
    updatePath ed [elem] u = Ok (doc', ed')
    /\ getPathData ed' doc' = Ok pathData'
    /\ (forall j, j <> pathElem ed -> nth_error doc' j = nth_error [elem] j)
    /\ List.length pathData' = List.length pathData
    /\ (forall j o, j <> 1 -> nth_error pathData j = Some o ->
          exists o', nth_error pathData' j = Some o' /\ same_command o o')
    /\ nth_error pathData' 1 = Some obj'
    /\ names obj' = names obj
    /\ (forall k, k <> "x1" -> k <> "y1" -> same_value (field obj k) (field obj' k))
    /\ (In "x1" (names obj) ->
        same_value (upd_x u) (field obj' "x1") /\ same_value (upd_y u) (field obj' "y1"))
    /\ (~ In "x1" (names obj) -> same_command obj obj').
Proof.
  intros elem ed u obj pathData.
  apply (updatePath_rewrites_one_point ed [elem] u elem elem 1 obj); reflexivity.
Defined.

(** The untouched command of a path is not always unchanged in the
    rewritten attribute: a coordinate that prints with an exponent is
    written as [1e-7], which reads back as the number 1 and leaves the
    second coordinate of the command undefined. *)
Lemma updatePath_exponent_counterexample :
  let d := "M 0.0000001,5 L 1,1" in
  let doc := [ {| elem_id := "p"; attr_d := Some d |} ] in
  let ed := {| pathElem := 0; markers := [] |} in
  let u := {| upd_x := VNum (Number "2"); upd_y := VNum (Number "3");
              upd_index := 1; upd_pointType := "endpoint" |} in
  (exists ed',
     updatePath ed doc u
     = Ok ([ {| elem_id := "p"; attr_d := Some "M 1e-7,5 L 2,3" |} ], ed'))
  /\ nth_error (parsePath d) 0
     = Some [("command", VStr "M"); ("x", VNum (Number "0.0000001"));
             ("y", VNum (Number "5"))]
  /\ nth_error (parsePath "M 1e-7,5 L 2,3") 0
     = Some [("command", VStr "M"); ("x", VNum (Number "1")); ("y", VUndefined)]
  /\ VNum (Number "5") <> VUndefined
  /\ num_eqb (Number "0.0000001") (Number "1") = false.
Proof.
  intros d doc ed u. split; [eexists; vm_compute; reflexivity|].
  split; [vm_compute; reflexivity|]. split; [vm_compute; reflexivity|].
  split; [discriminate|vm_compute; reflexivity].
Qed.

End EditorFacts.

(* ================================================================== *)
(** * The preset store and its page *)
(* ================================================================== *)

Module StoreFacts.
Import Js PresetManager PresetSpec Spec JsFacts NumberFacts PresetManagerFacts.

Section Store.

Variable foreign : ref -> string -> chain_property.

(** ** Saves and look-ups *)

Lemma own_save_all (saves : list (string * blob)) (name : string) :
  forall m, pristine m ->
  Forall (fun nd => fst nd <> "__proto__") saves ->
  own (props (presets (save_all foreign m saves))) name
  = match last_saved saves name with
    | Some d => Some d
    | None => own (props (presets m)) name
    end.
Proof.
  induction saves as [|[n d] saves IH]; intros m Hm Hs; [reflexivity|].
  inversion Hs as [|? ? Hn Hs']; subst. simpl in Hn.
  change (save_all foreign m ((n, d) :: saves))
    with (save_all foreign (savePreset foreign m n d) saves).
  rewrite (IH _ (savePreset_pristine foreign m n d Hm Hn) Hs'). simpl.
  destruct (last_saved saves name) as [d'|]; [reflexivity|].
  unfold savePreset. simpl presets. rewrite (set_pristine foreign _ _ _ Hm Hn).
  simpl props. destruct (String.eqb n name) eqn:E.
  - apply String.eqb_eq in E. subst. apply own_put_same.
  - apply String.eqb_neq in E. apply own_put_other. congruence.
Qed.

Lemma getPreset_pristine (m : manager) (name : string) :
  pristine m ->
  getPreset foreign m name
  = match own (props (presets m)) name with
    | Some d => or_else d (Prim VNull)
    | None => unsaved name
    end.
Proof.
  intros Hm. unfold getPreset, get. destruct (own (props (presets m)) name); [reflexivity|].
  rewrite Hm. unfold inherited, unsaved.
  destruct (String.eqb name "__proto__"); [reflexivity|].
  destruct (mem name object_prototype_members); reflexivity.
Qed.

(** X15. The last save wins and the other names stay as they are: after
    any sequence of [savePreset] calls on a new manager, none of them under
    [__proto__], [getPreset(name)] returns the data of the last save under
    [name] ([null] when they are falsy).  For a name never saved it returns
    [null], except for the names of the members of [Object.prototype],
    where it returns the inherited member, and for [__proto__], where it
    returns [Object.prototype]. *)
Theorem getPreset_last_save_wins (saves : list (string * blob)) (name : string) :
  Forall (fun nd => fst nd <> "__proto__") saves ->
  getPreset foreign (save_all foreign PresetManagerFactory saves) name
  = match last_saved saves name with
    | Some d => if truthy d then d else Prim VNull
    | None =>
        if String.eqb name "__proto__" then Obj ObjectPrototype
        else if mem name object_prototype_members then Obj (PrototypeMember name)
        else Prim VNull
    end.
Proof.
  intros Hs.
  assert (Hp : pristine PresetManagerFactory) by reflexivity.
  destruct (save_all_names foreign saves PresetManagerFactory Hp Hs) as [Hp' _].
  rewrite (getPreset_pristine _ _ Hp'), (own_save_all saves name _ Hp Hs).
  destruct (last_saved saves name); reflexivity.
Qed.

(** ** The names the save listener makes *)

Lemma decimal_value (s : Z) :
  (0 < s)%Z ->
  digits_value 0 (decimal s) = s
  /\ exists c, last_char (decimal s) = Some c /\ is_digit c = true.
Proof.
  intros Hs.
  pose proof (Z.log2_nonneg s) as Hl.
  set (fuel := Z.to_nat (Z.log2 s)).
  assert (Hfuel : (0 <= s < 10 ^ Z.of_nat (S fuel))%Z).
  { split; [lia |]. unfold fuel. rewrite Nat2Z.inj_succ, Z2Nat.id by lia.
    destruct (Z.log2_spec s Hs) as [_ H2].
    eapply Z.lt_le_trans; [exact H2 |].
    apply Z.pow_le_mono_l. lia. }
  destruct (digits_lsd_spec (S fuel) s Hfuel) as [H1 H2].
  unfold decimal, decimal_digits. fold fuel. split.
  - rewrite rev_digits_value. lia.
  - destruct (digits_lsd (S fuel) s) as [|c l] eqn:E.
    + simpl in E. destruct (s <? 10)%Z; discriminate.
    + exists c. simpl rev. rewrite string_of_list_app. simpl.
      split; [apply last_char_append|].
      simpl in H2. apply andb_true_iff in H2. tauto.
Qed.

Lemma append_inj_l (p a b : string) : p ++ a = p ++ b -> a = b.
Proof. induction p as [|c p IH]; simpl; intros H; [exact H|]. inversion H. auto. Qed.

Lemma last_char_app (p s : string) (c : ascii) :
  last_char s = Some c -> last_char (p ++ s) = Some c.
Proof.
  intros H. destruct (last_char_split s c H) as [q ->].
  rewrite <- append_assoc. apply last_char_append.
Qed.

Lemma auto_name_inj (prefix : string) (i j : nat) :
  auto_name prefix i = auto_name prefix j -> i = j.
Proof.
  unfold auto_name. intros H. apply append_inj_l in H.
  destruct (decimal_value (Z.of_nat (S i))) as [Hi _]; [lia|].
  destruct (decimal_value (Z.of_nat (S j))) as [Hj _]; [lia|].
  rewrite H in Hi. lia.
Qed.

Lemma auto_name_not_proto (prefix : string) (i : nat) :
  auto_name prefix i <> "__proto__".
Proof.
  unfold auto_name. intros E.
  destruct (decimal_value (Z.of_nat (S i))) as [_ (c & Hc & Hd)]; [lia|].
  apply (last_char_app prefix) in Hc. rewrite E in Hc.
  inversion Hc; subst c. discriminate.
Qed.

Lemma auto_saves_names (prefix : string) (datas : list blob) (n : nat) :
  map fst (auto_saves prefix n datas)
  = map (auto_name prefix) (seq n (List.length datas)).
Proof.
  revert n. induction datas as [|d ds IH]; intros n; simpl; [reflexivity|].
  now rewrite IH.
Qed.

Lemma auto_saves_not_proto (prefix : string) (datas : list blob) (n : nat) :
  Forall (fun nd => fst nd <> "__proto__") (auto_saves prefix n datas).
Proof.
  revert n. induction datas as [|d ds IH]; intros n; simpl; constructor.
  - apply auto_name_not_proto.
  - apply IH.
Qed.

Lemma last_saved_auto (prefix : string) (datas : list blob) :
  forall n j,
  last_saved (auto_saves prefix n datas) (auto_name prefix j)
  = if (j <? n)%nat then None else nth_error datas (j - n).
Proof.
  induction datas as [|d ds IH]; intros n j; simpl.
  - destruct (j <? n)%nat; [reflexivity|]. now destruct (j - n).
  - rewrite IH.
    destruct (Nat.ltb_spec j (S n)) as [H1|H1];
      destruct (Nat.ltb_spec j n) as [H2|H2]; try lia.
    + destruct (String.eqb (auto_name prefix n) (auto_name prefix j)) eqn:E;
        [|reflexivity].
      apply String.eqb_eq, auto_name_inj in E. lia.
    + assert (j = n) by lia. subst j. rewrite String.eqb_refl, Nat.sub_diag.
      reflexivity.
    + replace (j - n) with (S (j - S n)) by lia. simpl.
      destruct (nth_error ds (j - S n)); [reflexivity|].
      destruct (String.eqb (auto_name prefix n) (auto_name prefix j)) eqn:E;
        [|reflexivity].
      apply String.eqb_eq, auto_name_inj in E. lia.
Qed.

Lemma add_names_fresh (l acc : list string) :
  NoDup (acc ++ l) -> fold_left add_name l acc = (acc ++ l)%list.
Proof.
  revert acc. induction l as [|a l IH]; intros acc H; simpl.
  - now rewrite app_nil_r.
  - assert (Ha : mem a acc = false).
    { destruct (mem a acc) eqn:E; [|reflexivity].
      apply mem_In in E. apply NoDup_remove_2 in H. contradiction H.
      apply in_or_app. now left. }
    unfold add_name at 2. rewrite Ha.
    rewrite IH; rewrite <- app_assoc; [reflexivity|exact H].
Qed.

Lemma auto_names_NoDup (prefix : string) (n k : nat) :
  NoDup (map (auto_name prefix) (seq n k)).
Proof.
  revert n. induction k as [|k IH]; intros n; simpl; constructor; [|apply IH].
  intros H. apply in_map_iff in H. destruct H as (j & Hj & Hin).
  apply auto_name_inj in Hj. apply in_seq in Hin. lia.
Qed.

Lemma save_all_presets (saves : list (string * blob)) :
  forall m1 m2, presets m1 = presets m2 ->
  presets (save_all foreign m1 saves) = presets (save_all foreign m2 saves).
Proof.
  induction saves as [|[n d] saves IH]; intros m1 m2 H; [exact H|].
  apply IH. unfold savePreset. simpl. now rewrite H.
Qed.

Section Clicks.

Variable App : Type.

Lemma save_clicks_save_all (c : config App) (datas : list blob) :
  forall m n, presetCounter m = N.of_nat n ->
  presets (save_clicks foreign c datas m)
  = presets (save_all foreign m (auto_saves (presetNamePrefix c) n datas))
  /\ presetCounter (save_clicks foreign c datas m) = N.of_nat (n + List.length datas).
Proof.
  induction datas as [|d ds IH]; intros m n Hn.
  - simpl. rewrite Nat.add_0_r. auto.
  - change (save_clicks foreign c (d :: ds) m)
      with (save_clicks foreign c ds (save_step foreign c d m)).
    assert (Hc : presetCounter (save_step foreign c d m) = N.of_nat (S n)).
    { unfold save_step, savePreset. simpl. lia. }
    destruct (IH _ _ Hc) as [H1 H2]. split.
    + rewrite H1. simpl auto_saves.
      change (save_all foreign m ((auto_name (presetNamePrefix c) n, d)
                                   :: auto_saves (presetNamePrefix c) (S n) ds))
        with (save_all foreign (savePreset foreign m (auto_name (presetNamePrefix c) n) d)
                (auto_saves (presetNamePrefix c) (S n) ds)).
      apply save_all_presets. unfold save_step, savePreset, auto_name. simpl.
      rewrite Hn. do 3 f_equal. lia.
    + rewrite H2. f_equal. simpl. lia.
Qed.

(** X16. The names the save listener makes never collide: after any number
    of runs of the save listener on a new manager the counter is the number
    of runs, [getPresetNames()] holds the prefix followed by 1, 2, ... up to
    that number, each once, and [getPreset] under the name of a run returns
    what [getInitialData()] returned at that run ([null] when it was falsy).
    The number of runs is below 2^53. *)
Theorem save_listener_names (c : config App) (datas : list blob) :
  (N.of_nat (List.length datas) < 2 ^ 53)%N ->
  let m := save_clicks foreign c datas PresetManagerFactory in
  let name i := presetNamePrefix c ++ decimal (Z.of_nat (S i)) in
  presetCounter m = N.of_nat (List.length datas)
  /\ Permutation (getPresetNames m) (map name (seq 0 (List.length datas)))
  /\ NoDup (getPresetNames m)
  /\ forall i d, nth_error datas i = Some d ->
       getPreset foreign m (name i) = if truthy d then d else Prim VNull.
Proof.
  intros _ m name.
  destruct (save_clicks_save_all c datas PresetManagerFactory 0 eq_refl) as [Hp Hc].
  fold m in Hp, Hc. change name with (auto_name (presetNamePrefix c)).
  set (saves := auto_saves (presetNamePrefix c) 0 datas) in *.
  assert (Hs : Forall (fun nd => fst nd <> "__proto__") saves)
    by apply auto_saves_not_proto.
  assert (Hf : pristine PresetManagerFactory) by reflexivity.
  destruct (save_all_names foreign saves PresetManagerFactory Hf Hs) as [Hpr Hn].
  assert (Hnames : names (props (presets m))
                   = map (auto_name (presetNamePrefix c)) (seq 0 (List.length datas))).
  { rewrite Hp, Hn. unfold saves. rewrite auto_saves_names. simpl names.
    apply add_names_fresh. apply auto_names_NoDup. }
  split; [exact Hc|]. split; [|split].
  - unfold getPresetNames. rewrite <- Hnames. apply keys_perm.
  - unfold getPresetNames. eapply Permutation_NoDup.
    + symmetry. apply keys_perm.
    + rewrite Hnames. apply auto_names_NoDup.
  - intros i d Hi.
    assert (Hm : pristine m) by (unfold pristine; rewrite Hp; exact Hpr).
    rewrite (getPreset_pristine m _ Hm), Hp.
    rewrite (own_save_all saves _ _ Hf Hs). unfold saves.
    rewrite last_saved_auto. simpl. rewrite Nat.sub_0_r, Hi. reflexivity.
Qed.

End Clicks.

End Store.

Lemma getPreset_last_save_wins_witness :
  getPreset no_foreign
    (save_all no_foreign PresetManagerFactory
       [("a", Obj (UserObject 1)); ("b", Prim (VNum (S754_zero false)));
        ("a", Obj (UserObject 2))]) "a"
  = Obj (UserObject 2).
Proof.
  apply (getPreset_last_save_wins no_foreign
           [("a", Obj (UserObject 1)); ("b", Prim (VNum (S754_zero false)));
            ("a", Obj (UserObject 2))] "a").
  repeat constructor; simpl; discriminate.
Defined.

Lemma save_listener_names_witness :
  let c := example_config in
  let datas := [Obj (UserObject 7); Prim (VStr ""); Obj (UserObject 9)] in
  let m := save_clicks no_foreign c datas PresetManagerFactory in
  let name i := presetNamePrefix c ++ decimal (Z.of_nat (S i)) in
  presetCounter m = N.of_nat (List.length datas)
  /\ Permutation (getPresetNames m) (map name (seq 0 (List.length datas)))
  /\ NoDup (getPresetNames m)
  /\ forall i d, nth_error datas i = Some d ->
       getPreset no_foreign m (name i) = if truthy d then d else Prim VNull.
Proof.
  intros c datas.
  apply (save_listener_names no_foreign nat c datas). vm_compute. reflexivity.
Defined.

(** ** setup and the listeners on the page *)

Section Page.

Variable foreign : ref -> string -> chain_property.
Variable App : Type.
Variable querySelector : string -> result (option nat).

Lemma addEventListener_face (w : world App) (button : option nat) (l : listener App)
  (j : nat) (e : control App) :
  nth_error (elements w) j = Some e ->
  exists e',
    nth_error (elements (when_found w button
                           (fun w node => addEventListener w node l))) j = Some e'
    /\ options e' = options e /\ selected e' = selected e.
Proof.
  intros He. destruct button as [node|]; simpl; [|eauto].
  destruct (Nat.eq_dec j node) as [->|Hne].
  - rewrite update_nth_same, He. simpl. eauto.
  - rewrite update_nth_other by exact Hne. eauto.
Qed.

Lemma addEventListener_rest (w : world App) (button : option nat) (l : listener App) :
  managers (when_found w button (fun w node => addEventListener w node l)) = managers w
  /\ app (when_found w button (fun w node => addEventListener w node l)) = app w.
Proof. destruct button; auto. Qed.

(** X17. Without a save button [setup] saves nothing: when the selector of
    the save button matches no element, [setup] returns with the managers
    and the state of the application as before and without any change to
    the options or the selection of an element, and when the two other
    buttons are missing as well the page is left as it was.  It returns
    whenever the two other selectors are valid, and when it raises instead
    it has changed nothing. *)
Theorem setup_without_save_button (w : world App) (mgr : nat) (c : config App) :
  querySelector (saveButton (selectors c)) = Ok None ->
  (forall w', setup foreign querySelector w mgr c = Ok w' ->
     managers w' = managers w
     /\ app w' = app w
     /\ (forall j e, nth_error (elements w) j = Some e ->
           exists e', nth_error (elements w') j = Some e'
                      /\ options e' = options e /\ selected e' = selected e)
     /\ (querySelector (applyButton (selectors c)) = Ok None ->
         querySelector (animateButton (selectors c)) = Ok None -> w' = w))
  /\ (forall applyNode animateNode,
        querySelector (applyButton (selectors c)) = Ok applyNode ->
        querySelector (animateButton (selectors c)) = Ok animateNode ->
        exists w', setup foreign querySelector w mgr c = Ok w').
Proof.
  intros Hq. unfold setup. rewrite Hq. cbn [when_found].
  destruct (querySelector (applyButton (selectors c))) as [applyNode | err1];
    [| split; [discriminate | intros ? ? H; discriminate H]].
  destruct (querySelector (animateButton (selectors c))) as [animateNode | err2];
    [| split; [discriminate | intros ? ? _ H; discriminate H]].
  split; [| eauto].
  intros w' Hw'. inversion Hw' as [Hw]. clear Hw' Hw.
  set (w1 := when_found w applyNode
               (fun w node => addEventListener w node (OnApply mgr c))).
  destruct (addEventListener_rest w applyNode (OnApply mgr c)) as [Hm1 Ha1].
  fold w1 in Hm1, Ha1.
  destruct (addEventListener_rest w1 animateNode (OnAnimate mgr c)) as [Hm2 Ha2].
  split; [congruence|]. split; [congruence|]. split.
  - intros j e He.
    destruct (addEventListener_face w applyNode (OnApply mgr c) j e He)
      as (e1 & He1 & Ho1 & Hs1). fold w1 in He1.
    destruct (addEventListener_face w1 animateNode (OnAnimate mgr c) j e1 He1)
      as (e2 & He2 & Ho2 & Hs2).
    exists e2. split; [exact He2|]. split; congruence.
  - intros H1 H2. clear Hm1 Ha1 Hm2 Ha2. subst w1.
    injection H1 as ->. injection H2 as ->. reflexivity.
Qed.

Lemma save_listener_select (w : world App) (mgr : nat) (c : config App)
  (sel : nat) (es : control App) (m : manager) :
  querySelector (presetSelect (selectors c)) = Ok (Some sel) ->
  nth_error (elements w) sel = Some es ->
  nth_error (managers w) mgr = Some m ->
  exists e',
    nth_error (elements (run_listener foreign querySelector w (OnSave mgr c))) sel
    = Some e'
    /\ options e' = select_options (save_step foreign c (getInitialData c (app w)) m)
    /\ selected e' = "".
Proof.
  intros Hq He Hm. simpl. unfold updatePresetSelect. rewrite Hq. simpl.
  rewrite update_nth_same, Hm. simpl. rewrite update_nth_same, He. simpl.
  eexists. split; [reflexivity|]. split; reflexivity.
Qed.


(** X19. Saving puts the selection back to the placeholder, so Apply and
    Animate do nothing until a preset is chosen again: right after a run
    of the save listener that found the select element, a run of an apply
    or animate listener reading the same select element leaves the page as
    it is, whatever the manager of that listener holds. *)
Theorem apply_after_save_is_noop (w : world App) (mgr : nat) (c : config App)
  (sel : nat) (es : control App) (m : manager) (mgr' : nat) (c' : config App) :
  querySelector (presetSelect (selectors c)) = Ok (Some sel) ->
  nth_error (elements w) sel = Some es ->
  nth_error (managers w) mgr = Some m ->
  presetSelect (selectors c') = presetSelect (selectors c) ->
  let w' := run_listener foreign querySelector w (OnSave mgr c) in
  run_listener foreign querySelector w' (OnApply mgr' c') = w'
  /\ run_listener foreign querySelector w' (OnAnimate mgr' c') = w'.
Proof.
  intros Hq He Hm Hc w'.
  destruct (save_listener_select w mgr c sel es m Hq He Hm) as (e' & He' & _ & Hsel).
  fold w' in He'.
  assert (Hs : selectedPreset querySelector w' (presetSelect (selectors c')) = None).
  { unfold selectedPreset. rewrite Hc, Hq, He', Hsel. reflexivity. }
  split; cbn [run_listener]; rewrite Hs; reflexivity.
Qed.

End Page.

Lemma setup_without_save_button_witness :
  let c := example_config_for "#missing" in
  let w := example_world in
  (forall w', setup no_foreign example_query w 0 c = Ok w' ->
     managers w' = managers w
     /\ app w' = app w
     /\ (forall j e, nth_error (elements w) j = Some e ->
           exists e', nth_error (elements w') j = Some e'
                      /\ options e' = options e /\ selected e' = selected e)
     /\ (example_query (applyButton (selectors c)) = Ok None ->
         example_query (animateButton (selectors c)) = Ok None -> w' = w))
  /\ (forall applyNode animateNode,
        example_query (applyButton (selectors c)) = Ok applyNode ->
        example_query (animateButton (selectors c)) = Ok animateNode ->
        exists w', setup no_foreign example_query w 0 c = Ok w').
Proof.
  intros c w.
  apply (setup_without_save_button no_foreign nat example_query w 0 c). reflexivity.
Defined.


Lemma apply_after_save_is_noop_witness :
  let c := example_config in
  let w' := run_listener no_foreign example_query example_world (OnSave 0 c) in
  run_listener no_foreign example_query w' (OnApply 0 c) = w'
  /\ run_listener no_foreign example_query w' (OnAnimate 0 c) = w'.
Proof.
  intros c.
  apply (apply_after_save_is_noop no_foreign nat example_query example_world 0 c 1
           example_button PresetManagerFactory 0 c); reflexivity.
Defined.

End StoreFacts.
